(** * Evaluation core of the Ohm PEG interpreter

    A shallow embedding of [src/pexprs-eval.js] (the [eval] wrapper, every
    [_eval] variant, [useMemoizedResult], [Apply.reallyEval], [evalOnce],
    [growSeedResult]) and of [PosInfo.js] ([isActive], [enter], [exit],
    [startLeftRecursion], [endLeftRecursion], [updateInvolvedApplications]).

    - A call returns, throws, or runs out of the fuel that bounds the
      recursion through the grammar and the rounds of the two [while] loops.
    - The state is passed explicitly.  The memo table of a position is a map
      from memo keys to records; the left-recursion frames laid over seed
      records are kept as the chain [currentLeftRecursion] heads.
    - Positions are integers: the seed placeholder carries position -1.
    - Tracing is switched off ([state.isTracing()] is false throughout).
    - The state object, the input streams, [getArity], [substituteParams] and
      [toMemoKey] are not in these two files; they are modelled from the
      specification, each under a comment that says so. *)

From Stdlib Require Import ZArith List String Ascii Bool Lia Arith DecimalString.
Import ListNotations.
Set Warnings "-register-all".
Local Open Scope string_scope.
Local Open Scope Z_scope.

(** ** Input values *)

(** Primitive atoms of a JavaScript input. *)
Inductive Primitive : Type :=
| PUndefined
| PNull
| PBool (b : bool)
| PNum (n : Z)
| PStr (s : string).

(** Strings, arrays, plain objects and primitives; an object is the ordered
    list of its own enumerable properties. *)
Inductive Value : Type :=
| VPrim (p : Primitive)
| VArr (elems : list Value)
| VObj (props : list (string * Value)).

Definition Primitive_eqb (a b : Primitive) : bool :=
  match a, b with
  | PUndefined, PUndefined => true
  | PNull, PNull => true
  | PBool x, PBool y => Bool.eqb x y
  | PNum x, PNum y => Z.eqb x y
  | PStr x, PStr y => String.eqb x y
  | _, _ => false
  end.

(** [x === y] where [y] is a primitive: arrays and objects are never
    strictly equal to a primitive. *)
Definition strictEqPrim (x : Value) (y : Primitive) : bool :=
  match x with
  | VPrim p => Primitive_eqb p y
  | _ => false
  end.

(** [typeof] restricted to what [Range] compares. *)
Inductive JsType : Type := TUndefined | TObject | TBoolean | TNumber | TString.

Definition JsType_eqb (a b : JsType) : bool :=
  match a, b with
  | TUndefined, TUndefined | TObject, TObject | TBoolean, TBoolean
  | TNumber, TNumber | TString, TString => true
  | _, _ => false
  end.

Definition typeofPrim (p : Primitive) : JsType :=
  match p with
  | PUndefined => TUndefined
  | PNull => TObject
  | PBool _ => TBoolean
  | PNum _ => TNumber
  | PStr _ => TString
  end.

Definition typeofValue (v : Value) : JsType :=
  match v with
  | VPrim p => typeofPrim p
  | _ => TObject
  end.

(** [a <= b] on two primitives of one domain: numeric order on numbers and
    booleans, code-unit order on strings. *)
Definition primLeb (a b : Primitive) : bool :=
  match a, b with
  | PNum x, PNum y => Z.leb x y
  | PStr x, PStr y => String.leb x y
  | PBool x, PBool y => implb x y
  | PNull, PNull => true
  | _, _ => false
  end.

(** ** Parse-tree nodes *)

Record Interval : Type := mkInterval { startIdx : Z; endIdx : Z }.

Inductive Node : Type :=
| TerminalNode (primitiveValue : Value) (interval : Interval)
| NodeC (ctorName : string) (children : list Node) (interval : Interval).

Definition nodeInterval (n : Node) : Interval :=
  match n with
  | TerminalNode _ i => i
  | NodeC _ _ i => i
  end.

(** ** Input streams *)

(** A stream runs over the characters of a string or the elements of an
    array ([InputStream.newFor]). *)
Inductive Source : Type :=
| SrcString (s : string)
| SrcList (l : list Value).

Fixpoint chars (s : string) : list Value :=
  match s with
  | EmptyString => []
  | String c r => VPrim (PStr (String c EmptyString)) :: chars r
  end.

Definition atoms (src : Source) : list Value :=
  match src with
  | SrcString s => chars s
  | SrcList l => l
  end.

Record InputStream : Type := mkStream { source : Source; pos : Z }.

Definition sourceLength (st : InputStream) : Z :=
  Z.of_nat (List.length (atoms (source st))).

Definition atEnd (st : InputStream) : bool := pos st =? sourceLength st.

Definition setPos (st : InputStream) (p : Z) : InputStream :=
  mkStream (source st) p.

(** [source[pos]]: reading outside the sequence gives [undefined]. *)
Definition atomAt (st : InputStream) (p : Z) : Value :=
  if p <? 0 then VPrim PUndefined
  else nth (Z.to_nat p) (atoms (source st)) (VPrim PUndefined).

(** Modelled from the spec: [InputStream.next] is not under [src/]; it
    "returns atom at pos and advances (or a sentinel FAIL when at end)".
    [None] is the sentinel [common.fail]. *)
Definition next (st : InputStream) : option Value * InputStream :=
  if atEnd st then (None, st)
  else (Some (atomAt st (pos st)), setPos st (pos st + 1)).

(** Modelled from the spec: [InputStream.matchExactly(v)] consumes one atom
    and compares it with [v]. *)
Definition matchExactly (st : InputStream) (x : Primitive) : bool * InputStream :=
  match next st with
  | (Some v, st') => (strictEqPrim v x, st')
  | (None, st') => (false, st')
  end.

Fixpoint matchChars (st : InputStream) (s : string) : bool * InputStream :=
  match s with
  | EmptyString => (true, st)
  | String c r =>
      match matchExactly st (PStr (String c EmptyString)) with
      | (true, st') => matchChars st' r
      | (false, st') => (false, st')
      end
  end.

(** Modelled from the spec: [InputStream.matchString(s)] matches the exact
    string: character by character over a string, as one atom over an
    array. *)
Definition matchString (st : InputStream) (s : string) : bool * InputStream :=
  match source st with
  | SrcString _ => matchChars st s
  | SrcList _ => matchExactly st (PStr s)
  end.

(** [inputStream.interval(start, end)] with [end] defaulting to [pos]. *)
Definition intervalFrom (st : InputStream) (startI : Z) : Interval :=
  mkInterval startI (pos st).

(** ** Parsing expressions *)

(** The closed family of expression variants ([pexprs.js]); [anything] and
    [end_] are the two singletons. *)
Inductive PExpr : Type :=
| anything
| end_
| Prim (obj : Primitive)
| StringPrim (obj : string)
| Range (from to : Primitive)
| UnicodeChar (category : string)
| Param (index : nat)
| Lex (expr : PExpr)
| Alt (terms : list PExpr)
| Seq (factors : list PExpr)
| Iter (expr : PExpr) (minNumMatches : nat) (maxNumMatches : option nat)
| Not (expr : PExpr)
| Lookahead (expr : PExpr)
| Arr (expr : PExpr)
| Str (expr : PExpr)
| Obj (properties : list (string * PExpr)) (isLenient : bool)
| Apply (ruleName : string) (params : list PExpr).

(** An application is an [Apply] node: rule name and actual arguments. *)
Record Application : Type := mkApp { appRule : string; appParams : list PExpr }.

Definition appExpr (a : Application) : PExpr := Apply (appRule a) (appParams a).

Definition natKey (n : nat) : string := NilEmpty.string_of_uint (Nat.to_uint n).
Definition intKey (z : Z) : string := NilEmpty.string_of_int (Z.to_int z).

Definition quote : string := String (ascii_of_nat 34) EmptyString.

Definition primKey (p : Primitive) : string :=
  match p with
  | PUndefined => "undefined"
  | PNull => "null"
  | PBool true => "true"
  | PBool false => "false"
  | PNum n => intKey n
  | PStr s => quote ++ s ++ quote
  end.

Fixpoint joinKeys (sep : string) (ks : list string) : string :=
  match ks with
  | [] => EmptyString
  | [k] => k
  | k :: r => k ++ sep ++ joinKeys sep r
  end.

(** Modelled from the spec: [toMemoKey] is not under [src/].  For an
    application the key is [ruleName] or [ruleName<arg1,arg2,...>], the
    argument keys being the keys of the argument expressions; the other
    variants are written in their grammar notation. *)
Fixpoint exprKey (e : PExpr) : string :=
  match e with
  | anything => "_"
  | end_ => "end"
  | Prim p => primKey p
  | StringPrim s => quote ++ s ++ quote
  | Range a b => primKey a ++ ".." ++ primKey b
  | UnicodeChar c => "\p{" ++ c ++ "}"
  | Param i => "$" ++ natKey i
  | Lex e => "#(" ++ exprKey e ++ ")"
  | Alt ts => "(" ++ joinKeys " | " (map exprKey ts) ++ ")"
  | Seq fs => "(" ++ joinKeys " " (map exprKey fs) ++ ")"
  | Iter e mn mx =>
      "(" ++ exprKey e ++ "){" ++ natKey mn ++ "," ++
      match mx with Some m => natKey m | None => EmptyString end ++ "}"
  | Not e => "~(" ++ exprKey e ++ ")"
  | Lookahead e => "&(" ++ exprKey e ++ ")"
  | Arr e => "[" ++ exprKey e ++ "]"
  | Str e => "``" ++ exprKey e ++ "''"
  | Obj ps len =>
      "{" ++ joinKeys ", " (map (fun p => fst p ++ ": " ++ exprKey (snd p)) ps) ++
      (if len then ", ..." else EmptyString) ++ "}"
  | Apply r ps =>
      match ps with
      | [] => r
      | _ => r ++ "<" ++ joinKeys "," (map exprKey ps) ++ ">"
      end
  end.

Definition MemoKey : Type := string.

Definition toMemoKey (a : Application) : MemoKey := exprKey (appExpr a).

(** [this === currentLR.headApplication], [app !== state.applySpaces_]:
    application objects are compared through their memo keys.  Object
    identity is not modelled; an application is taken to be one object per
    rule name and substituted arguments, which is what makes the head of a
    left recursion recognise the frame started inside it. *)
Definition sameApplication (a b : Application) : bool :=
  String.eqb (toMemoKey a) (toMemoKey b).

(** Modelled from the spec: a rule is syntactic iff its name begins with an
    uppercase letter ([isSyntactic] is not under [src/]). *)
Definition isUpper (c : ascii) : bool :=
  let n := nat_of_ascii c in (65 <=? n)%nat && (n <=? 90)%nat.

Definition isSyntactic (a : Application) : bool :=
  match appRule a with
  | String c _ => isUpper c
  | EmptyString => false
  end.

Fixpoint sumList (l : list nat) : nat :=
  match l with
  | [] => 0%nat
  | x :: r => (x + sumList r)%nat
  end.

(** Modelled from the spec: [getArity] is not under [src/]; the table is
    the one of the spec (section 4.1).  An alternation has the arity of its
    alternatives (that of the first one), a parameter that of an argument
    (one binding). *)
Fixpoint getArity (e : PExpr) : nat :=
  match e with
  | anything | end_ | Prim _ | StringPrim _ | Range _ _ | UnicodeChar _ => 1
  | Param _ => 1
  | Lex e => getArity e
  | Alt ts => match ts with [] => 0 | t :: _ => getArity t end
  | Seq fs => sumList (map getArity fs)
  | Iter e _ _ => getArity e
  | Not _ => 0
  | Lookahead e => getArity e
  | Arr _ => 0
  | Str _ => 0
  | Obj _ len => if len then 1 else 0
  | Apply _ _ => 1
  end%nat.

Fixpoint allSome {A : Type} (l : list (option A)) : option (list A) :=
  match l with
  | [] => Some []
  | None :: _ => None
  | Some x :: r => option_map (cons x) (allSome r)
  end.

(** Modelled from the spec: [substituteParams] is not under [src/]; it
    replaces every [Param i] by the i-th actual argument of the caller.
    [None] stands for an index with no argument. *)
Fixpoint substituteParams (e : PExpr) (actuals : list PExpr) : option PExpr :=
  match e with
  | Param i => nth_error actuals i
  | Lex e => option_map Lex (substituteParams e actuals)
  | Alt ts => option_map Alt (allSome (map (fun t => substituteParams t actuals) ts))
  | Seq fs => option_map Seq (allSome (map (fun t => substituteParams t actuals) fs))
  | Iter e mn mx => option_map (fun e' => Iter e' mn mx) (substituteParams e actuals)
  | Not e => option_map Not (substituteParams e actuals)
  | Lookahead e => option_map Lookahead (substituteParams e actuals)
  | Arr e => option_map Arr (substituteParams e actuals)
  | Str e => option_map Str (substituteParams e actuals)
  | Obj ps len =>
      option_map (fun ps' => Obj ps' len)
        (allSome (map (fun p => option_map (pair (fst p)) (substituteParams (snd p) actuals)) ps))
  | Apply r ps =>
      option_map (Apply r) (allSome (map (fun t => substituteParams t actuals) ps))
  | _ => Some e
  end.

Definition substituteApp (ruleName : string) (ps actuals : list PExpr) : option Application :=
  option_map (mkApp ruleName) (allSome (map (fun t => substituteParams t actuals) ps)).

(** ** Per-position state ([PosInfo.js]) *)

(** A memo record [{pos, value}]; [value] is a node or [false]. *)
Record MemoRec : Type := mkMemoRec { memoPos : Z; memoValue : option Node }.

(** The seed placeholder [{pos: -1, value: false}]. *)
Definition seedRec : MemoRec := mkMemoRec (-1) None.

(** The left-recursion fields that [startLeftRecursion] lays over the seed
    record: the head, and the two variables its closures capture. *)
Record LRFrame : Type := mkLRFrame {
  headApplication : Application;
  indexOfFirstInvolvedRule : nat;
  involvedApplications : list MemoKey
}.

(** [currentLeftRecursion] is kept as the chain it heads: the first frame is
    the current one, the rest is reached through [nextLeftRecursion]. *)
Record PosInfo : Type := mkPosInfo {
  applicationStack : list MemoKey;
  memo : MemoKey -> option MemoRec;
  currentLeftRecursion : list LRFrame
}.

Definition newPosInfo : PosInfo := mkPosInfo [] (fun _ => None) [].

Fixpoint indexOf (k : MemoKey) (l : list MemoKey) : option nat :=
  match l with
  | [] => None
  | x :: r => if String.eqb x k then Some 0%nat else option_map S (indexOf k r)
  end.

Definition isSome {A : Type} (o : option A) : bool :=
  match o with Some _ => true | None => false end.

Definition isActive (pi : PosInfo) (application : Application) : bool :=
  isSome (indexOf (toMemoKey application) (applicationStack pi)).

Definition setMemo (pi : PosInfo) (k : MemoKey) (r : MemoRec) : PosInfo :=
  mkPosInfo (applicationStack pi)
            (fun k' => if String.eqb k' k then Some r else memo pi k')
            (currentLeftRecursion pi).

Definition pushApplication (pi : PosInfo) (k : MemoKey) : PosInfo :=
  mkPosInfo (applicationStack pi ++ [k]) (memo pi) (currentLeftRecursion pi).

Definition popApplication (pi : PosInfo) : PosInfo :=
  mkPosInfo (removelast (applicationStack pi)) (memo pi) (currentLeftRecursion pi).

(** [startLeftRecursion(headApplication, memoRec)]: the involved
    applications are the entries of the stack after the head's. *)
Definition startLeftRecursion (pi : PosInfo) (head : Application) : PosInfo :=
  let first :=
    match indexOf (toMemoKey head) (applicationStack pi) with
    | Some i => S i
    | None => 0%nat
    end in
  mkPosInfo (applicationStack pi) (memo pi)
            (mkLRFrame head first (skipn first (applicationStack pi))
               :: currentLeftRecursion pi).

Definition isInvolved (lr : LRFrame) (application : Application) : bool :=
  isSome (indexOf (toMemoKey application) (involvedApplications lr)).

(** What a closure of a frame may be handed as [application]: an
    application object, or, as in [updateInvolvedApplications], an entry of
    the application stack, which is a memo key. *)
Inductive ApplicationArg : Type :=
| AppObject (a : Application)
| AppKey (k : MemoKey).

(** [application.toMemoKey()]: a string has no such method. *)
Definition callToMemoKey (x : ApplicationArg) : MemoKey + string :=
  match x with
  | AppObject a => inl (toMemoKey a)
  | AppKey _ => inr "toMemoKey is not a function"
  end.

(** The closure [memoRec.updateInvolvedApplications] installed by
    [startLeftRecursion], run over the application stack as it is when the
    closure is called: the loop from [indexOfFirstInvolvedRule + 1]; the
    result is the new list of involved applications, or the [TypeError]
    raised by [this.isInvolved(application)]. *)
Fixpoint updateInvolvedLoop (entries : list MemoKey) (involved : list MemoKey)
  : list MemoKey + string :=
  match entries with
  | [] => inl involved
  | application :: rest =>
      match callToMemoKey (AppKey application) with
      | inr err => inr err
      | inl k =>
          if isSome (indexOf k involved) then updateInvolvedLoop rest involved
          else updateInvolvedLoop rest (involved ++ [application])%list
      end
  end.

Definition updateInvolvedApplications (lr : LRFrame) (stack : list MemoKey)
  : list MemoKey + string :=
  updateInvolvedLoop (skipn (S (indexOfFirstInvolvedRule lr)) stack)
                     (involvedApplications lr).

Definition endLeftRecursion (pi : PosInfo) : PosInfo :=
  mkPosInfo (applicationStack pi) (memo pi) (tl (currentLeftRecursion pi)).

(** ** Evaluation state *)

(** A rule body with its [description]; [None] when the body has none (or an
    empty one, which is as falsy). *)
Record RuleBody : Type := mkRule { ruleExpr : PExpr; description : option string }.

Record Grammar : Type := mkGrammar {
  ruleDict : list (string * RuleBody);
  applySpaces_ : Application;
  unicodeTest : string -> Value -> bool
}.

Fixpoint lookupRule (d : list (string * RuleBody)) (name : string) : option RuleBody :=
  match d with
  | [] => None
  | (n, b) :: r => if String.eqb n name then Some b else lookupRule r name
  end.

Definition PosInfoTable : Type := Z -> option PosInfo.

(** Modelled from the spec: the state object is not under [src/].  It holds
    the stream stack (the current stream with its per-position table, then
    the suspended ones), the bindings stack, the application chain with the
    lexical-context flags, and the failure record. *)
Record State : Type := mkState {
  inputStream : InputStream;
  posInfos : PosInfoTable;
  inputStreamStack : list (InputStream * PosInfoTable);
  bindings : list Node;
  applications : list Application;
  inLexicalContextStack : list bool;
  ignoreFailuresCount : nat;
  rightmostFailPos : Z;
  failures : list PExpr
}.

Definition setInputStream (s : State) (st : InputStream) : State :=
  mkState st (posInfos s) (inputStreamStack s) (bindings s) (applications s)
          (inLexicalContextStack s) (ignoreFailuresCount s) (rightmostFailPos s) (failures s).

Definition setPosInfos (s : State) (t : PosInfoTable) : State :=
  mkState (inputStream s) t (inputStreamStack s) (bindings s) (applications s)
          (inLexicalContextStack s) (ignoreFailuresCount s) (rightmostFailPos s) (failures s).

Definition setBindings (s : State) (b : list Node) : State :=
  mkState (inputStream s) (posInfos s) (inputStreamStack s) b (applications s)
          (inLexicalContextStack s) (ignoreFailuresCount s) (rightmostFailPos s) (failures s).

Definition setContext (s : State) (apps : list Application) (lex : list bool) : State :=
  mkState (inputStream s) (posInfos s) (inputStreamStack s) (bindings s) apps
          lex (ignoreFailuresCount s) (rightmostFailPos s) (failures s).

Definition setFailures (s : State) (c : nat) (p : Z) (f : list PExpr) : State :=
  mkState (inputStream s) (posInfos s) (inputStreamStack s) (bindings s) (applications s)
          (inLexicalContextStack s) c p f.

Definition currentPos (s : State) : Z := pos (inputStream s).

Definition setCurrentPos (s : State) (p : Z) : State :=
  setInputStream s (setPos (inputStream s) p).

Definition pushBinding (s : State) (n : Node) : State :=
  setBindings s (bindings s ++ [n]).

Definition popBinding (s : State) : State :=
  setBindings s (removelast (bindings s)).

(** Modelled from the spec: [truncateBindings(n)] cuts the bindings stack
    back to its first [n] nodes. *)
Definition truncateBindings (s : State) (n : nat) : State :=
  setBindings s (firstn n (bindings s)).

(** [getPosInfo(pos)]: the entry of the current stream's table, a fresh
    [PosInfo] where there is none yet. *)
Definition getPosInfo (s : State) (p : Z) : PosInfo :=
  match posInfos s p with
  | Some pi => pi
  | None => newPosInfo
  end.

Definition setPosInfo (s : State) (p : Z) (pi : PosInfo) : State :=
  setPosInfos s (fun q => if Z.eqb q p then Some pi else posInfos s q).

Definition getCurrentPosInfo (s : State) : PosInfo := getPosInfo s (currentPos s).

(** Modelled from the spec: [pushInputStream] makes a nested stream current
    with a table of its own; [popInputStream] returns to the suspended one. *)
Definition pushInputStream (s : State) (st : InputStream) : State :=
  mkState st (fun _ => None) ((inputStream s, posInfos s) :: inputStreamStack s)
          (bindings s) (applications s) (inLexicalContextStack s)
          (ignoreFailuresCount s) (rightmostFailPos s) (failures s).

Definition popInputStream (s : State) : State :=
  match inputStreamStack s with
  | (st, t) :: r =>
      mkState st t r (bindings s) (applications s) (inLexicalContextStack s)
              (ignoreFailuresCount s) (rightmostFailPos s) (failures s)
  | [] => s
  end.

Definition currentApplication (s : State) : option Application :=
  match applications s with
  | [] => None
  | _ => Some (last (applications s) (mkApp EmptyString []))
  end.

(** [caller ? caller.params : []]. *)
Definition callerParams (s : State) : list PExpr :=
  match currentApplication s with
  | Some c => appParams c
  | None => []
  end.

(** Modelled from the spec: [state.enter] / [state.exit] keep the
    application chain and open a non-lexical context for the application;
    [enterLexicalContext] / [exitLexicalContext] bracket a [Lex]. *)
Definition stateEnter (s : State) (a : Application) : State :=
  setContext s (applications s ++ [a]) (inLexicalContextStack s ++ [false]).

Definition stateExit (s : State) : State :=
  setContext s (removelast (applications s)) (removelast (inLexicalContextStack s)).

Definition enterLexicalContext (s : State) : State :=
  setContext s (applications s) (inLexicalContextStack s ++ [true]).

Definition exitLexicalContext (s : State) : State :=
  setContext s (applications s) (removelast (inLexicalContextStack s)).

Definition inLexicalContext (s : State) : bool := last (inLexicalContextStack s) false.

Definition inSyntacticContext (s : State) : bool :=
  match currentApplication s with
  | Some a => isSyntactic a && negb (inLexicalContext s)
  | None => false
  end.

(** Modelled from the spec (4.4): a counted suppression scope, and a record
    of the expressions expected at the rightmost failure position. *)
Definition doNotRecordFailures (s : State) : State :=
  setFailures s (S (ignoreFailuresCount s)) (rightmostFailPos s) (failures s).

Definition doRecordFailures (s : State) : State :=
  setFailures s (Nat.pred (ignoreFailuresCount s)) (rightmostFailPos s) (failures s).

Definition recordFailure (s : State) (p : Z) (e : PExpr) : State :=
  match ignoreFailuresCount s with
  | S _ => s
  | O =>
      if p <? rightmostFailPos s then s
      else if rightmostFailPos s <? p then setFailures s 0%nat p [e]
      else setFailures s 0%nat p (failures s ++ [e])
  end.

(** [PosInfo.enter] and [PosInfo.exit] on the entry at position [p]. *)
Definition posInfoEnter (s : State) (p : Z) (a : Application) : State :=
  let s1 := stateEnter s a in
  setPosInfo s1 p (pushApplication (getPosInfo s1 p) (toMemoKey a)).

Definition posInfoExit (s : State) (p : Z) : State :=
  let s1 := stateExit s in
  setPosInfo s1 p (popApplication (getPosInfo s1 p)).

(** ** Outcomes *)

Inductive Error : Type :=
| TypeError (what : string)
| InvalidGrammar (what : string).

(** A call returns, throws, or exhausts the fuel of the model. *)
Inductive Result (A : Type) : Type :=
| Ok (a : A)
| Throw (e : Error)
| OutOfFuel.

Arguments Ok {A} a.
Arguments Throw {A} e.
Arguments OutOfFuel {A}.

Definition bind {A B : Type} (c : Result A) (k : A -> Result B) : Result B :=
  match c with
  | Ok a => k a
  | Throw e => Throw e
  | OutOfFuel => OutOfFuel
  end.

Notation "x <- c ;; k" := (bind c (fun x => k))
  (at level 61, c at next level, right associativity).
Notation "' p <- c ;; k" := (bind c (fun x => let 'p := x in k))
  (at level 61, p pattern, c at next level, right associativity).

(** ** Helpers on arrays and objects *)

(** [bindings.splice(bindings.length - arity, arity)]: what stays and what
    is removed.  A negative start counts from the end of the array. *)
Definition spliceLast (l : list Node) (arity : nat) : list Node * list Node :=
  let len := List.length l in
  let start := if (arity <=? len)%nat then (len - arity)%nat else (2 * len - arity)%nat in
  let cnt := Nat.min arity (len - start) in
  ((firstn start l ++ skipn (start + cnt) l)%list, firstn cnt (skipn start l)).

(** [cols[idx].push(row[idx])] for every index of [row]. *)
Fixpoint pushCols (cols : list (list Node)) (row : list Node) : list (list Node) :=
  match cols, row with
  | c :: cs, r :: rs => (c ++ [r])%list :: pushCols cs rs
  | cs, [] => cs
  | [], _ :: _ => []
  end.

(** The own properties of an object-like value, in enumeration order: the
    entries of an object, the indices of an array. *)
Definition ownProperties (v : Value) : list (string * Value) :=
  match v with
  | VObj ps => ps
  | VArr l => combine (map natKey (seq 0 (List.length l))) l
  | VPrim _ => []
  end.

Fixpoint lookupProp (ps : list (string * Value)) (name : string) : option Value :=
  match ps with
  | [] => None
  | (n, v) :: r => if String.eqb n name then Some v else lookupProp r name
  end.

Definition hasOwnProperty (v : Value) (name : string) : bool :=
  isSome (lookupProp (ownProperties v) name) ||
  match v with VArr _ => String.eqb name "length" | _ => false end.

(** [obj[name]]. *)
Definition getProperty (v : Value) (name : string) : Value :=
  match lookupProp (ownProperties v) name with
  | Some x => x
  | None =>
      match v with
      | VArr l => if String.eqb name "length" then VPrim (PNum (Z.of_nat (List.length l)))
                  else VPrim PUndefined
      | _ => VPrim PUndefined
      end
  end.

(** [remainder[p] = v]. *)
Fixpoint setProp (ps : list (string * Value)) (p : string) (v : Value) : list (string * Value) :=
  match ps with
  | [] => [(p, v)]
  | (n, x) :: r => if String.eqb n p then (n, v) :: r else (n, x) :: setProp r p v
  end.

(** [obj && (typeof obj === 'object' || typeof obj === 'function')]. *)
Definition isObjectLike (v : Value) : bool :=
  match v with
  | VPrim _ => false
  | _ => true
  end.

(** [this.properties.indexOf(p)] where [p] is a property name: the
    elements of [this.properties] are [{name, pattern}] records, and a record
    is never strictly equal to a string. *)
Definition propertyStrictEqName (property : string * PExpr) (p : string) : bool := false.

Fixpoint indexOfProperty (properties : list (string * PExpr)) (p : string) : Z :=
  match properties with
  | [] => -1
  | x :: r =>
      if propertyStrictEqName x p then 0
      else let i := indexOfProperty r p in if i <? 0 then -1 else i + 1
  end.

(** The loop [for (var p in obj)] of the lenient branch of [Obj._eval]. *)
Fixpoint remainderLoop (obj : Value) (properties : list (string * PExpr))
         (keys : list string) (remainder : list (string * Value)) : list (string * Value) :=
  match keys with
  | [] => remainder
  | p :: r =>
      if hasOwnProperty obj p && (indexOfProperty properties p <? 0)
      then remainderLoop obj properties r (setProp remainder p (getProperty obj p))
      else remainderLoop obj properties r remainder
  end.

(** ** The evaluator ([pexprs-eval.js]) *)

Definition Answer : Type := (bool * State)%type.

Section Evaluator.

(** The grammar, [e.eval(state)] for the calls an [_eval] makes, and the
    number of rounds its loops may take. *)
Variable g : Grammar.
Variable ev : PExpr -> State -> Result Answer.
Variable fuel : nat.

(** Modelled from the spec: [state.skipSpaces] is not under [src/]; it
    "invokes the grammar's spaces rule (via applySpaces_) and advances past
    its match", contributing no binding. *)
Definition skipSpaces (s : State) : Result State :=
  '(ans, s1) <- ev (appExpr (applySpaces_ g)) s ;;
  Ok (if ans then popBinding s1 else s1).

Definition skipSpacesIfInSyntacticContext (s : State) : Result (Z * State) :=
  if inSyntacticContext s
  then s1 <- skipSpaces s ;; Ok (currentPos s1, s1)
  else Ok (currentPos s, s).

Definition eval_anything (s : State) : Result Answer :=
  '(origPos, s1) <- skipSpacesIfInSyntacticContext s ;;
  match next (inputStream s1) with
  | (None, st) => Ok (false, recordFailure (setInputStream s1 st) origPos anything)
  | (Some value, st) =>
      Ok (true, pushBinding (setInputStream s1 st)
                  (TerminalNode value (intervalFrom st origPos)))
  end.

Definition eval_end (s : State) : Result Answer :=
  '(origPos, s1) <- skipSpacesIfInSyntacticContext s ;;
  if atEnd (inputStream s1)
  then Ok (true, pushBinding s1
                   (TerminalNode (VPrim PUndefined)
                      (intervalFrom (inputStream s1) (currentPos s1))))
  else Ok (false, recordFailure s1 origPos end_).

(** [Prim._eval]; [matcher] is [this.match]. *)
Definition eval_Prim (this : PExpr) (obj : Primitive)
           (matcher : InputStream -> bool * InputStream) (s : State) : Result Answer :=
  '(origPos, s1) <- skipSpacesIfInSyntacticContext s ;;
  match matcher (inputStream s1) with
  | (false, st) => Ok (false, recordFailure (setInputStream s1 st) origPos this)
  | (true, st) =>
      Ok (true, pushBinding (setInputStream s1 st)
                  (TerminalNode (VPrim obj) (intervalFrom st origPos)))
  end.

Definition inRange (from to : Primitive) (o : option Value) : bool :=
  match o with
  | Some (VPrim x) =>
      JsType_eqb (typeofPrim x) (typeofPrim from) && primLeb from x && primLeb x to
  | _ => false
  end.

Definition eval_Range (from to : Primitive) (s : State) : Result Answer :=
  '(origPos, s1) <- skipSpacesIfInSyntacticContext s ;;
  match next (inputStream s1) with
  | (obj, st) =>
      if inRange from to obj
      then Ok (true, pushBinding (setInputStream s1 st)
                       (TerminalNode (match obj with Some v => v | None => VPrim PUndefined end)
                          (intervalFrom st origPos)))
      else Ok (false, recordFailure (setInputStream s1 st) origPos (Range from to))
  end.

Definition eval_UnicodeChar (category : string) (s : State) : Result Answer :=
  '(origPos, s1) <- skipSpacesIfInSyntacticContext s ;;
  match next (inputStream s1) with
  | (Some value, st) =>
      if unicodeTest g category value
      then Ok (true, pushBinding (setInputStream s1 st)
                       (TerminalNode value (intervalFrom st origPos)))
      else Ok (false, recordFailure (setInputStream s1 st) origPos (UnicodeChar category))
  | (None, st) =>
      Ok (false, recordFailure (setInputStream s1 st) origPos (UnicodeChar category))
  end.

(** [state.currentApplication().params[this.index].eval(state)]. *)
Definition eval_Param (index : nat) (s : State) : Result Answer :=
  match currentApplication s with
  | None => Throw (TypeError "params of undefined")
  | Some a =>
      match nth_error (appParams a) index with
      | None => Throw (TypeError "eval of undefined")
      | Some p => ev p s
      end
  end.

Definition eval_Lex (expr : PExpr) (s : State) : Result Answer :=
  '(ans, s1) <- ev expr (enterLexicalContext s) ;;
  Ok (ans, exitLexicalContext s1).

Fixpoint eval_Alt (terms : list PExpr) (s : State) : Result Answer :=
  match terms with
  | [] => Ok (false, s)
  | t :: rest =>
      '(ans, s1) <- ev t s ;;
      if ans then Ok (true, s1) else eval_Alt rest s1
  end.

Fixpoint eval_Seq (factors : list PExpr) (s : State) : Result Answer :=
  match factors with
  | [] => Ok (true, s)
  | f :: rest =>
      '(ans, s1) <- ev f s ;;
      if ans then eval_Seq rest s1 else Ok (false, s1)
  end.

Definition belowMax (numMatches : nat) (maxNumMatches : option nat) : bool :=
  match maxNumMatches with
  | Some m => (numMatches <? m)%nat
  | None => true
  end.

(** The [while] loop of [Iter._eval]. *)
Fixpoint iterLoop (expr : PExpr) (arity : nat) (maxNumMatches : option nat)
         (rounds : nat) (numMatches : nat) (cols : list (list Node)) (s : State)
  : Result (nat * list (list Node) * State) :=
  match rounds with
  | O => OutOfFuel
  | S rounds' =>
      if belowMax numMatches maxNumMatches then
        '(ans, s1) <- ev expr s ;;
        if ans then
          let '(rest, row) := spliceLast (bindings s1) arity in
          iterLoop expr arity maxNumMatches rounds' (S numMatches)
                   (pushCols cols row) (setBindings s1 rest)
        else Ok (numMatches, cols, s1)
      else Ok (numMatches, cols, s)
  end.

Definition firstStart (cols : list (list Node)) : Result Z :=
  match cols with
  | (n :: _) :: _ => Ok (startIdx (nodeInterval n))
  | _ => Throw (TypeError "interval of undefined")
  end.

Definition lastEnd (cols : list (list Node)) : Result Z :=
  match rev cols with
  | lastCol :: _ =>
      match rev lastCol with
      | n :: _ => Ok (endIdx (nodeInterval n))
      | [] => Throw (TypeError "interval of undefined")
      end
  | [] => Throw (TypeError "length of undefined")
  end.

Definition pushIterNodes (s : State) (cols : list (list Node)) (interval : Interval) : State :=
  fold_left (fun st col => pushBinding st (NodeC "_iter" col interval)) cols s.

Definition eval_Iter (expr : PExpr) (minNumMatches : nat) (maxNumMatches : option nat)
           (s : State) : Result Answer :=
  let origPos := currentPos s in
  let arity := getArity (Iter expr minNumMatches maxNumMatches) in
  let cols := repeat ([] : list Node) arity in
  '(numMatches, cols1, s1) <- iterLoop expr arity maxNumMatches fuel 0%nat cols s ;;
  if (numMatches <? minNumMatches)%nat then Ok (false, s1)
  else
    interval <- (if (numMatches =? 0)%nat then Ok (mkInterval origPos origPos)
                 else a <- firstStart cols1 ;; b <- lastEnd cols1 ;; Ok (mkInterval a b)) ;;
    Ok (true, pushIterNodes s1 cols1 interval).

Definition eval_Not (expr : PExpr) (s : State) : Result Answer :=
  let origPos := currentPos s in
  let origNumBindings := List.length (bindings s) in
  '(ans, s1) <- ev expr (doNotRecordFailures s) ;;
  let s2 := doRecordFailures s1 in
  if ans
  then Ok (false, truncateBindings (recordFailure s2 origPos (Not expr)) origNumBindings)
  else Ok (true, setCurrentPos s2 origPos).

Definition eval_Lookahead (expr : PExpr) (s : State) : Result Answer :=
  let origPos := currentPos s in
  '(ans, s1) <- ev expr s ;;
  if ans then Ok (true, setCurrentPos s1 origPos) else Ok (false, s1).

Definition eval_Arr (expr : PExpr) (s : State) : Result Answer :=
  match next (inputStream s) with
  | (Some (VArr obj), st) =>
      let s1 := pushInputStream (setInputStream s st) (mkStream (SrcList obj) 0) in
      '(a, s2) <- ev expr s1 ;;
      let ans := a && atEnd (inputStream s2) in
      Ok (ans, popInputStream s2)
  | (_, st) => Ok (false, setInputStream s st)
  end.

Definition eval_Str (expr : PExpr) (s : State) : Result Answer :=
  match next (inputStream s) with
  | (Some (VPrim (PStr obj)), st) =>
      let s1 := pushInputStream (setInputStream s st) (mkStream (SrcString obj) 0) in
      '(a, s2) <- ev expr s1 ;;
      '(ans, s3) <- (if a then ev end_ s2 else Ok (false, s2)) ;;
      let s4 := if ans then popBinding s3 else s3 in
      Ok (ans, popInputStream s4)
  | (_, st) => Ok (false, setInputStream s st)
  end.

(** The [for] loop over [this.properties] in [Obj._eval]; [None] is the
    early [return false]. *)
Fixpoint objLoop (obj : Value) (properties : list (string * PExpr))
         (numOwnPropertiesMatched : nat) (s : State) : Result (option nat * State) :=
  match properties with
  | [] => Ok (Some numOwnPropertiesMatched, s)
  | (name, pattern) :: rest =>
      if negb (hasOwnProperty obj name) then Ok (None, s)
      else
        let value := getProperty obj name in
        let s1 := pushInputStream s (mkStream (SrcList [value]) 0) in
        '(a, s2) <- ev pattern s1 ;;
        let matched := a && atEnd (inputStream s2) in
        let s3 := popInputStream s2 in
        if matched then objLoop obj rest (S numOwnPropertiesMatched) s3
        else Ok (None, s3)
  end.

Definition eval_Obj (properties : list (string * PExpr)) (isLenient : bool)
           (s : State) : Result Answer :=
  let origPos := currentPos s in
  match next (inputStream s) with
  | (Some obj, st) =>
      let s0 := setInputStream s st in
      if isObjectLike obj then
        '(r, s1) <- objLoop obj properties 0%nat s0 ;;
        match r with
        | None => Ok (false, s1)
        | Some numOwnPropertiesMatched =>
            if isLenient then
              let remainder :=
                remainderLoop obj properties (map fst (ownProperties obj)) [] in
              Ok (true, pushBinding s1
                          (TerminalNode (VObj remainder)
                             (intervalFrom (inputStream s1) origPos)))
            else
              Ok ((numOwnPropertiesMatched =? List.length (ownProperties obj))%nat, s1)
        end
      else Ok (false, s0)
  | (None, st) => Ok (false, setInputStream s st)
  end.

Definition useMemoizedResult (s : State) (memoRec : MemoRec) : Answer :=
  let s1 := setCurrentPos s (memoPos memoRec) in
  match memoValue memoRec with
  | Some value => (true, pushBinding s1 value)
  | None => (false, s1)
  end.

Definition evalOnce (this : Application) (expr : PExpr) (s : State)
  : Result (option Node * State) :=
  let origPos := currentPos s in
  '(ans, s1) <- ev expr s ;;
  if ans then
    let arity := getArity expr in
    let '(rest, row) := spliceLast (bindings s1) arity in
    Ok (Some (NodeC (appRule this) row (intervalFrom (inputStream s1) origPos)),
        setBindings s1 rest)
  else Ok (None, s1).

(** [lrMemoRec.pos = ...; lrMemoRec.value = ...]: the record is the one
    stored under [memoKey] at [origPos]. *)
Definition commitSeed (s : State) (origPos : Z) (memoKey : MemoKey) (r : MemoRec) : State :=
  setPosInfo s origPos (setMemo (getPosInfo s origPos) memoKey r).

(** The [while (true)] loop of [growSeedResult].  [lrMemoRec] is the record
    the loop holds a reference to; every commit is written through to the
    memo table.  [committed] lists the positions committed so far and is
    only reported, never read. *)
Fixpoint growLoop (this : Application) (body : PExpr) (origPos : Z) (memoKey : MemoKey)
         (rounds : nat) (lrMemoRec : MemoRec) (committed : list Z) (s : State)
  : Result (MemoRec * list Z * State) :=
  match rounds with
  | O => OutOfFuel
  | S rounds' =>
      '(newValue, s1) <- evalOnce this body (setCurrentPos s origPos) ;;
      if currentPos s1 <=? memoPos lrMemoRec then Ok (lrMemoRec, committed, s1)
      else
        let r := mkMemoRec (currentPos s1) newValue in
        growLoop this body origPos memoKey rounds' r (committed ++ [currentPos s1])%list
                 (commitSeed s1 origPos memoKey r)
  end.

Definition growSeedResult (this : Application) (body : PExpr) (origPos : Z)
           (memoKey : MemoKey) (lrMemoRec : option MemoRec) (seedValue : option Node)
           (s : State) : Result (option Node * State) :=
  match seedValue with
  | None => Ok (None, s)
  | Some _ =>
      match lrMemoRec with
      | None =>
          '(_, _) <- evalOnce this body (setCurrentPos s origPos) ;;
          Throw (TypeError "pos of undefined")
      | Some r =>
          '(r', _, s1) <- growLoop this body origPos memoKey fuel r [] s ;;
          Ok (memoValue r', setCurrentPos s1 (memoPos r'))
      end
  end.

(** The three cases of [reallyEval] after the body has been evaluated. *)
Definition settleResult (this : Application) (body : PExpr) (origPos : Z)
           (value : option Node) (s : State) : Result (option Node * State) :=
  let origPosInfo := getPosInfo s origPos in
  let memoKey := toMemoKey this in
  let memoize :=
    commitSeed s origPos memoKey (mkMemoRec (currentPos s) value) in
  match currentLeftRecursion origPosInfo with
  | currentLR :: _ =>
      if sameApplication this (headApplication currentLR) then
        '(value', s1) <- growSeedResult this body origPos memoKey
                           (memo origPosInfo memoKey) value s ;;
        Ok (value', setPosInfo s1 origPos (endLeftRecursion (getPosInfo s1 origPos)))
      else if isInvolved currentLR this then Ok (value, s)
      else Ok (value, memoize)
  | [] => Ok (value, memoize)
  end.

Definition reallyEval (this : Application) (isTopLevelApplication : bool) (s : State)
  : Result Answer :=
  let origPos := currentPos s in
  let s1 := posInfoEnter s origPos this in
  match lookupRule (ruleDict g) (appRule this) with
  | None => Throw (TypeError "description of undefined")
  | Some body =>
      let s2 := if isSome (description body) then doNotRecordFailures s1 else s1 in
      '(value0, s3) <- evalOnce this (ruleExpr body) s2 ;;
      '(value, s4) <- settleResult this (ruleExpr body) origPos value0 s3 ;;
      let s5 :=
        if isSome (description body) then
          let s' := doRecordFailures s4 in
          if isSome value then s' else recordFailure s' origPos (appExpr this)
        else s4 in
      let s6 := posInfoExit s5 origPos in
      match value with
      | Some v =>
          let s7 := pushBinding s6 v in
          if isTopLevelApplication then
            s8 <- (if isSyntactic this then skipSpaces s7 else Ok s7) ;;
            '(ans, s9) <- ev end_ s8 ;;
            if ans then Ok (true, popBinding s9) else Ok (false, s9)
          else Ok (true, s7)
      | None => Ok (false, s6)
      end
  end.

(** "Skip whitespace at the application site, if the rule that's being
    applied is syntactic". *)
Definition applicationSite (app : Application) (s : State) : Result State :=
  if negb (sameApplication app (applySpaces_ g))
     && (inSyntacticContext s || isSyntactic app)
  then skipSpaces s else Ok s.

Definition eval_Apply (ruleName : string) (params : list PExpr) (s : State) : Result Answer :=
  let caller := currentApplication s in
  match substituteApp ruleName params (callerParams s) with
  | None => Throw (TypeError "toMemoKey of undefined")
  | Some app =>
      let memoKey := toMemoKey app in
      s1 <- applicationSite app s ;;
      let origPosInfo := getCurrentPosInfo s1 in
      match memo origPosInfo memoKey with
      | Some memoRec => Ok (useMemoizedResult s1 memoRec)
      | None =>
          if isActive origPosInfo app then
            Ok (false,
                setPosInfo s1 (currentPos s1)
                  (startLeftRecursion (setMemo origPosInfo memoKey seedRec) app))
          else reallyEval app (negb (isSome caller)) s1
      end
  end.

(** [this._eval(state)], by variant. *)
Definition _eval (e : PExpr) (s : State) : Result Answer :=
  match e with
  | anything => eval_anything s
  | end_ => eval_end s
  | Prim obj => eval_Prim e obj (fun st => matchExactly st obj) s
  | StringPrim obj => eval_Prim e (PStr obj) (fun st => matchString st obj) s
  | Range from to => eval_Range from to s
  | UnicodeChar c => eval_UnicodeChar c s
  | Param i => eval_Param i s
  | Lex x => eval_Lex x s
  | Alt ts => eval_Alt ts s
  | Seq fs => eval_Seq fs s
  | Iter x mn mx => eval_Iter x mn mx s
  | Not x => eval_Not x s
  | Lookahead x => eval_Lookahead x s
  | Arr x => eval_Arr x s
  | Str x => eval_Str x s
  | Obj ps len => eval_Obj ps len s
  | Apply r ps => eval_Apply r ps s
  end.

(** [PExpr.prototype.eval]: run [_eval]; on failure reset the position
    and the bindings. *)
Definition PExpr_eval (e : PExpr) (s : State) : Result Answer :=
  let origPos := currentPos s in
  let origNumBindings := List.length (bindings s) in
  '(ans, s1) <- _eval e s ;;
  if ans then Ok (true, s1)
  else Ok (false, truncateBindings (setCurrentPos s1 origPos) origNumBindings).

End Evaluator.

(** [e.eval(state)] with [fuel] levels of nested evaluation. *)
Fixpoint eval (g : Grammar) (fuel : nat) (e : PExpr) (s : State) : Result Answer :=
  match fuel with
  | O => OutOfFuel
  | S n => PExpr_eval g (eval g n) n e s
  end.

(** A fresh state over an input. *)
Definition initialState (src : Source) : State :=
  mkState (mkStream src 0) (fun _ => None) [] [] [] [] 0%nat (-1) [].

(** * Invariants of an evaluation: definitions *)

(** The left-recursion frames [startLeftRecursion] creates. *)
Definition startedFrame (lr : LRFrame) : Prop :=
  exists pi head, hd_error (currentLeftRecursion (startLeftRecursion pi head)) = Some lr.

(** Relation between the entries of one position before and after: the
    application stack is the same, memo records are kept (except under the
    key [x]), and every frame is an old one or one newly started. *)
Definition keepsPosInfo (x : option MemoKey) (pi pi' : PosInfo) : Prop :=
  applicationStack pi' = applicationStack pi /\
  (forall k r, x <> Some k -> memo pi k = Some r -> memo pi' k = Some r) /\
  (forall lr, In lr (currentLeftRecursion pi') ->
              In lr (currentLeftRecursion pi) \/ startedFrame lr).

Definition lookupPosInfo (t : PosInfoTable) (p : Z) : PosInfo :=
  match t p with Some pi => pi | None => newPosInfo end.

Definition exemptAt (x : option (Z * MemoKey)) (p : Z) : option MemoKey :=
  match x with
  | Some (q, k) => if Z.eqb q p then Some k else None
  | None => None
  end.

Definition keepsTable (x : option (Z * MemoKey)) (t t' : PosInfoTable) : Prop :=
  forall p, keepsPosInfo (exemptAt x p) (lookupPosInfo t p) (lookupPosInfo t' p).

(** [framesX x s s']: from [s] to [s'] the suspended streams, the source of
    the current stream, the application chain and the lexical flags are
    unchanged, and the table of the current stream is kept as above, the
    record at [x] excepted. *)
Record framesX (x : option (Z * MemoKey)) (s s' : State) : Prop := mkFrames {
  fr_stack : inputStreamStack s' = inputStreamStack s;
  fr_source : source (inputStream s') = source (inputStream s);
  fr_apps : applications s' = applications s;
  fr_lex : inLexicalContextStack s' = inLexicalContextStack s;
  fr_table : keepsTable x (posInfos s) (posInfos s')
}.

Definition frames : State -> State -> Prop := framesX None.

(** Two states that differ only in position, bindings or failure record. *)
Definition sameCore (s s' : State) : Prop :=
  inputStreamStack s' = inputStreamStack s /\
  source (inputStream s') = source (inputStream s) /\
  applications s' = applications s /\
  inLexicalContextStack s' = inLexicalContextStack s /\
  posInfos s' = posInfos s.

(** ** Arity consistency *)

(** [wf exact e]: the static arities of [e] agree with what its evaluation
    binds.  The alternatives of an [Alt] share one arity and every argument
    of an [Apply] has arity one; with [exact] set, the patterns inside [Arr],
    [Str] and [Obj], whose bindings the code leaves on the stack, bind
    nothing. *)
Fixpoint wf (exact : bool) (e : PExpr) : bool :=
  match e with
  | anything | end_ | Prim _ | StringPrim _ | Range _ _ | UnicodeChar _ | Param _ => true
  | Lex x | Iter x _ _ | Not x | Lookahead x => wf exact x
  | Alt ts =>
      forallb (wf exact) ts &&
      forallb (fun t => (getArity t =? getArity (Alt ts))%nat) ts
  | Seq fs => forallb (wf exact) fs
  | Arr x | Str x => wf exact x && (negb exact || (getArity x =? 0)%nat)
  | Obj ps _ =>
      forallb (fun p => wf exact (snd p)) ps &&
      (negb exact || forallb (fun p => (getArity (snd p) =? 0)%nat) ps)
  | Apply _ args =>
      forallb (wf exact) args && forallb (fun a => (getArity a =? 1)%nat) args
  end.

(** Arguments of an application: consistent, each of arity one. *)
Definition wfArgs (exact : bool) (args : list PExpr) : bool :=
  forallb (wf exact) args && forallb (fun a => (getArity a =? 1)%nat) args.

Definition wfGrammar (exact : bool) (g : Grammar) : bool :=
  forallb (fun r => wf exact (ruleExpr (snd r))) (ruleDict g) &&
  wfArgs exact (appParams (applySpaces_ g)).

Definition wfApps (exact : bool) (apps : list Application) : bool :=
  forallb (fun a => wfArgs exact (appParams a)) apps.

(** [exact]: just [a] nodes; otherwise at least [a]. *)
Definition arityOK (exact : bool) (n a : nat) : Prop :=
  if exact then n = a else (a <= n)%nat.

(** From [s] to [s'] the bindings stack has only grown, by [k] nodes when
    [k] is given. *)
Definition grows (exact : bool) (k : option nat) (s s' : State) : Prop :=
  exists l,
    bindings s' = (bindings s ++ l)%list /\
    match k with
    | Some a => arityOK exact (List.length l) a
    | None => True
    end.

(** The contract of [eval]: on success the bindings have grown by the
    arity, on failure they are the ones before. *)
Definition evalContract (exact : bool) (b : bool) (e : PExpr) (s s' : State) : Prop :=
  if b then grows exact (Some (getArity e)) s s' else bindings s' = bindings s.

(** The contract of [_eval]: a failure may leave more bindings. *)
Definition rawContract (exact : bool) (b : bool) (e : PExpr) (s s' : State) : Prop :=
  grows exact (if b then Some (getArity e) else None) s s'.

(** ** Induction over expressions *)

Section PExpr_induction.

Variable P : PExpr -> Prop.
Hypothesis H_anything : P anything.
Hypothesis H_end : P end_.
Hypothesis H_Prim : forall obj, P (Prim obj).
Hypothesis H_StringPrim : forall obj, P (StringPrim obj).
Hypothesis H_Range : forall a b, P (Range a b).
Hypothesis H_UnicodeChar : forall c, P (UnicodeChar c).
Hypothesis H_Param : forall i, P (Param i).
Hypothesis H_Lex : forall e, P e -> P (Lex e).
Hypothesis H_Alt : forall ts, Forall P ts -> P (Alt ts).
Hypothesis H_Seq : forall fs, Forall P fs -> P (Seq fs).
Hypothesis H_Iter : forall e mn mx, P e -> P (Iter e mn mx).
Hypothesis H_Not : forall e, P e -> P (Not e).
Hypothesis H_Lookahead : forall e, P e -> P (Lookahead e).
Hypothesis H_Arr : forall e, P e -> P (Arr e).
Hypothesis H_Str : forall e, P e -> P (Str e).
Hypothesis H_Obj : forall ps len, Forall (fun p => P (snd p)) ps -> P (Obj ps len).
Hypothesis H_Apply : forall r ps, Forall P ps -> P (Apply r ps).

(** Induction over expressions, through their lists of sub-expressions. *)
Fixpoint PExpr_nested_ind (e : PExpr) : P e :=
  match e with
  | anything => H_anything
  | end_ => H_end
  | Prim obj => H_Prim obj
  | StringPrim obj => H_StringPrim obj
  | Range a b => H_Range a b
  | UnicodeChar c => H_UnicodeChar c
  | Param i => H_Param i
  | Lex x => H_Lex x (PExpr_nested_ind x)
  | Alt ts =>
      H_Alt ts ((fix go (l : list PExpr) : Forall P l :=
                   match l with
                   | [] => Forall_nil P
                   | x :: r => Forall_cons x (PExpr_nested_ind x) (go r)
                   end) ts)
  | Seq fs =>
      H_Seq fs ((fix go (l : list PExpr) : Forall P l :=
                   match l with
                   | [] => Forall_nil P
                   | x :: r => Forall_cons x (PExpr_nested_ind x) (go r)
                   end) fs)
  | Iter x mn mx => H_Iter x mn mx (PExpr_nested_ind x)
  | Not x => H_Not x (PExpr_nested_ind x)
  | Lookahead x => H_Lookahead x (PExpr_nested_ind x)
  | Arr x => H_Arr x (PExpr_nested_ind x)
  | Str x => H_Str x (PExpr_nested_ind x)
  | Obj ps len =>
      H_Obj ps len
            ((fix go (l : list (string * PExpr)) : Forall (fun p => P (snd p)) l :=
                match l with
                | [] => Forall_nil _
                | x :: r => Forall_cons x (PExpr_nested_ind (snd x)) (go r)
                end) ps)
  | Apply r ps =>
      H_Apply r ps ((fix go (l : list PExpr) : Forall P l :=
                       match l with
                       | [] => Forall_nil P
                       | x :: r => Forall_cons x (PExpr_nested_ind x) (go r)
                       end) ps)
  end.

End PExpr_induction.

(** * Example grammars and inputs *)

Definition noUnicode : string -> Value -> bool := fun _ _ => false.

Definition plainRule (e : PExpr) : RuleBody := mkRule e None.

Definition app0 (r : string) : Application := mkApp r [].

Definition digit : PExpr := Range (PStr "0") (PStr "9").

Definition spacesRule : string * RuleBody :=
  ("spaces", plainRule (Iter (StringPrim " ") 0 None)).

(** [expr = sub | num ; sub = expr "-" num ; num = digit+]: left-associative
    subtraction, [expr] being left-recursive through [sub]. *)
Definition calcBody : PExpr := Alt [Apply "sub" []; Apply "num" []].

Definition subBody : PExpr := Seq [Apply "expr" []; StringPrim "-"; Apply "num" []].

Definition gLex : Grammar :=
  mkGrammar [("expr", plainRule calcBody); ("sub", plainRule subBody);
             ("num", plainRule (Iter digit 1 None)); spacesRule]
            (app0 "spaces") noUnicode.

(** The same grammar with syntactic rules:
    [Expr = Sub | Num ; Sub = Expr "-" Num ; Num = digit+]. *)
Definition gCalc : Grammar :=
  mkGrammar [("Expr", plainRule (Alt [Apply "Sub" []; Apply "Num" []]));
             ("Sub", plainRule (Seq [Apply "Expr" []; StringPrim "-"; Apply "Num" []]));
             ("Num", plainRule (Iter digit 1 None));
             spacesRule]
            (app0 "spaces") noUnicode.

(** [Pair = [num num]] over an array input. *)
Definition num : PExpr := Range (PNum 0) (PNum 1000).

Definition gPair : Grammar :=
  mkGrammar [("Pair", plainRule (Arr (Seq [num; num]))); spacesRule]
            (app0 "spaces") noUnicode.

Definition pairInput : State :=
  initialState (SrcList [VArr [VPrim (PNum 1); VPrim (PNum 2)]]).

Definition stateOf {A : Type} (r : Result (A * State)) (d : State) : State :=
  match r with
  | Ok (_, s) => s
  | _ => d
  end.

(** The state in which [reallyEval] evaluates the body of the start rule:
    the application has been entered at position 0. *)
Definition entered (src : Source) (a : Application) : State :=
  posInfoEnter (initialState src) 0 a.

(** The state in which [reallyEval] calls [growSeedResult]: the body has
    been evaluated once. *)
Definition seeded (g : Grammar) (src : Source) (a : Application) (body : PExpr) : State :=
  stateOf (evalOnce (eval g 20) a body (entered src a)) (initialState src).

(** An array input whose single atom is the array [[1]]. *)
Definition nestedArrayInput : State :=
  initialState (SrcList [VArr [VPrim (PNum 1)]]).

(** [Rec = {name: string, ...}], the rule [string] taking any string that
    starts below the last code unit. *)
Definition anyString : PExpr :=
  Range (PStr EmptyString) (PStr (String (ascii_of_nat 255) EmptyString)).

Definition recPattern : PExpr := Obj [("name", Apply "string" [])] true.

Definition gRec : Grammar :=
  mkGrammar [("Rec", plainRule recPattern); ("string", plainRule anyString); spacesRule]
            (app0 "spaces") noUnicode.

(** The input [{name: "a", extra: 7}]. *)
Definition recAtom : Value :=
  VObj [("name", VPrim (PStr "a")); ("extra", VPrim (PNum 7))].

Definition recInput : State := initialState (SrcList [recAtom]).

(** The same lenient pattern with a property pattern that binds nothing:
    [{name: ``'', ...}] against [{name: "", extra: 7}]. *)
Definition recPatternNoBinding : PExpr := Obj [("name", Str (Seq []))] true.

Definition recInputEmptyName : State :=
  initialState (SrcList [VObj [("name", VPrim (PStr EmptyString)); ("extra", VPrim (PNum 7))]]).

(** The parse of ["1-2"] by [expr], cut at the two moments [expr] is applied
    at position 0 inside its own body, as the first factor of [sub]: when the
    body is first evaluated ([firstVisit]: [expr] and [sub] have been
    entered), and in the second round of the seed-growing loop
    ([secondVisit]: the first round has committed its result, the position is
    back at 0 and [sub] has been entered again). *)
Definition input12 : Source := SrcString "1-2".

Definition firstVisit : State :=
  posInfoEnter (entered input12 (app0 "expr")) 0 (app0 "sub").

Definition afterSeed : State := seeded gLex input12 (app0 "expr") calcBody.






(** [a = c | "y" ; c = &a f "x" ; f = "y"]: [a] is left-recursive through
    [c], and [f] is applied at the position of [a] only once the lookahead
    on [a] succeeds, that is while the seed is grown. *)
Definition aBody : PExpr := Alt [Apply "c" []; StringPrim "y"].

Definition gInvolved : Grammar :=
  mkGrammar [("a", plainRule aBody);
             ("c", plainRule (Seq [Lookahead (Apply "a" []); Apply "f" []; StringPrim "x"]));
             ("f", plainRule (StringPrim "y"));
             spacesRule]
            (app0 "spaces") noUnicode.



(** ** The record of failures *)

(** From [s] to [s'] the count of suppression scopes is unchanged and,
    when [s] is inside such a scope, so is the record of failures. *)
Definition quiet (s s' : State) : Prop :=
  ignoreFailuresCount s' = ignoreFailuresCount s /\
  ((0 < ignoreFailuresCount s)%nat ->
   rightmostFailPos s' = rightmostFailPos s /\ failures s' = failures s).

(** Two states with the same count and the same record of failures. *)
Definition sameFailures (s s' : State) : Prop :=
  ignoreFailuresCount s' = ignoreFailuresCount s /\
  rightmostFailPos s' = rightmostFailPos s /\
  failures s' = failures s.

(** [num (a number) = digit+]: a rule with a description. *)
Definition gDescribed : Grammar :=
  mkGrammar [("num", mkRule (Iter digit 1 None) (Some "a number")); spacesRule]
            (app0 "spaces") noUnicode.

(** ** Progress through the input *)

(** Every memo record that holds a node ends at or after the position it is
    stored at. *)
Definition forwardTable (s : State) : Prop :=
  forall p k r v,
    memo (getPosInfo s p) k = Some r -> memoValue r = Some v -> p <= memoPos r.

(** From [s] to [s'] the stream has not moved backwards, and the table of
    [s'] is forward. *)
Definition fwd (s s' : State) : Prop :=
  currentPos s <= currentPos s' /\ forwardTable s'.

(** * Properties *)

(** ** Outcomes of sequenced calls *)

Lemma bind_Ok {A B : Type} (c : Result A) (k : A -> Result B) (b : B) :
  bind c k = Ok b -> exists a, c = Ok a /\ k a = Ok b.
Proof.
  destruct c as [a | e |]; simpl; intros H; try discriminate.
  exists a; split; [reflexivity | exact H].
Qed.

(** Splits a hypothesis [bind c k = Ok r] into its two calls. *)
Ltac bind_inv H :=
  let a := fresh "a" in
  let Ha := fresh "Hcall" in
  apply bind_Ok in H; destruct H as [a [Ha H]].

Ltac inv_Ok H := injection H; clear H; intros; subst.

(** ** What an evaluation leaves in place *)

Lemma keepsPosInfo_refl x pi : keepsPosInfo x pi pi.
Proof. repeat split; auto. Qed.

Lemma keepsPosInfo_trans x a b c :
  keepsPosInfo x a b -> keepsPosInfo x b c -> keepsPosInfo x a c.
Proof.
  intros (H1 & H2 & H3) (G1 & G2 & G3). repeat split.
  - congruence.
  - intros k r Hx Hk. apply G2; auto.
  - intros lr Hin. destruct (G3 lr Hin) as [Hb | Hs]; auto.
Qed.

Lemma keepsPosInfo_weaken x pi pi' :
  keepsPosInfo None pi pi' -> keepsPosInfo x pi pi'.
Proof.
  intros (H1 & H2 & H3). repeat split; auto.
  intros k r _ Hk. apply H2; auto. discriminate.
Qed.

Lemma keepsTable_refl x t : keepsTable x t t.
Proof. intros p. apply keepsPosInfo_refl. Qed.

Lemma keepsTable_trans x a b c :
  keepsTable x a b -> keepsTable x b c -> keepsTable x a c.
Proof. intros H G p. eapply keepsPosInfo_trans; [apply H | apply G]. Qed.

Lemma keepsTable_weaken x t t' : keepsTable None t t' -> keepsTable x t t'.
Proof. intros H p. apply keepsPosInfo_weaken. apply (H p). Qed.

Lemma framesX_refl x s : framesX x s s.
Proof. constructor; auto using keepsTable_refl. Qed.

Lemma framesX_trans x a b c : framesX x a b -> framesX x b c -> framesX x a c.
Proof.
  intros [H1 H2 H3 H4 H5] [G1 G2 G3 G4 G5]. constructor; try congruence.
  eapply keepsTable_trans; eauto.
Qed.

Lemma frames_weaken x s s' : frames s s' -> framesX x s s'.
Proof. intros [H1 H2 H3 H4 H5]. constructor; auto using keepsTable_weaken. Qed.

Lemma sameCore_frames x s s' : sameCore s s' -> framesX x s s'.
Proof.
  intros (H1 & H2 & H3 & H4 & H5). constructor; auto.
  rewrite H5. apply keepsTable_refl.
Qed.

Lemma framesX_sameCore_l x s0 s s' : sameCore s0 s -> framesX x s s' -> framesX x s0 s'.
Proof. intros H G. eapply framesX_trans; [apply sameCore_frames; exact H | exact G]. Qed.

Lemma framesX_sameCore_r x s s' s1 : framesX x s s' -> sameCore s' s1 -> framesX x s s1.
Proof. intros H G. eapply framesX_trans; [exact H | apply sameCore_frames; exact G]. Qed.

Lemma sameCore_refl s : sameCore s s.
Proof. repeat split. Qed.

Lemma sameCore_setBindings s b : sameCore s (setBindings s b).
Proof. repeat split. Qed.

Lemma sameCore_setPos s p : sameCore s (setCurrentPos s p).
Proof. repeat split. Qed.

Lemma sameCore_setFailures s c p f : sameCore s (setFailures s c p f).
Proof. repeat split. Qed.

Lemma sameCore_recordFailure s p e : sameCore s (recordFailure s p e).
Proof.
  unfold recordFailure. destruct (ignoreFailuresCount s); [| apply sameCore_refl].
  destruct (p <? rightmostFailPos s); [apply sameCore_refl |].
  destruct (rightmostFailPos s <? p); apply sameCore_setFailures.
Qed.

Lemma next_source st o st' : next st = (o, st') -> source st' = source st.
Proof.
  unfold next. destruct (atEnd st); intros H; inversion H; reflexivity.
Qed.

Lemma sameCore_setStream s st :
  source st = source (inputStream s) -> sameCore s (setInputStream s st).
Proof. intros H. repeat split; auto. Qed.

Lemma sameCore_trans a b c : sameCore a b -> sameCore b c -> sameCore a c.
Proof.
  intros (H1 & H2 & H3 & H4 & H5) (G1 & G2 & G3 & G4 & G5).
  repeat split; congruence.
Qed.

Lemma removelast_app1 {A : Type} (l : list A) (x : A) : removelast (l ++ [x])%list = l.
Proof. apply removelast_last. Qed.

Lemma frames_pop_after_push x s st s2 :
  frames (pushInputStream s st) s2 -> framesX x s (popInputStream s2).
Proof.
  intros [H1 H2 H3 H4 H5]. unfold popInputStream. rewrite H1. simpl.
  apply sameCore_frames. repeat split; simpl; auto.
Qed.

Lemma frames_lex_bracket x s s1 :
  framesX x (enterLexicalContext s) s1 -> framesX x s (exitLexicalContext s1).
Proof.
  intros [H1 H2 H3 H4 H5]. constructor; simpl in *; auto.
  rewrite H4. apply removelast_app1.
Qed.

Lemma lookup_setPosInfo_same s p pi : getPosInfo (setPosInfo s p pi) p = pi.
Proof. unfold getPosInfo, setPosInfo. simpl. rewrite Z.eqb_refl. reflexivity. Qed.

Lemma lookup_setPosInfo_other s p q pi :
  q <> p -> getPosInfo (setPosInfo s p pi) q = getPosInfo s q.
Proof.
  intros H. unfold getPosInfo, setPosInfo. simpl.
  destruct (Z.eqb_spec q p); [contradiction | reflexivity].
Qed.

(** Rewriting the entry of one position by a kept entry is a frame step. *)
Lemma framesX_setPosInfo x s p pi :
  keepsPosInfo (exemptAt x p) (getPosInfo s p) pi ->
  framesX x s (setPosInfo s p pi).
Proof.
  intros H. constructor; auto. intros q.
  change (keepsPosInfo (exemptAt x q) (getPosInfo s q) (getPosInfo (setPosInfo s p pi) q)).
  destruct (Z.eq_dec q p) as [-> | Hne].
  - rewrite lookup_setPosInfo_same. exact H.
  - rewrite lookup_setPosInfo_other by assumption. apply keepsPosInfo_refl.
Qed.

Lemma frames_enter_exit x s p a s5 :
  framesX x (posInfoEnter s p a) s5 -> framesX x s (posInfoExit s5 p).
Proof.
  intros [H1 H2 H3 H4 H5]. constructor; simpl in *; auto.
  - rewrite H3. apply removelast_app1.
  - rewrite H4. apply removelast_app1.
  - intros q. specialize (H5 q). unfold lookupPosInfo in *.
    destruct (Z.eq_dec q p) as [Heq | Hne].
    + subst q. rewrite Z.eqb_refl in *. destruct H5 as (A1 & A2 & A3).
      simpl in *. repeat split; simpl.
      * unfold getPosInfo. simpl. rewrite A1. apply removelast_app1.
      * exact A2.
      * exact A3.
    + apply Z.eqb_neq in Hne. rewrite Hne in *. exact H5.
Qed.

(** Steps that only move the position, the bindings or the failure record. *)
Lemma fx_sameCore x s s' s1 : sameCore s' s1 -> framesX x s s' -> framesX x s s1.
Proof. intros H G. eapply framesX_sameCore_r; eauto. Qed.

Lemma fx_setBindings x s s' b : framesX x s s' -> framesX x s (setBindings s' b).
Proof. apply fx_sameCore, sameCore_setBindings. Qed.

Lemma fx_pushBinding x s s' n : framesX x s s' -> framesX x s (pushBinding s' n).
Proof. apply fx_setBindings. Qed.

Lemma fx_popBinding x s s' : framesX x s s' -> framesX x s (popBinding s').
Proof. apply fx_setBindings. Qed.

Lemma fx_truncateBindings x s s' n : framesX x s s' -> framesX x s (truncateBindings s' n).
Proof. apply fx_setBindings. Qed.

Lemma fx_setCurrentPos x s s' p : framesX x s s' -> framesX x s (setCurrentPos s' p).
Proof. apply fx_sameCore, sameCore_setPos. Qed.

Lemma fx_recordFailure x s s' p e : framesX x s s' -> framesX x s (recordFailure s' p e).
Proof. apply fx_sameCore, sameCore_recordFailure. Qed.

Lemma fx_doNotRecordFailures x s s' : framesX x s s' -> framesX x s (doNotRecordFailures s').
Proof. apply fx_sameCore, sameCore_setFailures. Qed.

Lemma fx_doRecordFailures x s s' : framesX x s s' -> framesX x s (doRecordFailures s').
Proof. apply fx_sameCore, sameCore_setFailures. Qed.

Lemma fx_setInputStream x s s' st :
  source st = source (inputStream s') -> framesX x s s' -> framesX x s (setInputStream s' st).
Proof. intros H. apply fx_sameCore, sameCore_setStream, H. Qed.

Lemma fx_from_doNot x s s' : framesX x (doNotRecordFailures s) s' -> framesX x s s'.
Proof. apply framesX_sameCore_l, sameCore_setFailures. Qed.

Lemma fx_from_setPos x s p s' : framesX x (setCurrentPos s p) s' -> framesX x s s'.
Proof. apply framesX_sameCore_l, sameCore_setPos. Qed.

Lemma matchExactly_source st x b st' : matchExactly st x = (b, st') -> source st' = source st.
Proof.
  unfold matchExactly. destruct (next st) as [o st1] eqn:E.
  apply next_source in E. destruct o; intros H; inversion H; subst; exact E.
Qed.

Lemma matchChars_source s : forall st b st',
  matchChars st s = (b, st') -> source st' = source st.
Proof.
  induction s as [| c r IH]; simpl; intros st b st' H.
  - inversion H; reflexivity.
  - destruct (matchExactly st (PStr (String c EmptyString))) as [b1 st1] eqn:E.
    apply matchExactly_source in E. destruct b1.
    + apply IH in H. congruence.
    + inversion H; subst; exact E.
Qed.

Lemma matchString_source st s b st' : matchString st s = (b, st') -> source st' = source st.
Proof.
  unfold matchString. destruct (source st) eqn:E; rewrite <- E.
  - apply matchChars_source.
  - apply matchExactly_source.
Qed.

(** Peels the position, binding and failure steps off the final state. *)
Ltac peel :=
  repeat first
    [ assumption
    | apply framesX_refl
    | apply fx_pushBinding | apply fx_popBinding | apply fx_truncateBindings
    | apply fx_setBindings | apply fx_setCurrentPos | apply fx_recordFailure
    | apply fx_doNotRecordFailures | apply fx_doRecordFailures
    | apply fx_setInputStream;
      [ solve [ eauto using next_source, matchExactly_source, matchString_source ] | ] ].

Section FramesOfEval.

Variable g : Grammar.
Variable ev : PExpr -> State -> Result Answer.
Variable fuel : nat.
Hypothesis Hev : forall e s b s', ev e s = Ok (b, s') -> frames s s'.

Lemma skipSpaces_frames s s' : skipSpaces g ev s = Ok s' -> frames s s'.
Proof.
  unfold skipSpaces. intros H. bind_inv H. destruct a as [ans s1]. inv_Ok H.
  apply Hev in Hcall. unfold frames in *. destruct ans; peel.
Qed.

Lemma skipSpacesIf_frames s p s' :
  skipSpacesIfInSyntacticContext g ev s = Ok (p, s') -> frames s s'.
Proof.
  unfold skipSpacesIfInSyntacticContext. destruct (inSyntacticContext s); intros H.
  - bind_inv H. inv_Ok H. eapply skipSpaces_frames; eauto.
  - inv_Ok H. apply framesX_refl.
Qed.

(** Opens an [_eval] that starts by skipping spaces. *)
Ltac open_skip H :=
  bind_inv H;
  match goal with
  | a : (Z * State)%type |- _ =>
      let p := fresh "origPos" in let s1 := fresh "s1" in
      destruct a as [p s1];
      match goal with
      | Hc : skipSpacesIfInSyntacticContext _ _ _ = Ok _ |- _ =>
          apply skipSpacesIf_frames in Hc; unfold frames in Hc
      end
  end.

Lemma eval_anything_frames s b s' : eval_anything g ev s = Ok (b, s') -> frames s s'.
Proof.
  unfold eval_anything, frames. intros H. open_skip H.
  destruct (next (inputStream s1)) as [[v |] st] eqn:E; inv_Ok H; peel.
Qed.

Lemma eval_end_frames s b s' : eval_end g ev s = Ok (b, s') -> frames s s'.
Proof.
  unfold eval_end, frames. intros H. open_skip H.
  destruct (atEnd (inputStream s1)); inv_Ok H; peel.
Qed.

Lemma eval_Prim_frames this obj matcher s b s' :
  (forall st b st', matcher st = (b, st') -> source st' = source st) ->
  eval_Prim g ev this obj matcher s = Ok (b, s') -> frames s s'.
Proof.
  unfold eval_Prim, frames. intros Hm H. open_skip H.
  destruct (matcher (inputStream s1)) as [[|] st] eqn:E; inv_Ok H;
    apply Hm in E; peel.
Qed.

Lemma eval_Range_frames from to s b s' :
  eval_Range g ev from to s = Ok (b, s') -> frames s s'.
Proof.
  unfold eval_Range, frames. intros H. open_skip H.
  destruct (next (inputStream s1)) as [o st] eqn:E.
  destruct (inRange from to o); inv_Ok H; peel.
Qed.

Lemma eval_UnicodeChar_frames c s b s' :
  eval_UnicodeChar g ev c s = Ok (b, s') -> frames s s'.
Proof.
  unfold eval_UnicodeChar, frames. intros H. open_skip H.
  destruct (next (inputStream s1)) as [[v |] st] eqn:E;
    [destruct (unicodeTest g c v) |]; inv_Ok H; peel.
Qed.

Lemma eval_Param_frames i s b s' : eval_Param ev i s = Ok (b, s') -> frames s s'.
Proof.
  unfold eval_Param. destruct (currentApplication s); [| discriminate].
  destruct (nth_error (appParams a) i); [| discriminate]. apply Hev.
Qed.

Lemma eval_Lex_frames e s b s' : eval_Lex ev e s = Ok (b, s') -> frames s s'.
Proof.
  unfold eval_Lex. intros H. bind_inv H. destruct a as [ans s1]. inv_Ok H.
  apply frames_lex_bracket. eapply Hev; eauto.
Qed.

Lemma eval_Alt_frames ts : forall s b s', eval_Alt ev ts s = Ok (b, s') -> frames s s'.
Proof.
  induction ts as [| t r IH]; simpl; intros s b s' H.
  - inv_Ok H. apply framesX_refl.
  - bind_inv H. destruct a as [ans s1]. apply Hev in Hcall. destruct ans.
    + inv_Ok H. exact Hcall.
    + eapply framesX_trans; [exact Hcall | eapply IH; eauto].
Qed.

Lemma eval_Seq_frames fs : forall s b s', eval_Seq ev fs s = Ok (b, s') -> frames s s'.
Proof.
  induction fs as [| t r IH]; simpl; intros s b s' H.
  - inv_Ok H. apply framesX_refl.
  - bind_inv H. destruct a as [ans s1]. apply Hev in Hcall. destruct ans.
    + eapply framesX_trans; [exact Hcall | eapply IH; eauto].
    + inv_Ok H. exact Hcall.
Qed.

Lemma iterLoop_frames e arity mx rounds : forall n cols s n' cols' s',
  iterLoop ev e arity mx rounds n cols s = Ok (n', cols', s') -> frames s s'.
Proof.
  induction rounds as [| r IH]; simpl; intros n cols s n' cols' s' H; [discriminate |].
  destruct (belowMax n mx).
  - bind_inv H. destruct a as [ans s1]. apply Hev in Hcall. destruct ans.
    + destruct (spliceLast (bindings s1) arity) as [rest row].
      apply IH in H. eapply framesX_trans; [| exact H]. unfold frames in *. peel.
    + inv_Ok H. exact Hcall.
  - inv_Ok H. apply framesX_refl.
Qed.

Lemma pushIterNodes_sameCore cols interval : forall s,
  sameCore s (pushIterNodes s cols interval).
Proof.
  unfold pushIterNodes. induction cols as [| c r IH]; simpl; intros s.
  - apply sameCore_refl.
  - eapply sameCore_trans; [| apply IH]. apply sameCore_setBindings.
Qed.

Lemma eval_Iter_frames e mn mx s b s' :
  eval_Iter ev fuel e mn mx s = Ok (b, s') -> frames s s'.
Proof.
  unfold eval_Iter. intros H. bind_inv H. destruct a as [[n cols] s1].
  apply iterLoop_frames in Hcall.
  destruct (n <? mn)%nat; [inv_Ok H; exact Hcall |].
  bind_inv H. inv_Ok H.
  eapply framesX_sameCore_r; [exact Hcall | apply pushIterNodes_sameCore].
Qed.

Lemma eval_Not_frames e s b s' : eval_Not ev e s = Ok (b, s') -> frames s s'.
Proof.
  unfold eval_Not, frames. intros H. bind_inv H. destruct a as [ans s1].
  apply Hev, fx_from_doNot in Hcall. destruct ans; inv_Ok H; peel.
Qed.

Lemma eval_Lookahead_frames e s b s' : eval_Lookahead ev e s = Ok (b, s') -> frames s s'.
Proof.
  unfold eval_Lookahead, frames. intros H. bind_inv H. destruct a as [ans s1].
  apply Hev in Hcall. destruct ans; inv_Ok H; peel.
Qed.

Lemma fx_from_setStream x s st s' :
  source st = source (inputStream s) ->
  framesX x (setInputStream s st) s' -> framesX x s s'.
Proof. intros H. apply framesX_sameCore_l, sameCore_setStream, H. Qed.

Lemma eval_Arr_frames e s b s' : eval_Arr ev e s = Ok (b, s') -> frames s s'.
Proof.
  unfold eval_Arr, frames. intros H.
  destruct (next (inputStream s)) as [o st] eqn:E. apply next_source in E.
  destruct o as [[p | obj | ps] |]; try (inv_Ok H; peel).
  bind_inv H. destruct a as [ans s2]. inv_Ok H.
  apply Hev, (frames_pop_after_push None) in Hcall.
  eapply fx_from_setStream; eauto.
Qed.

Lemma eval_Str_frames e s b s' : eval_Str ev e s = Ok (b, s') -> frames s s'.
Proof.
  unfold eval_Str, frames. intros H.
  destruct (next (inputStream s)) as [o st] eqn:E. apply next_source in E.
  destruct o as [[[| | b0 | n0 | str] | obj | ps] |]; try (inv_Ok H; peel).
  bind_inv H. destruct a as [a1 s2]. apply Hev in Hcall.
  bind_inv H. destruct a as [ans s3]. inv_Ok H.
  assert (Hs3 : frames s2 s3).
  { destruct a1; [eapply Hev; eauto | inv_Ok Hcall0; apply framesX_refl]. }
  eapply fx_from_setStream; [exact E |].
  eapply frames_pop_after_push.
  eapply framesX_trans; [exact Hcall |]. unfold frames in *.
  destruct b; peel.
Qed.

Lemma objLoop_frames obj ps : forall n s r s',
  objLoop ev obj ps n s = Ok (r, s') -> frames s s'.
Proof.
  induction ps as [| [name pattern] rest IH]; simpl; intros n s r s' H.
  - inv_Ok H. apply framesX_refl.
  - destruct (hasOwnProperty obj name); simpl in H; [| inv_Ok H; apply framesX_refl].
    bind_inv H. destruct a as [a s2].
    apply Hev, (frames_pop_after_push None) in Hcall.
    destruct (a && atEnd (inputStream s2)).
    + eapply framesX_trans; [exact Hcall | eapply IH; eauto].
    + inv_Ok H. exact Hcall.
Qed.

Lemma eval_Obj_frames ps len s b s' : eval_Obj ev ps len s = Ok (b, s') -> frames s s'.
Proof.
  unfold eval_Obj, frames. intros H.
  destruct (next (inputStream s)) as [o st] eqn:E. apply next_source in E.
  destruct o as [obj |]; [| inv_Ok H; peel].
  destruct (isObjectLike obj); [| inv_Ok H; peel].
  bind_inv H. destruct a as [r s1]. apply objLoop_frames in Hcall.
  eapply fx_from_setStream; [exact E |]. unfold frames in *.
  destruct r as [n |]; [destruct len |]; inv_Ok H; peel.
Qed.

Lemma evalOnce_frames this e s v s' : evalOnce ev this e s = Ok (v, s') -> frames s s'.
Proof.
  unfold evalOnce, frames. intros H. bind_inv H. destruct a as [ans s1].
  apply Hev in Hcall. destruct ans.
  - destruct (spliceLast (bindings s1) (getArity e)) as [rest row]. inv_Ok H. peel.
  - inv_Ok H. exact Hcall.
Qed.

Lemma keeps_setMemo pi k r : keepsPosInfo (Some k) pi (setMemo pi k r).
Proof.
  repeat split; simpl; auto. intros k' r' Hne Hk.
  destruct (String.eqb_spec k' k); [subst; congruence | exact Hk].
Qed.

Lemma keeps_setMemo_fresh pi k r :
  memo pi k = None -> keepsPosInfo None pi (setMemo pi k r).
Proof.
  intros Hnone. repeat split; simpl; auto. intros k' r' _ Hk.
  destruct (String.eqb_spec k' k); [subst; congruence | exact Hk].
Qed.

Lemma keeps_endLeftRecursion x pi : keepsPosInfo x pi (endLeftRecursion pi).
Proof.
  repeat split; simpl; auto. intros lr Hin. left.
  destruct (currentLeftRecursion pi); simpl in *; auto.
Qed.

Lemma keeps_startLeftRecursion x pi head : keepsPosInfo x pi (startLeftRecursion pi head).
Proof.
  repeat split; simpl; auto. intros lr [Heq | Hin]; [right | left; exact Hin].
  exists pi, head. simpl. rewrite Heq. reflexivity.
Qed.

Lemma commitSeed_frames s p k r : framesX (Some (p, k)) s (commitSeed s p k r).
Proof.
  apply framesX_setPosInfo. simpl. rewrite Z.eqb_refl. apply keeps_setMemo.
Qed.

Lemma growLoop_frames this body origPos k rounds : forall lr c s lr' c' s',
  growLoop ev this body origPos k rounds lr c s = Ok (lr', c', s') ->
  framesX (Some (origPos, k)) s s'.
Proof.
  induction rounds as [| r IH]; simpl; intros lr c s lr' c' s' H; [discriminate |].
  bind_inv H. destruct a as [newValue s1].
  apply evalOnce_frames, fx_from_setPos, (frames_weaken (Some (origPos, k))) in Hcall.
  destruct (currentPos s1 <=? memoPos lr).
  - inv_Ok H. exact Hcall.
  - apply IH in H. eapply framesX_trans; [exact Hcall |].
    eapply framesX_trans; [apply commitSeed_frames | exact H].
Qed.

Lemma growSeedResult_frames this body origPos k lr seed s v s' :
  growSeedResult ev fuel this body origPos k lr seed s = Ok (v, s') ->
  framesX (Some (origPos, k)) s s'.
Proof.
  unfold growSeedResult. intros H. destruct seed; [| inv_Ok H; apply framesX_refl].
  destruct lr as [r |].
  - bind_inv H. destruct a as [[r' c] s1]. inv_Ok H.
    apply growLoop_frames in Hcall. peel.
  - bind_inv H. destruct a. discriminate.
Qed.

Lemma settleResult_frames this body origPos value s v s' :
  settleResult ev fuel this body origPos value s = Ok (v, s') ->
  framesX (Some (origPos, toMemoKey this)) s s'.
Proof.
  unfold settleResult. intros H.
  destruct (currentLeftRecursion (getPosInfo s origPos)) as [| lr rest].
  - inv_Ok H. apply commitSeed_frames.
  - destruct (sameApplication this (headApplication lr)).
    + bind_inv H. destruct a as [v1 s1]. inv_Ok H.
      apply growSeedResult_frames in Hcall.
      eapply framesX_trans; [exact Hcall |].
      apply framesX_setPosInfo, keeps_endLeftRecursion.
    + destruct (isInvolved lr this); inv_Ok H;
        [apply framesX_refl | apply commitSeed_frames].
Qed.

Lemma framesX_drop p k s s' :
  memo (getPosInfo s p) k = None -> framesX (Some (p, k)) s s' -> frames s s'.
Proof.
  intros Hnone [H1 H2 H3 H4 H5]. constructor; auto. intros q.
  destruct (H5 q) as (A1 & A2 & A3). repeat split; auto.
  intros k' r _ Hk. apply A2; auto. simpl.
  destruct (Z.eqb_spec p q); [| discriminate].
  subst q. intros Heq. inv_Ok Heq. unfold getPosInfo in Hnone.
  unfold lookupPosInfo in Hk. congruence.
Qed.

Lemma reallyEval_framesX this top s b s' :
  reallyEval g ev fuel this top s = Ok (b, s') ->
  framesX (Some (currentPos s, toMemoKey this)) s s'.
Proof.
  unfold reallyEval. intros H.
  destruct (lookupRule (ruleDict g) (appRule this)) as [body |]; [| discriminate].
  bind_inv H. destruct a as [value0 s3].
  bind_inv H. destruct a as [value s4].
  apply evalOnce_frames in Hcall. apply settleResult_frames in Hcall0.
  set (X := Some (currentPos s, toMemoKey this)) in *.
  set (s1 := posInfoEnter s (currentPos s) this) in *.
  assert (H13 : framesX X s1 s3).
  { apply frames_weaken. destruct (isSome (description body)); auto.
    apply fx_from_doNot. exact Hcall. }
  assert (H14 : framesX X s1 s4) by (eapply framesX_trans; eauto).
  match type of H with
  | context [posInfoExit ?s5 _] => assert (H6 : framesX X s (posInfoExit s5 (currentPos s)))
  end.
  { apply frames_enter_exit with (a := this). fold s1.
    destruct (isSome (description body)); [destruct (isSome value) |]; peel. }
  destruct value as [v |]; [| inv_Ok H; exact H6].
  destruct top; [| inv_Ok H; peel].
  bind_inv H. bind_inv H. destruct a0 as [ans s9].
  assert (H8 : framesX X s a).
  { destruct (isSyntactic this).
    - apply skipSpaces_frames, (frames_weaken X) in Hcall1.
      eapply framesX_trans; [| exact Hcall1]. peel.
    - inv_Ok Hcall1. peel. }
  apply Hev, (frames_weaken X) in Hcall2.
  assert (H9 : framesX X s s9) by (eapply framesX_trans; eauto).
  destruct ans; inv_Ok H; peel.
Qed.

Lemma reallyEval_frames this top s b s' :
  memo (getPosInfo s (currentPos s)) (toMemoKey this) = None ->
  reallyEval g ev fuel this top s = Ok (b, s') -> frames s s'.
Proof.
  intros Hnone H. eapply framesX_drop; [exact Hnone |].
  eapply reallyEval_framesX; eauto.
Qed.

Lemma eval_Apply_frames r ps s b s' : eval_Apply g ev fuel r ps s = Ok (b, s') -> frames s s'.
Proof.
  unfold eval_Apply. intros H.
  destruct (substituteApp r ps _) as [app |]; [| discriminate].
  bind_inv H.
  assert (H1 : frames s a).
  { unfold applicationSite in Hcall.
    destruct (negb (sameApplication app (applySpaces_ g)) &&
              (inSyntacticContext s || isSyntactic app)).
    - eapply skipSpaces_frames; eauto.
    - inv_Ok Hcall. apply framesX_refl. }
  clear Hcall. eapply framesX_trans; [exact H1 |]. clear H1.
  destruct (memo (getCurrentPosInfo a) (toMemoKey app)) as [memoRec |] eqn:Em.
  - unfold useMemoizedResult in H. unfold frames.
    destruct (memoValue memoRec); inv_Ok H; peel.
  - destruct (isActive (getCurrentPosInfo a) app).
    + inv_Ok H. apply framesX_setPosInfo. simpl.
      eapply keepsPosInfo_trans; [apply keeps_setMemo_fresh; exact Em |].
      apply keeps_startLeftRecursion.
    + eapply reallyEval_frames; eauto.
Qed.

Lemma _eval_frames e s b s' : _eval g ev fuel e s = Ok (b, s') -> frames s s'.
Proof.
  destruct e; simpl.
  - apply eval_anything_frames.
  - apply eval_end_frames.
  - apply eval_Prim_frames. intros st b0 st'. apply matchExactly_source.
  - apply eval_Prim_frames. intros st b0 st'. apply matchString_source.
  - apply eval_Range_frames.
  - apply eval_UnicodeChar_frames.
  - apply eval_Param_frames.
  - apply eval_Lex_frames.
  - apply eval_Alt_frames.
  - apply eval_Seq_frames.
  - apply eval_Iter_frames.
  - apply eval_Not_frames.
  - apply eval_Lookahead_frames.
  - apply eval_Arr_frames.
  - apply eval_Str_frames.
  - apply eval_Obj_frames.
  - apply eval_Apply_frames.
Qed.

Lemma PExpr_eval_frames e s b s' : PExpr_eval g ev fuel e s = Ok (b, s') -> frames s s'.
Proof.
  unfold PExpr_eval, frames. intros H. bind_inv H. destruct a as [ans s1].
  apply _eval_frames in Hcall. unfold frames in Hcall.
  destruct ans; inv_Ok H; peel.
Qed.

End FramesOfEval.

(** Every evaluation that returns leaves the stream stack, the application
    chain, the application stacks and the memo records in place. *)
Lemma eval_frames g n : forall e s b s', eval g n e s = Ok (b, s') -> frames s s'.
Proof.
  induction n as [| n IH]; simpl; intros e s b s' H; [discriminate |].
  eapply PExpr_eval_frames; eauto.
Qed.

(** ** Arity consistency and substitution *)


Lemma allSome_cons {A : Type} (o : option A) (l : list (option A)) (r : list A) :
  allSome (o :: l) = Some r ->
  exists x r', o = Some x /\ allSome l = Some r' /\ r = x :: r'.
Proof.
  simpl. destruct o as [x |]; [| discriminate].
  destruct (allSome l) as [r' |]; simpl; intros H; inversion H.
  exists x, r'. auto.
Qed.

(** Substituting consistent arguments of arity one keeps an expression
    consistent and keeps its arity. *)
Lemma substituteParams_wf exact actuals :
  wfArgs exact actuals = true ->
  forall e e',
    wf exact e = true -> substituteParams e actuals = Some e' ->
    wf exact e' = true /\ getArity e' = getArity e.
Proof.
  intros Hact. unfold wfArgs in Hact. apply andb_prop in Hact. destruct Hact as [Hwfa Hara].
  rewrite forallb_forall in Hwfa, Hara.
  assert (Hlist : forall l,
             Forall (fun e => forall e', wf exact e = true ->
                                         substituteParams e actuals = Some e' ->
                                         wf exact e' = true /\ getArity e' = getArity e) l ->
             forall l', forallb (wf exact) l = true ->
                        allSome (map (fun t => substituteParams t actuals) l) = Some l' ->
                        forallb (wf exact) l' = true /\ map getArity l' = map getArity l).
  { induction l as [| x r IHl]; intros HF l' Hwf Hs.
    - simpl in Hs. inv_Ok Hs. auto.
    - simpl map in Hs. apply allSome_cons in Hs. destruct Hs as (x' & r' & Hx & Hr & ->).
      simpl in Hwf. apply andb_prop in Hwf. destruct Hwf as [Hwx Hwr].
      inversion HF as [| ? ? HPx HPr]; subst.
      destruct (HPx x' Hwx Hx) as [W A]. destruct (IHl HPr r' Hwr Hr) as [W' A'].
      simpl. rewrite W, W', A, A'. auto. }
  induction e using PExpr_nested_ind; intros e' Hwf Hs; simpl in Hs;
    try (inv_Ok Hs; auto; fail).
  - (* Param *)
    apply nth_error_In in Hs. split; [apply Hwfa; exact Hs |].
    apply Hara in Hs. apply Nat.eqb_eq in Hs. exact Hs.
  - (* Lex *)
    destruct (substituteParams e actuals) as [x |] eqn:Ex; simpl in Hs; [| discriminate Hs];
      inv_Ok Hs.
    simpl. apply IHe; auto.
  - (* Alt *)
    destruct (allSome _) as [ts' |] eqn:E; simpl in Hs; [| discriminate Hs]; inv_Ok Hs.
    simpl in Hwf. apply andb_prop in Hwf. destruct Hwf as [Hw Ha].
    destruct (Hlist ts H ts' Hw E) as [W A].
    assert (Hhd : getArity (Alt ts') = getArity (Alt ts)).
    { simpl. destruct ts, ts'; simpl in A; try discriminate; auto.
      injection A as A0 _. exact A0. }
    split; [| exact Hhd]. simpl wf. rewrite W. simpl.
    rewrite forallb_forall in Ha |- *. intros t' Ht'.
    assert (Hin : In (getArity t') (map getArity ts)).
    { rewrite <- A. apply in_map. exact Ht'. }
    apply in_map_iff in Hin. destruct Hin as (t & Hta & Ht).
    specialize (Ha t Ht). apply Nat.eqb_eq in Ha. apply Nat.eqb_eq.
    change (getArity t' = getArity (Alt ts')). rewrite Hhd, <- Hta. exact Ha.
  - (* Seq *)
    destruct (allSome _) as [fs' |] eqn:E; simpl in Hs; [| discriminate Hs]; inv_Ok Hs.
    simpl in Hwf. destruct (Hlist fs H fs' Hwf E) as [W A].
    simpl. rewrite A. auto.
  - (* Iter *)
    destruct (substituteParams e actuals) as [x |] eqn:Ex; simpl in Hs; [| discriminate Hs];
      inv_Ok Hs.
    simpl. apply IHe; auto.
  - (* Not *)
    destruct (substituteParams e actuals) as [x |] eqn:Ex; simpl in Hs; [| discriminate Hs];
      inv_Ok Hs.
    simpl. split; [apply IHe; auto | reflexivity].
  - (* Lookahead *)
    destruct (substituteParams e actuals) as [x |] eqn:Ex; simpl in Hs; [| discriminate Hs];
      inv_Ok Hs.
    simpl. apply IHe; auto.
  - (* Arr *)
    destruct (substituteParams e actuals) as [x |] eqn:Ex; simpl in Hs; [| discriminate Hs];
      inv_Ok Hs.
    simpl in *. apply andb_prop in Hwf. destruct Hwf as [Hw Ha].
    destruct (IHe x Hw eq_refl) as [W A]. rewrite W, A. auto.
  - (* Str *)
    destruct (substituteParams e actuals) as [x |] eqn:Ex; simpl in Hs; [| discriminate Hs];
      inv_Ok Hs.
    simpl in *. apply andb_prop in Hwf. destruct Hwf as [Hw Ha].
    destruct (IHe x Hw eq_refl) as [W A]. rewrite W, A. auto.
  - (* Obj *)
    destruct (allSome _) as [ps' |] eqn:E; simpl in Hs; [| discriminate Hs]; inv_Ok Hs.
    simpl in Hwf. apply andb_prop in Hwf. destruct Hwf as [Hw Ha].
    assert (Hps : forallb (fun p => wf exact (snd p)) ps' = true /\
                  map (fun p => getArity (snd p)) ps' = map (fun p => getArity (snd p)) ps).
    { clear Ha. revert ps' E Hw. induction ps as [| [nm x] r IHl]; intros ps' E Hw.
      - simpl in E. inv_Ok E. auto.
      - simpl map in E. apply allSome_cons in E. destruct E as (x' & r' & Hx & Hr & ->).
        simpl in Hw. apply andb_prop in Hw. destruct Hw as [Hwx Hwr].
        inversion H as [| ? ? HPx HPr]; subst. simpl in HPx.
        destruct (substituteParams x actuals) as [y |] eqn:Ey; simpl in Hx; [| discriminate Hx];
        inv_Ok Hx.
        assert (HPy : wf exact y = true /\ getArity y = getArity x)
          by (first [exact (HPx y Hwx eq_refl) | exact (HPx y Hwx Ey)]).
        destruct HPy as [W A]. destruct (IHl HPr r' Hr Hwr) as [W' A'].
        simpl. rewrite W, W', A, A'. auto. }
    destruct Hps as [W A]. split; [| reflexivity]. simpl. rewrite W. simpl.
    destruct exact; simpl in *; auto.
    rewrite forallb_forall in Ha |- *. intros p' Hp'.
    assert (Hin : In (getArity (snd p')) (map (fun p => getArity (snd p)) ps)).
    { rewrite <- A. apply (in_map (fun p => getArity (snd p))). exact Hp'. }
    apply in_map_iff in Hin. destruct Hin as (p & Hpa & Hp).
    specialize (Ha p Hp). rewrite <- Hpa. exact Ha.
  - (* Apply *)
    destruct (allSome _) as [ps' |] eqn:E; simpl in Hs; [| discriminate Hs]; inv_Ok Hs.
    simpl in Hwf. apply andb_prop in Hwf. destruct Hwf as [Hw Ha].
    destruct (Hlist ps H ps' Hw E) as [W A]. split; [| reflexivity].
    simpl. rewrite W. simpl.
    rewrite forallb_forall in Ha |- *. intros t' Ht'.
    assert (Hin : In (getArity t') (map getArity ps)).
    { rewrite <- A. apply in_map. exact Ht'. }
    apply in_map_iff in Hin. destruct Hin as (t & Hta & Ht).
    specialize (Ha t Ht). rewrite <- Hta. exact Ha.
Qed.

(** ** The bindings contract *)

Lemma arityOK_add exact n a m b :
  arityOK exact n a -> arityOK exact m b -> arityOK exact (n + m) (a + b).
Proof. unfold arityOK. destruct exact; lia. Qed.


Lemma grows_refl exact s : grows exact (Some 0%nat) s s.
Proof.
  exists []. rewrite app_nil_r. split; [reflexivity |].
  unfold arityOK. destruct exact; simpl; lia.
Qed.

Lemma grows_forget exact k s s' : grows exact k s s' -> grows exact None s s'.
Proof. intros (l & H & _). exists l. auto. Qed.

Lemma grows_trans exact a b s s1 s2 :
  grows exact (Some a) s s1 -> grows exact (Some b) s1 s2 ->
  grows exact (Some (a + b)%nat) s s2.
Proof.
  intros (l1 & H1 & A1) (l2 & H2 & A2). exists (l1 ++ l2)%list.
  rewrite H2, H1, app_assoc, length_app. split; [reflexivity |].
  apply arityOK_add; assumption.
Qed.

Lemma grows_trans_None exact k1 k2 s s1 s2 :
  grows exact k1 s s1 -> grows exact k2 s1 s2 -> grows exact None s s2.
Proof.
  intros (l1 & H1 & _) (l2 & H2 & _). exists (l1 ++ l2)%list.
  rewrite H2, H1, app_assoc. auto.
Qed.

Lemma grows_same exact k s s' s1 :
  bindings s1 = bindings s' -> grows exact k s s' -> grows exact k s s1.
Proof. intros E (l & H & A). exists l. rewrite E. auto. Qed.

Lemma grows_start exact k s0 s s' :
  bindings s0 = bindings s -> grows exact k s s' -> grows exact k s0 s'.
Proof. intros E (l & H & A). exists l. rewrite E. auto. Qed.

Lemma grows_push exact a s s' n :
  grows exact (Some a) s s' -> grows exact (Some (a + 1)%nat) s (pushBinding s' n).
Proof.
  intros (l & H & A). exists (l ++ [n])%list. simpl. rewrite H, app_assoc, length_app.
  split; [reflexivity |]. simpl. unfold arityOK in *. destruct exact; lia.
Qed.

Lemma grows_pop exact a s s' :
  grows exact (Some (S a)) s s' -> grows exact (Some a) s (popBinding s').
Proof.
  intros (l & H & A). exists (removelast l). simpl. rewrite H.
  assert (Hne : l <> []).
  { intros ->. unfold arityOK in A. destruct exact; simpl in A; lia. }
  rewrite removelast_app by assumption. split; [reflexivity |].
  destruct (exists_last Hne) as (l' & x & ->). rewrite removelast_last.
  rewrite length_app in A. simpl in A. unfold arityOK in *. destruct exact; lia.
Qed.

Lemma grows_truncate exact k s s' :
  grows exact k s s' ->
  bindings (truncateBindings s' (List.length (bindings s))) = bindings s.
Proof.
  intros (l & H & _). simpl. rewrite H. rewrite firstn_app, Nat.sub_diag, firstn_all.
  simpl. apply app_nil_r.
Qed.

Lemma grows_of_eq exact s s' : bindings s' = bindings s -> grows exact (Some 0%nat) s s'.
Proof. intros E. eapply grows_same; [exact E | apply grows_refl]. Qed.

Lemma bindings_recordFailure s p e : bindings (recordFailure s p e) = bindings s.
Proof.
  unfold recordFailure. destruct (ignoreFailuresCount s); [| reflexivity].
  destruct (p <? rightmostFailPos s); [reflexivity |].
  destruct (rightmostFailPos s <? p); reflexivity.
Qed.

Lemma bindings_popInputStream s : bindings (popInputStream s) = bindings s.
Proof. unfold popInputStream. destruct (inputStreamStack s) as [| [st t] r]; reflexivity. Qed.

(** [gfrom H]: the goal follows from [H] by steps that keep the bindings. *)
Arguments recordFailure : simpl never.
Arguments popInputStream : simpl never.

Ltac gfrom H :=
  eapply grows_same; [| exact H];
  repeat first [rewrite bindings_recordFailure | rewrite bindings_popInputStream
               | progress simpl];
  try reflexivity.

Arguments spliceLast : simpl never.

Lemma spliceLast_enough (l : list Node) (a : nat) :
  (a <= List.length l)%nat ->
  spliceLast l a = (firstn (List.length l - a) l, skipn (List.length l - a) l).
Proof.
  intros H. unfold spliceLast.
  destruct (Nat.leb_spec a (List.length l)) as [_ | Hgt]; [| lia].
  replace (Nat.min a (List.length l - (List.length l - a))) with a by lia.
  replace (List.length l - a + a)%nat with (List.length l) by lia.
  rewrite skipn_all, app_nil_r. f_equal.
  apply firstn_all2. rewrite length_skipn. lia.
Qed.

(** Cutting the last [a] bindings after an evaluation that bound at least
    [a]: what stays still extends the bindings before, and the row cut off
    has [a] nodes. *)
Lemma spliceLast_grows exact a s s1 rest row :
  grows exact (Some a) s s1 ->
  spliceLast (bindings s1) a = (rest, row) ->
  grows exact (Some 0%nat) s (setBindings s1 rest) /\ List.length row = a.
Proof.
  intros (l & H & A) Hs.
  assert (Hle : (a <= List.length l)%nat) by (unfold arityOK in A; destruct exact; lia).
  rewrite spliceLast_enough in Hs by (rewrite H, length_app; lia).
  inversion Hs; subst rest row; clear Hs. rewrite H, length_app. split.
  - exists (firstn (List.length l - a) l). simpl. split.
    + replace (List.length (bindings s) + List.length l - a)%nat
        with (List.length (bindings s) + (List.length l - a))%nat by lia.
      rewrite firstn_app_2. reflexivity.
    + unfold arityOK in *. destruct exact; [| lia].
      rewrite A, Nat.sub_diag. reflexivity.
  - rewrite length_skipn, length_app. lia.
Qed.

Lemma wfApps_app exact l a :
  wfApps exact (l ++ [a])%list = wfApps exact l && wfArgs exact (appParams a).
Proof. unfold wfApps. rewrite forallb_app. simpl. rewrite andb_true_r. reflexivity. Qed.

Lemma last_In {A : Type} (l : list A) (d : A) : l <> [] -> In (last l d) l.
Proof.
  induction l as [| x r IH]; intros H; [contradiction |].
  destruct r as [| y r']; [left; reflexivity |].
  right. apply IH. discriminate.
Qed.

Lemma wfApps_current exact s a :
  wfApps exact (applications s) = true -> currentApplication s = Some a ->
  wfArgs exact (appParams a) = true.
Proof.
  unfold currentApplication, wfApps. intros Hw Hc.
  destruct (applications s) as [| x r] eqn:E; [discriminate |]. inv_Ok Hc.
  rewrite forallb_forall in Hw. apply Hw.
  apply (last_In (x :: r) (mkApp EmptyString [])). discriminate.
Qed.

Lemma wfApps_callerParams exact s :
  wfApps exact (applications s) = true -> wfArgs exact (callerParams s) = true.
Proof.
  intros Hw. unfold callerParams. destruct (currentApplication s) as [a |] eqn:E.
  - eapply wfApps_current; eauto.
  - reflexivity.
Qed.

Lemma lookupRule_wf exact g name body :
  wfGrammar exact g = true -> lookupRule (ruleDict g) name = Some body ->
  wf exact (ruleExpr body) = true.
Proof.
  unfold wfGrammar. intros Hg. apply andb_prop in Hg. destruct Hg as [Hr _].
  induction (ruleDict g) as [| [n b] r IH]; simpl in *; [discriminate |].
  apply andb_prop in Hr. destruct Hr as [Hb Hr'].
  destruct (String.eqb n name); intros H; [inv_Ok H; exact Hb | auto].
Qed.

Lemma grows_weaken exact a a' s s' :
  grows exact (Some a) s s' -> (exact = true -> a = a') -> (a' <= a)%nat ->
  grows exact (Some a') s s'.
Proof.
  intros (l & H & A) He Hle. exists l. split; [exact H |].
  unfold arityOK in *. destruct exact; [rewrite <- He; auto | lia].
Qed.

Lemma wfApps_frames exact x s s' :
  framesX x s s' -> wfApps exact (applications s) = true ->
  wfApps exact (applications s') = true.
Proof. intros [_ _ H _ _] Hw. rewrite H. exact Hw. Qed.

Lemma pushCols_length : forall (cols : list (list Node)) (row : list Node),
  List.length row = List.length cols -> List.length (pushCols cols row) = List.length cols.
Proof.
  induction cols as [| c cs IH]; intros [| r rs] H; simpl in *; try reflexivity; try discriminate.
  rewrite IH; [reflexivity | lia].
Qed.

Lemma pushIterNodes_grows exact interval cols : forall k s s1,
  grows exact (Some k) s s1 ->
  grows exact (Some (k + List.length cols)%nat) s (pushIterNodes s1 cols interval).
Proof.
  unfold pushIterNodes. induction cols as [| c r IH]; simpl; intros k s s1 H.
  - rewrite Nat.add_0_r. exact H.
  - replace (k + S (List.length r))%nat with ((k + 1) + List.length r)%nat by lia.
    apply IH. apply grows_push. exact H.
Qed.

Section ContractOfEval.

Variable exact : bool.
Variable g : Grammar.
Variable ev : PExpr -> State -> Result Answer.
Variable fuel : nat.
Hypothesis Hg : wfGrammar exact g = true.
Hypothesis Hev : forall e s b s', ev e s = Ok (b, s') -> frames s s'.
Hypothesis Hc : forall e s b s',
    wf exact e = true -> wfApps exact (applications s) = true ->
    ev e s = Ok (b, s') -> evalContract exact b e s s'.

Lemma ev_grows e s b s' :
  wf exact e = true -> wfApps exact (applications s) = true ->
  ev e s = Ok (b, s') ->
  grows exact (Some (if b then getArity e else 0%nat)) s s'.
Proof.
  intros Hw Ha H. apply Hc in H; auto. destruct b; simpl in H; auto.
  apply grows_of_eq. exact H.
Qed.

Lemma wf_spaces : wf exact (appExpr (applySpaces_ g)) = true.
Proof.
  unfold wfGrammar in Hg. apply andb_prop in Hg. destruct Hg as [_ H]. exact H.
Qed.

Lemma skipSpaces_grows s s' :
  wfApps exact (applications s) = true ->
  skipSpaces g ev s = Ok s' -> grows exact (Some 0%nat) s s'.
Proof.
  unfold skipSpaces. intros Hw H. bind_inv H. destruct a as [ans s1]. inv_Ok H.
  apply ev_grows in Hcall; auto using wf_spaces.
  destruct ans; simpl in Hcall; [apply grows_pop |]; exact Hcall.
Qed.

Lemma skipSpacesIf_grows s p s' :
  wfApps exact (applications s) = true ->
  skipSpacesIfInSyntacticContext g ev s = Ok (p, s') -> grows exact (Some 0%nat) s s'.
Proof.
  unfold skipSpacesIfInSyntacticContext. intros Hw H. destruct (inSyntacticContext s).
  - bind_inv H. inv_Ok H. apply skipSpaces_grows; auto.
  - inv_Ok H. apply grows_refl.
Qed.

(** The two ways a terminal ends: one node pushed, or none. *)
Ltac one_pushed H := apply (grows_push exact 0%nat); gfrom H.
Ltac none_pushed H := apply grows_forget with (k := Some 0%nat); gfrom H.

Ltac open_skip_grows H Hw :=
  bind_inv H;
  match goal with
  | a : (Z * State)%type |- _ =>
      let p := fresh "origPos" in let s1 := fresh "s1" in
      destruct a as [p s1];
      match goal with
      | Hs : skipSpacesIfInSyntacticContext _ _ _ = Ok _ |- _ =>
          apply skipSpacesIf_grows in Hs; [| exact Hw]
      end
  end.

Lemma eval_anything_raw s b s' :
  wfApps exact (applications s) = true ->
  eval_anything g ev s = Ok (b, s') -> rawContract exact b anything s s'.
Proof.
  unfold eval_anything, rawContract. intros Hw H. open_skip_grows H Hw.
  destruct (next (inputStream s1)) as [[v |] st]; inv_Ok H;
    [one_pushed Hcall | none_pushed Hcall].
Qed.

Lemma eval_end_raw s b s' :
  wfApps exact (applications s) = true ->
  eval_end g ev s = Ok (b, s') -> rawContract exact b end_ s s'.
Proof.
  unfold eval_end, rawContract. intros Hw H. open_skip_grows H Hw.
  destruct (atEnd (inputStream s1)); inv_Ok H; [one_pushed Hcall | none_pushed Hcall].
Qed.

Lemma eval_Prim_raw this obj matcher s b s' :
  getArity this = 1%nat ->
  wfApps exact (applications s) = true ->
  eval_Prim g ev this obj matcher s = Ok (b, s') -> rawContract exact b this s s'.
Proof.
  unfold eval_Prim, rawContract. intros Har Hw H. open_skip_grows H Hw. rewrite Har.
  destruct (matcher (inputStream s1)) as [[|] st]; inv_Ok H;
    [one_pushed Hcall | none_pushed Hcall].
Qed.

Lemma eval_Range_raw from to s b s' :
  wfApps exact (applications s) = true ->
  eval_Range g ev from to s = Ok (b, s') -> rawContract exact b (Range from to) s s'.
Proof.
  unfold eval_Range, rawContract. intros Hw H. open_skip_grows H Hw.
  destruct (next (inputStream s1)) as [o st].
  destruct (inRange from to o); inv_Ok H; [one_pushed Hcall | none_pushed Hcall].
Qed.

Lemma eval_UnicodeChar_raw c s b s' :
  wfApps exact (applications s) = true ->
  eval_UnicodeChar g ev c s = Ok (b, s') -> rawContract exact b (UnicodeChar c) s s'.
Proof.
  unfold eval_UnicodeChar, rawContract. intros Hw H. open_skip_grows H Hw.
  destruct (next (inputStream s1)) as [[v |] st];
    [destruct (unicodeTest g c v) |]; inv_Ok H;
    [one_pushed Hcall | none_pushed Hcall | none_pushed Hcall].
Qed.

Lemma eval_Param_raw i s b s' :
  wfApps exact (applications s) = true ->
  eval_Param ev i s = Ok (b, s') -> rawContract exact b (Param i) s s'.
Proof.
  unfold eval_Param, rawContract. intros Hw H.
  destruct (currentApplication s) as [a |] eqn:Ea; [| discriminate].
  destruct (nth_error (appParams a) i) as [p |] eqn:Ep; [| discriminate].
  pose proof (wfApps_current _ _ _ Hw Ea) as Hargs. unfold wfArgs in Hargs.
  apply andb_prop in Hargs. destruct Hargs as [Hwf Har].
  rewrite forallb_forall in Hwf, Har. apply nth_error_In in Ep.
  specialize (Hwf p Ep). specialize (Har p Ep). apply Nat.eqb_eq in Har.
  apply ev_grows in H; auto. destruct b; simpl.
  - rewrite Har in H. exact H.
  - eapply grows_forget; eauto.
Qed.

Lemma eval_Lex_raw e s b s' :
  wf exact e = true -> wfApps exact (applications s) = true ->
  eval_Lex ev e s = Ok (b, s') -> rawContract exact b (Lex e) s s'.
Proof.
  unfold eval_Lex, rawContract. intros Hwf Hw H. bind_inv H. destruct a as [ans s1].
  inv_Ok H. apply ev_grows in Hcall; auto. simpl.
  destruct b; [| apply grows_forget with (k := Some 0%nat)]; gfrom Hcall.
Qed.

Lemma eval_Alt_raw A ts : forall s b s',
  forallb (wf exact) ts = true ->
  (forall t, In t ts -> getArity t = A) ->
  wfApps exact (applications s) = true ->
  eval_Alt ev ts s = Ok (b, s') ->
  grows exact (if b then Some A else None) s s'.
Proof.
  induction ts as [| t r IH]; simpl; intros s b s' Hwf HA Hw H.
  - inv_Ok H. apply grows_forget with (k := Some 0%nat), grows_refl.
  - apply andb_prop in Hwf. destruct Hwf as [Ht Hr].
    bind_inv H. destruct a as [ans s1].
    pose proof (Hev _ _ _ _ Hcall) as Hf. apply Hc in Hcall; auto.
    destruct ans; simpl in Hcall.
    + inv_Ok H. rewrite (HA t (or_introl eq_refl)) in Hcall. exact Hcall.
    + eapply grows_start; [symmetry; exact Hcall |].
      apply IH; auto. eapply wfApps_frames; eauto.
Qed.

Lemma eval_Seq_raw fs : forall s b s',
  forallb (wf exact) fs = true ->
  wfApps exact (applications s) = true ->
  eval_Seq ev fs s = Ok (b, s') ->
  grows exact (if b then Some (sumList (map getArity fs)) else None) s s'.
Proof.
  induction fs as [| t r IH]; simpl; intros s b s' Hwf Hw H.
  - inv_Ok H. apply grows_refl.
  - apply andb_prop in Hwf. destruct Hwf as [Ht Hr].
    bind_inv H. destruct a as [ans s1].
    pose proof (Hev _ _ _ _ Hcall) as Hf. apply ev_grows in Hcall; auto.
    destruct ans.
    + apply IH in H; auto; [| eapply wfApps_frames; eauto].
      destruct b; [eapply grows_trans | eapply grows_trans_None]; eauto.
    + inv_Ok H. eapply grows_forget; eauto.
Qed.

Lemma iterLoop_grows e a mx rounds : forall n cols s n' cols' s',
  wf exact e = true -> getArity e = a ->
  wfApps exact (applications s) = true ->
  List.length cols = a ->
  iterLoop ev e a mx rounds n cols s = Ok (n', cols', s') ->
  grows exact (Some 0%nat) s s' /\ List.length cols' = a.
Proof.
  induction rounds as [| r IH]; intros n cols s n' cols' s' Hwf Ha Hw Hlen H;
    cbn [iterLoop] in H; [discriminate |].
  destruct (belowMax n mx); [| inv_Ok H; split; [apply grows_refl | congruence]].
  bind_inv H. destruct a0 as [ans s1].
  pose proof (Hev _ _ _ _ Hcall) as Hf. apply ev_grows in Hcall; auto.
  destruct ans; [| inv_Ok H; split; [exact Hcall | congruence]].
  rewrite Ha in Hcall.
  destruct (spliceLast (bindings s1) a) as [rest row] eqn:Es.
  destruct (spliceLast_grows _ _ _ _ _ _ Hcall Es) as [G Hrow].
  apply IH in H; auto.
  - destruct H as [G' L']. split; [| exact L'].
    apply (grows_trans exact 0 0 s (setBindings s1 rest) s'); assumption.
  - simpl. eapply wfApps_frames; eauto.
  - rewrite pushCols_length; lia.
Qed.

Lemma eval_Iter_raw e mn mx s b s' :
  wf exact e = true -> wfApps exact (applications s) = true ->
  eval_Iter ev fuel e mn mx s = Ok (b, s') -> rawContract exact b (Iter e mn mx) s s'.
Proof.
  unfold eval_Iter, rawContract. intros Hwf Hw H. bind_inv H.
  destruct a as [[n cols] s1].
  apply iterLoop_grows in Hcall; auto using repeat_length. destruct Hcall as [G L].
  destruct (n <? mn)%nat; [inv_Ok H; eapply grows_forget; eauto |].
  bind_inv H. inv_Ok H. simpl getArity in *.
  pose proof (pushIterNodes_grows exact a cols 0%nat s s1 G) as P.
  rewrite L in P. exact P.
Qed.

Lemma eval_Not_raw e s b s' :
  wf exact e = true -> wfApps exact (applications s) = true ->
  eval_Not ev e s = Ok (b, s') -> rawContract exact b (Not e) s s'.
Proof.
  unfold eval_Not, rawContract. intros Hwf Hw H. bind_inv H. destruct a as [ans s1].
  apply ev_grows in Hcall; auto. destruct ans; inv_Ok H.
  - apply grows_forget with (k := Some 0%nat). apply grows_of_eq.
    destruct Hcall as (l & Hl & _). simpl. rewrite bindings_recordFailure. simpl.
    simpl in Hl. rewrite Hl, firstn_app, Nat.sub_diag, firstn_all. simpl.
    apply app_nil_r.
  - simpl. gfrom Hcall.
Qed.

Lemma eval_Lookahead_raw e s b s' :
  wf exact e = true -> wfApps exact (applications s) = true ->
  eval_Lookahead ev e s = Ok (b, s') -> rawContract exact b (Lookahead e) s s'.
Proof.
  unfold eval_Lookahead, rawContract. intros Hwf Hw H. bind_inv H. destruct a as [ans s1].
  apply ev_grows in Hcall; auto. destruct ans; inv_Ok H; simpl.
  - gfrom Hcall.
  - eapply grows_forget; eauto.
Qed.

Lemma eval_Arr_raw e s b s' :
  wf exact (Arr e) = true -> wfApps exact (applications s) = true ->
  eval_Arr ev e s = Ok (b, s') -> rawContract exact b (Arr e) s s'.
Proof.
  unfold eval_Arr, rawContract. intros Hwf Hw H. simpl in Hwf.
  apply andb_prop in Hwf. destruct Hwf as [Hwe Hze].
  destruct (next (inputStream s)) as [o st].
  destruct o as [[p | obj | ps] |];
    try (inv_Ok H; apply grows_forget with (k := Some 0%nat), grows_of_eq; reflexivity).
  bind_inv H. destruct a as [a s2]. inv_Ok H.
  apply ev_grows in Hcall; auto.
  assert (G : grows exact (Some (if a then getArity e else 0%nat)) s (popInputStream s2)).
  { eapply grows_start; [| gfrom Hcall]. reflexivity. }
  destruct (a && atEnd (inputStream s2)) eqn:Hand; [| eapply grows_forget; eauto].
  apply andb_prop in Hand. destruct Hand as [-> _]. simpl.
  eapply grows_weaken; [exact G | | lia].
  intros ->. simpl in Hze. apply Nat.eqb_eq in Hze. exact Hze.
Qed.

Lemma eval_Str_raw e s b s' :
  wf exact (Str e) = true -> wfApps exact (applications s) = true ->
  eval_Str ev e s = Ok (b, s') -> rawContract exact b (Str e) s s'.
Proof.
  unfold eval_Str, rawContract. intros Hwf Hw H. simpl in Hwf.
  apply andb_prop in Hwf. destruct Hwf as [Hwe Hze].
  destruct (next (inputStream s)) as [o st].
  destruct o as [[[| | b0 | n0 | str] | obj | ps] |];
    try (inv_Ok H; apply grows_forget with (k := Some 0%nat), grows_of_eq; reflexivity).
  bind_inv H. destruct a as [a1 s2].
  pose proof (Hev _ _ _ _ Hcall) as Hf. apply ev_grows in Hcall; auto.
  bind_inv H. destruct a as [ans s3]. inv_Ok H.
  assert (G1 : grows exact (Some (if a1 then getArity e else 0%nat)) s s2).
  { eapply grows_start; [| exact Hcall]. reflexivity. }
  destruct a1.
  - apply ev_grows in Hcall0; auto; [| eapply wfApps_frames; eauto].
    destruct b; simpl in Hcall0.
    + apply grows_pop in Hcall0.
      pose proof (grows_trans _ _ _ _ _ _ G1 Hcall0) as G.
      simpl. eapply grows_weaken; [gfrom G | | lia].
      intros ->. simpl in Hze. apply Nat.eqb_eq in Hze. lia.
    + eapply grows_trans_None; [exact G1 | gfrom Hcall0].
  - inv_Ok Hcall0. apply grows_forget with (k := Some 0%nat). gfrom G1.
Qed.

Lemma objLoop_grows obj ps : forall n s r s',
  forallb (fun p => wf exact (snd p)) ps = true ->
  wfApps exact (applications s) = true ->
  objLoop ev obj ps n s = Ok (r, s') ->
  grows exact (match r with
               | Some _ => Some (sumList (map (fun p => getArity (snd p)) ps))
               | None => None
               end) s s'.
Proof.
  induction ps as [| [name pattern] rest IH]; simpl; intros n s r s' Hwf Hw H.
  - inv_Ok H. apply grows_refl.
  - apply andb_prop in Hwf. destruct Hwf as [Hp Hr].
    destruct (hasOwnProperty obj name); simpl in H;
      [| inv_Ok H; apply grows_forget with (k := Some 0%nat), grows_refl].
    bind_inv H. destruct a as [a s2].
    pose proof (Hev _ _ _ _ Hcall) as Hf.
    apply (frames_pop_after_push None) in Hf.
    apply ev_grows in Hcall; auto.
    assert (G : grows exact (Some (if a then getArity pattern else 0%nat)) s
                      (popInputStream s2)).
    { eapply grows_start; [| gfrom Hcall]. reflexivity. }
    destruct (a && atEnd (inputStream s2)) eqn:Hand.
    + apply andb_prop in Hand. destruct Hand as [-> _].
      apply IH in H; auto; [| eapply wfApps_frames; eauto].
      destruct r; [eapply grows_trans | eapply grows_trans_None]; eauto.
    + inv_Ok H. eapply grows_forget; eauto.
Qed.

Lemma sumList_zero (ps : list (string * PExpr)) :
  forallb (fun p => (getArity (snd p) =? 0)%nat) ps = true ->
  sumList (map (fun p => getArity (snd p)) ps) = 0%nat.
Proof.
  induction ps as [| x r IH]; simpl; [reflexivity |].
  intros H. apply andb_prop in H. destruct H as [Hx Hr].
  apply Nat.eqb_eq in Hx. rewrite Hx, IH; auto.
Qed.

Lemma eval_Obj_raw ps len s b s' :
  wf exact (Obj ps len) = true -> wfApps exact (applications s) = true ->
  eval_Obj ev ps len s = Ok (b, s') -> rawContract exact b (Obj ps len) s s'.
Proof.
  unfold eval_Obj, rawContract. intros Hwf Hw H. simpl in Hwf.
  apply andb_prop in Hwf. destruct Hwf as [Hwp Hzp].
  assert (Hsum : exact = true -> sumList (map (fun p => getArity (snd p)) ps) = 0%nat).
  { intros ->. simpl in Hzp. apply sumList_zero. exact Hzp. }
  destruct (next (inputStream s)) as [o st].
  destruct o as [obj |];
    [| inv_Ok H; apply grows_forget with (k := Some 0%nat), grows_of_eq; reflexivity].
  destruct (isObjectLike obj);
    [| inv_Ok H; apply grows_forget with (k := Some 0%nat), grows_of_eq; reflexivity].
  bind_inv H. destruct a as [r s1]. apply objLoop_grows in Hcall; auto.
  apply (grows_start _ _ s) in Hcall; [| reflexivity].
  destruct r as [n |]; [| inv_Ok H; exact Hcall].
  destruct len.
  - inv_Ok H. simpl. apply grows_push with (n := TerminalNode
      (VObj (remainderLoop obj ps (map fst (ownProperties obj)) []))
      (intervalFrom (inputStream s1) (currentPos s))) in Hcall.
    eapply grows_weaken; [exact Hcall | | lia].
    intros He. rewrite (Hsum He). reflexivity.
  - inv_Ok H. destruct (n =? _)%nat; [| eapply grows_forget; eauto].
    simpl. eapply grows_weaken; [exact Hcall | exact Hsum | lia].
Qed.

Lemma evalOnce_grows this e s v s' :
  wf exact e = true -> wfApps exact (applications s) = true ->
  evalOnce ev this e s = Ok (v, s') -> grows exact (Some 0%nat) s s'.
Proof.
  unfold evalOnce. intros Hwf Hw H. bind_inv H. destruct a as [ans s1].
  apply ev_grows in Hcall; auto. destruct ans; [| inv_Ok H; exact Hcall].
  destruct (spliceLast (bindings s1) (getArity e)) as [rest row] eqn:Es.
  inv_Ok H. eapply spliceLast_grows; eauto.
Qed.

Lemma growLoop_grows this body origPos k rounds : forall lr c s lr' c' s',
  wf exact body = true -> wfApps exact (applications s) = true ->
  growLoop ev this body origPos k rounds lr c s = Ok (lr', c', s') ->
  grows exact (Some 0%nat) s s'.
Proof.
  induction rounds as [| r IH]; simpl; intros lr c s lr' c' s' Hwf Hw H; [discriminate |].
  bind_inv H. destruct a as [newValue s1].
  pose proof (evalOnce_frames _ Hev _ _ _ _ _ Hcall) as Hf.
  apply evalOnce_grows in Hcall; auto.
  apply (grows_start _ _ s) in Hcall; [| reflexivity].
  destruct (currentPos s1 <=? memoPos lr); [inv_Ok H; exact Hcall |].
  apply IH in H; auto.
  - apply (grows_trans exact 0 0 s s1 s'); [exact Hcall |].
    eapply grows_start; [| exact H]. reflexivity.
  - simpl. destruct Hf as [_ _ Ha _ _]. rewrite Ha. exact Hw.
Qed.

Lemma growSeedResult_grows this body origPos k lr seed s v s' :
  wf exact body = true -> wfApps exact (applications s) = true ->
  growSeedResult ev fuel this body origPos k lr seed s = Ok (v, s') ->
  grows exact (Some 0%nat) s s'.
Proof.
  unfold growSeedResult. intros Hwf Hw H. destruct seed; [| inv_Ok H; apply grows_refl].
  destruct lr as [r |].
  - bind_inv H. destruct a as [[r' c] s1]. inv_Ok H.
    apply growLoop_grows in Hcall; [gfrom Hcall | auto | auto].
  - bind_inv H. destruct a. discriminate.
Qed.

Lemma settleResult_grows this body origPos value s v s' :
  wf exact body = true -> wfApps exact (applications s) = true ->
  settleResult ev fuel this body origPos value s = Ok (v, s') ->
  grows exact (Some 0%nat) s s'.
Proof.
  unfold settleResult. intros Hwf Hw H.
  destruct (currentLeftRecursion (getPosInfo s origPos)) as [| lr rest].
  - inv_Ok H. apply grows_of_eq. reflexivity.
  - destruct (sameApplication this (headApplication lr)).
    + bind_inv H. destruct a as [v1 s1]. inv_Ok H.
      apply growSeedResult_grows in Hcall; [gfrom Hcall | auto | auto].
    + destruct (isInvolved lr this); inv_Ok H;
        [apply grows_refl | apply grows_of_eq; reflexivity].
Qed.

Lemma grows_after exact' k s s1 s2 :
  grows exact' (Some 0%nat) s s1 -> grows exact' k s1 s2 -> grows exact' k s s2.
Proof.
  intros H G. destruct k as [a |].
  - apply (grows_trans exact' 0 a s s1 s2); assumption.
  - eapply grows_trans_None; eauto.
Qed.

Lemma wf_end : wf exact end_ = true.
Proof. reflexivity. Qed.

Lemma reallyEval_raw this top s b s' :
  wfArgs exact (appParams this) = true ->
  wfApps exact (applications s) = true ->
  reallyEval g ev fuel this top s = Ok (b, s') ->
  grows exact (if b then Some 1%nat else None) s s'.
Proof.
  unfold reallyEval. intros Hthis Hw H.
  destruct (lookupRule (ruleDict g) (appRule this)) as [body |] eqn:Eb; [| discriminate].
  pose proof (lookupRule_wf _ _ _ _ Hg Eb) as Hbody.
  bind_inv H. destruct a as [value0 s3].
  bind_inv H. destruct a as [value s4].
  set (X := Some (currentPos s, toMemoKey this)) in *.
  set (s1 := posInfoEnter s (currentPos s) this) in *.
  assert (Hw1 : wfApps exact (applications s1) = true).
  { simpl. rewrite wfApps_app, Hw, Hthis. reflexivity. }
  assert (G13 : grows exact (Some 0%nat) s s3 /\ framesX X s1 s3).
  { destruct (isSome (description body)).
    - split.
      + apply evalOnce_grows in Hcall; auto.
      + apply frames_weaken, fx_from_doNot. eapply evalOnce_frames; eauto.
    - split.
      + apply evalOnce_grows in Hcall; auto.
      + apply frames_weaken. eapply evalOnce_frames; eauto. }
  destruct G13 as [G13 F13].
  assert (Hw3 : wfApps exact (applications s3) = true)
    by (eapply wfApps_frames; eauto).
  pose proof (settleResult_frames _ fuel Hev _ _ _ _ _ _ _ Hcall0) as F34.
  apply settleResult_grows in Hcall0; auto.
  assert (G14 : grows exact (Some 0%nat) s s4) by (eapply grows_after; eauto).
  assert (F14 : framesX X s1 s4) by (eapply framesX_trans; eauto).
  match type of H with
  | context [posInfoExit ?s5 _] =>
      assert (H6 : framesX X s (posInfoExit s5 (currentPos s)) /\
                   grows exact (Some 0%nat) s (posInfoExit s5 (currentPos s)))
  end.
  { split.
    - apply frames_enter_exit with (a := this). fold s1.
      destruct (isSome (description body)); [destruct (isSome value) |]; peel.
    - destruct (isSome (description body)); [destruct (isSome value) |]; gfrom G14. }
  destruct H6 as [F6 G6].
  destruct value as [v |]; [| inv_Ok H; eapply grows_forget; eauto].
  pose proof (grows_push _ _ _ _ v G6) as G7. simpl Nat.add in G7.
  destruct top; [| inv_Ok H; exact G7].
  bind_inv H. bind_inv H. destruct a0 as [ans s9].
  assert (H8 : grows exact (Some 0%nat) (pushBinding (posInfoExit
                 (if isSome (description body)
                  then if isSome (Some v) then doRecordFailures s4
                       else recordFailure (doRecordFailures s4) (currentPos s) (appExpr this)
                  else s4) (currentPos s)) v) a /\
               wfApps exact (applications a) = true).
  { assert (Hw7 : wfApps exact (applications s) = true) by exact Hw.
    destruct F6 as [_ _ Fa _ _].
    destruct (isSyntactic this).
    - pose proof (skipSpaces_frames _ _ Hev _ _ Hcall1) as Fs.
      apply skipSpaces_grows in Hcall1.
      + split; [exact Hcall1 |]. eapply wfApps_frames; [exact Fs |].
        simpl. simpl in Fa. rewrite Fa. exact Hw.
      + simpl. simpl in Fa. rewrite Fa. exact Hw.
    - inv_Ok Hcall1. split; [apply grows_refl |].
      simpl. simpl in Fa. rewrite Fa. exact Hw. }
  destruct H8 as [G8 Hw8].
  apply ev_grows in Hcall2; auto.
  destruct ans; inv_Ok H; simpl in Hcall2.
  - apply grows_pop in Hcall2.
    pose proof (grows_after _ _ _ _ _ G8 Hcall2) as G9.
    exact (grows_trans exact 1 0 _ _ _ G7 G9).
  - pose proof (grows_after _ _ _ _ _ G8 Hcall2) as G9.
    eapply grows_trans_None; [exact G7 | exact G9].
Qed.

Lemma substituteApp_wf r ps actuals app :
  wf exact (Apply r ps) = true -> wfArgs exact actuals = true ->
  substituteApp r ps actuals = Some app -> wfArgs exact (appParams app) = true.
Proof.
  intros Hwf Hact Hs. unfold substituteApp in Hs.
  destruct (allSome _) as [ps' |] eqn:E; simpl in Hs; [| discriminate]. inv_Ok Hs.
  destruct (substituteParams_wf exact actuals Hact (Apply r ps) (Apply r ps') Hwf) as [W _].
  - simpl. rewrite E. reflexivity.
  - exact W.
Qed.

Lemma eval_Apply_raw r ps s b s' :
  wf exact (Apply r ps) = true -> wfApps exact (applications s) = true ->
  eval_Apply g ev fuel r ps s = Ok (b, s') -> rawContract exact b (Apply r ps) s s'.
Proof.
  unfold eval_Apply, rawContract. intros Hwf Hw H.
  destruct (substituteApp r ps (callerParams s)) as [app |] eqn:Es; [| discriminate].
  pose proof (substituteApp_wf _ _ _ _ Hwf (wfApps_callerParams _ _ Hw) Es) as Happ.
  bind_inv H.
  assert (H1 : grows exact (Some 0%nat) s a /\ wfApps exact (applications a) = true).
  { unfold applicationSite in Hcall.
    destruct (negb (sameApplication app (applySpaces_ g)) &&
              (inSyntacticContext s || isSyntactic app)).
    - split; [apply skipSpaces_grows; auto |].
      eapply wfApps_frames; [eapply skipSpaces_frames; eauto | exact Hw].
    - inv_Ok Hcall. split; [apply grows_refl | exact Hw]. }
  destruct H1 as [G1 Hw1]. clear Hcall.
  eapply grows_after; [exact G1 |]. simpl getArity.
  destruct (memo (getCurrentPosInfo a) (toMemoKey app)) as [memoRec |].
  - unfold useMemoizedResult in H. destruct (memoValue memoRec); inv_Ok H.
    + apply (grows_push exact 0%nat). apply grows_of_eq. reflexivity.
    + apply grows_forget with (k := Some 0%nat), grows_of_eq. reflexivity.
  - destruct (isActive (getCurrentPosInfo a) app).
    + inv_Ok H. apply grows_forget with (k := Some 0%nat), grows_of_eq. reflexivity.
    + eapply reallyEval_raw; eauto.
Qed.

Lemma _eval_raw e s b s' :
  wf exact e = true -> wfApps exact (applications s) = true ->
  _eval g ev fuel e s = Ok (b, s') -> rawContract exact b e s s'.
Proof.
  intros Hwf Hw. destruct e; simpl _eval.
  - apply eval_anything_raw; auto.
  - apply eval_end_raw; auto.
  - apply eval_Prim_raw; auto.
  - apply eval_Prim_raw; auto.
  - apply eval_Range_raw; auto.
  - apply eval_UnicodeChar_raw; auto.
  - apply eval_Param_raw; auto.
  - apply eval_Lex_raw; auto.
  - simpl in Hwf. apply andb_prop in Hwf. destruct Hwf as [H1 H2].
    unfold rawContract. apply eval_Alt_raw; auto.
    rewrite forallb_forall in H2. intros t Ht. apply Nat.eqb_eq. apply H2. exact Ht.
  - unfold rawContract. apply eval_Seq_raw; auto.
  - apply eval_Iter_raw; auto.
  - apply eval_Not_raw; auto.
  - apply eval_Lookahead_raw; auto.
  - apply eval_Arr_raw; auto.
  - apply eval_Str_raw; auto.
  - apply eval_Obj_raw; auto.
  - apply eval_Apply_raw; auto.
Qed.

Lemma PExpr_eval_contract e s b s' :
  wf exact e = true -> wfApps exact (applications s) = true ->
  PExpr_eval g ev fuel e s = Ok (b, s') -> evalContract exact b e s s'.
Proof.
  unfold PExpr_eval, evalContract. intros Hwf Hw H. bind_inv H. destruct a as [ans s1].
  apply _eval_raw in Hcall; auto. unfold rawContract in Hcall.
  destruct ans; inv_Ok H; [exact Hcall |].
  apply (grows_truncate exact None s (setCurrentPos s1 (currentPos s))). exact Hcall.
Qed.

End ContractOfEval.

(** The contract of [eval]: with consistent arities, a success has added to
    the bindings as many nodes as the arity of the expression (at least as
    many when [exact] is off), and a failure has left them as they were. *)
Lemma eval_contract exact g n :
  wfGrammar exact g = true ->
  forall e s b s',
    wf exact e = true -> wfApps exact (applications s) = true ->
    eval g n e s = Ok (b, s') -> evalContract exact b e s s'.
Proof.
  intros Hg. induction n as [| n IH]; simpl; intros e s b s' Hwf Hw H; [discriminate |].
  eapply PExpr_eval_contract; eauto using eval_frames.
Qed.

(** * The claims *)

(** The example grammars are arity-consistent. *)
Lemma example_grammars_consistent :
  wfGrammar true gLex = true /\ wfGrammar true gCalc = true /\
  wfGrammar true gInvolved = true.
Proof. repeat split; reflexivity. Qed.

(** C1: when [e.eval(s)] returns false, the position of the current stream
    is the one before the call and the bindings stack is the one before the
    call, in length and in content.  The expression, the grammar and the
    arguments of the active applications are taken arity-consistent (the
    alternatives of an [Alt] share an arity, arguments have arity one), as a
    grammar is when it has passed the arity check. *)
Theorem eval_failure_restores g n e s s' :
  wfGrammar false g = true ->
  wfApps false (applications s) = true ->
  wf false e = true ->
  eval g n e s = Ok (false, s') ->
  List.length (bindings s') = List.length (bindings s) /\
  currentPos s' = currentPos s /\
  bindings s' = bindings s /\
  source (inputStream s') = source (inputStream s).
Proof.
  intros Hg Hw Hwf H.
  pose proof (eval_contract false g n Hg e s false s' Hwf Hw H) as Hb. simpl in Hb.
  pose proof (eval_frames g n e s false s' H) as [_ Hsrc _ _ _].
  rewrite Hb. repeat split; auto.
  destruct n as [| n]; simpl in H; [discriminate |].
  unfold PExpr_eval in H. bind_inv H. destruct a as [ans s1].
  destruct ans; [discriminate |]. inv_Ok H. reflexivity.
Qed.

Lemma eval_failure_restores_witness :
  exists s',
    eval gCalc 20 (Apply "Expr" []) (initialState (SrcString "1-")) = Ok (false, s') /\
    List.length (bindings s') = 0%nat /\ currentPos s' = 0.
Proof.
  destruct (eval gCalc 20 (Apply "Expr" []) (initialState (SrcString "1-")))
    as [[b s'] | err |] eqn:E;
    [| vm_compute in E; discriminate E | vm_compute in E; discriminate E].
  assert (Hb : b = false).
  { vm_compute in E. injection E as Hb _. symmetry; exact Hb. }
  subst b. exists s'. split; [reflexivity |].
  destruct (eval_failure_restores gCalc 20 (Apply "Expr" [])
              (initialState (SrcString "1-")) s' eq_refl eq_refl eq_refl E)
    as (Hlen & Hpos & _). split; assumption.
Defined.












Lemma eval_end_success g n s s' :
  eval g n end_ s = Ok (true, s') -> atEnd (inputStream s') = true.
Proof.
  destruct n as [| n]; simpl; [discriminate |]. unfold PExpr_eval. intros H.
  bind_inv H. destruct a as [ans s1]. destruct ans; [| discriminate]. inv_Ok H.
  simpl in Hcall. unfold eval_end in Hcall. bind_inv Hcall. destruct a as [p s2].
  destruct (atEnd (inputStream s2)) eqn:E; [| discriminate]. inv_Ok Hcall. exact E.
Qed.




(** [this.properties.indexOf(p)] finds no property name: it compares
    records with a string. *)
Lemma indexOfProperty_never_finds properties p : indexOfProperty properties p = -1.
Proof.
  induction properties as [| x r IH]; simpl; [reflexivity |].
  unfold propertyStrictEqName. rewrite IH. reflexivity.
Qed.

(** C5 at the input of the spec: the lenient pattern [{name: string, ...}]
    against [{name: "a", extra: 7}] succeeds, and the remainder object bound
    last holds the declared property [name] as well as [extra]; with a
    property pattern that binds nothing the remainder is the only binding,
    and it still holds [name]. *)
Theorem Obj_lenient_remainder_at_example :
  (exists s',
     eval gRec 8 recPattern recInput = Ok (true, s') /\
     bindings s' =
       [ NodeC "string" [TerminalNode (VPrim (PStr "a")) (mkInterval 0 1)] (mkInterval 0 1);
         TerminalNode (VObj [("name", VPrim (PStr "a")); ("extra", VPrim (PNum 7))])
                      (mkInterval 0 1) ]) /\
  (exists s',
     eval gRec 8 recPatternNoBinding recInputEmptyName = Ok (true, s') /\
     bindings s' =
       [ TerminalNode (VObj [("name", VPrim (PStr EmptyString)); ("extra", VPrim (PNum 7))])
                      (mkInterval 0 1) ]).
Proof.
  split.
  - destruct (eval gRec 8 recPattern recInput) as [[b s'] | err |] eqn:E;
      vm_compute in E; try discriminate E.
    injection E as Hb Hs. subst b. exists s'. split; [reflexivity |].
    rewrite <- Hs. reflexivity.
  - destruct (eval gRec 8 recPatternNoBinding recInputEmptyName) as [[b s'] | err |] eqn:E;
      vm_compute in E; try discriminate E.
    injection E as Hb Hs. subst b. exists s'. split; [reflexivity |].
    rewrite <- Hs. reflexivity.
Qed.





Lemma next_some st v st' :
  next st = (Some v, st') -> st' = setPos st (pos st + 1) /\ v = atomAt st (pos st).
Proof.
  unfold next. destruct (atEnd st); intros H; inversion H; auto.
Qed.

(** C7 fails as stated: [Arr(anything)] over the atom [[1]] succeeds and the
    bindings stack has grown by the node its inner expression bound. *)
Lemma Arr_grows_bindings_counterexample :
  exists s',
    eval gPair 6 (Arr anything) nestedArrayInput = Ok (true, s') /\
    List.length (bindings s') <> (List.length (bindings nestedArrayInput) + 0)%nat.
Proof.
  destruct (eval gPair 6 (Arr anything) nestedArrayInput) as [[b s'] | err |] eqn:E;
    vm_compute in E; try discriminate E.
  injection E as Hb Hs. subst b. exists s'. split; [reflexivity |].
  rewrite <- Hs. vm_compute. discriminate.
Qed.

(** C7, amended: a successful [Arr(e)] has read exactly one atom of the
    outer stream, an array; [e] succeeded on the nested stream over that
    array and left it at its end; the outer stream stands one atom further,
    and the bindings are those the evaluation of [e] left, so the stack has
    grown by what [e] bound. *)
Theorem Arr_success g n e s s' :
  eval g (S n) (Arr e) s = Ok (true, s') ->
  exists elems s2,
    atomAt (inputStream s) (currentPos s) = VArr elems /\
    atEnd (inputStream s) = false /\
    eval g n e (pushInputStream (setCurrentPos s (currentPos s + 1))
                                (mkStream (SrcList elems) 0)) = Ok (true, s2) /\
    atEnd (inputStream s2) = true /\
    bindings s' = bindings s2 /\
    currentPos s' = currentPos s + 1 /\
    inputStreamStack s' = inputStreamStack s.
Proof.
  simpl. unfold PExpr_eval. intros H. bind_inv H. destruct a as [ans s1].
  destruct ans; [| discriminate]. inv_Ok H. simpl in Hcall. unfold eval_Arr in Hcall.
  destruct (next (inputStream s)) as [o st] eqn:E.
  destruct o as [[p | elems | ps] |]; try discriminate.
  bind_inv Hcall. destruct a as [a s2].
  destruct (a && atEnd (inputStream s2)) eqn:Hand; [| discriminate].
  apply andb_prop in Hand. destruct Hand as [-> Hend]. inv_Ok Hcall.
  destruct (next_some _ _ _ E) as [-> Hv].
  assert (Hne : atEnd (inputStream s) = false).
  { unfold next in E. destruct (atEnd (inputStream s)); [discriminate | reflexivity]. }
  exists elems, s2. pose proof (eval_frames _ _ _ _ _ _ Hcall0) as [F1 _ _ _ _].
  unfold popInputStream. rewrite F1. simpl. repeat split; auto.
Qed.

Lemma Arr_success_witness :
  exists s',
    eval gPair 6 (Arr (Seq [num; num])) pairInput = Ok (true, s') /\
    currentPos s' = currentPos pairInput + 1.
Proof.
  destruct (eval gPair 6 (Arr (Seq [num; num])) pairInput) as [[b s'] | err |] eqn:E;
    [| vm_compute in E; discriminate E | vm_compute in E; discriminate E].
  assert (Hb : b = true).
  { vm_compute in E. injection E as Hb _. symmetry; exact Hb. }
  subst b. exists s'. split; [reflexivity |].
  destruct (Arr_success gPair 5 _ pairInput s' E) as (elems & s2 & _ & _ & _ & _ & _ & Hp & _).
  exact Hp.
Defined.





(** C9: when [reallyEval] returns, with either answer, the application
    stack of every position of the current stream, the one it entered
    included, holds the memo keys it held before, and so does the
    application chain of the state: the [enter] has met its [exit]. *)
Theorem reallyEval_enter_exit_paired g n this top s b s' :
  reallyEval g (eval g n) n this top s = Ok (b, s') ->
  applicationStack (getPosInfo s' (currentPos s)) =
    applicationStack (getPosInfo s (currentPos s)) /\
  (forall p, applicationStack (getPosInfo s' p) = applicationStack (getPosInfo s p)) /\
  applications s' = applications s.
Proof.
  intros H. apply reallyEval_framesX in H; [| apply eval_frames].
  destruct H as [_ _ H3 _ H5].
  assert (Hp : forall p, applicationStack (getPosInfo s' p) = applicationStack (getPosInfo s p)).
  { intros p. destruct (H5 p) as (A & _). exact A. }
  repeat split; auto.
Qed.

Lemma reallyEval_enter_exit_paired_witness :
  exists b s',
    reallyEval gCalc (eval gCalc 20) 20 (app0 "Expr") true
               (initialState (SrcString "1-2-3")) = Ok (b, s') /\
    applicationStack (getPosInfo s' 0) = [].
Proof.
  destruct (reallyEval gCalc (eval gCalc 20) 20 (app0 "Expr") true
              (initialState (SrcString "1-2-3"))) as [[b s'] | err |] eqn:E.
  - exists b, s'. split; [reflexivity |].
    exact (proj1 (reallyEval_enter_exit_paired gCalc 20 _ true _ b s' E)).
  - vm_compute in E. discriminate E.
  - vm_compute in E. discriminate E.
Defined.

(** C10: every evaluation that returns, with either answer, leaves the
    stack of suspended streams as it was and the current stream over the
    same source: each nested stream pushed by [Arr], [Str] or [Obj] has been
    popped again. *)
Theorem nested_streams_popped g n e s b s' :
  eval g n e s = Ok (b, s') ->
  inputStreamStack s' = inputStreamStack s /\
  source (inputStream s') = source (inputStream s).
Proof.
  intros H. apply eval_frames in H. destruct H as [H1 H2 _ _ _]. split; assumption.
Qed.

Lemma nested_streams_popped_witness :
  exists b s',
    eval gPair 6 (Arr (Seq [num; num])) pairInput = Ok (b, s') /\
    inputStreamStack s' = inputStreamStack pairInput /\
    source (inputStream s') = source (inputStream pairInput).
Proof.
  destruct (eval gPair 6 (Arr (Seq [num; num])) pairInput) as [[b s'] | err |] eqn:E.
  - exists b, s'. split; [reflexivity |].
    exact (nested_streams_popped gPair 6 _ pairInput b s' E).
  - vm_compute in E. discriminate E.
  - vm_compute in E. discriminate E.
Defined.

(** * Further properties of the evaluator *)

(** ** The bindings on success *)

(** X1: with consistent arities, nothing bound inside [Arr], [Str] and
    [Obj], a successful [eval] has pushed exactly [arity] nodes on top of the
    bindings that were there. *)
Theorem eval_success_binds_arity g n e s s' :
  wfGrammar true g = true ->
  wfApps true (applications s) = true ->
  wf true e = true ->
  eval g n e s = Ok (true, s') ->
  exists l, bindings s' = (bindings s ++ l)%list /\ List.length l = getArity e.
Proof.
  intros Hg Hw Hwf H. exact (eval_contract true g n Hg e s true s' Hwf Hw H).
Qed.

Lemma eval_success_binds_arity_witness :
  exists s' l,
    eval gCalc 20 (Seq [Apply "Num" []; StringPrim "-"; Apply "Num" []])
         (entered (SrcString "1 - 2") (app0 "Expr")) = Ok (true, s') /\
    bindings s' = l /\ List.length l = 3%nat.
Proof.
  destruct (eval gCalc 20 (Seq [Apply "Num" []; StringPrim "-"; Apply "Num" []])
              (entered (SrcString "1 - 2") (app0 "Expr"))) as [[b s'] | err |] eqn:E;
    [| vm_compute in E; discriminate E | vm_compute in E; discriminate E].
  assert (Hb : b = true).
  { vm_compute in E. injection E as Hb _. symmetry; exact Hb. }
  subst b.
  destruct (eval_success_binds_arity gCalc 20
              (Seq [Apply "Num" []; StringPrim "-"; Apply "Num" []])
              (entered (SrcString "1 - 2") (app0 "Expr")) s' eq_refl eq_refl eq_refl E)
    as (l & Hl & Hlen).
  exists s', l. split; [reflexivity |]. split; [exact Hl | exact Hlen].
Defined.

(** X2: whatever the patterns inside [Arr], [Str] and [Obj] bind, a
    successful [eval] only adds to the bindings: the nodes that were on the
    stack stay where they are, and at least [arity] nodes are pushed. *)
Theorem eval_success_keeps_bindings g n e s s' :
  wfGrammar false g = true ->
  wfApps false (applications s) = true ->
  wf false e = true ->
  eval g n e s = Ok (true, s') ->
  exists l, bindings s' = (bindings s ++ l)%list /\ (getArity e <= List.length l)%nat.
Proof.
  intros Hg Hw Hwf H. exact (eval_contract false g n Hg e s true s' Hwf Hw H).
Qed.

Lemma eval_success_keeps_bindings_witness :
  exists s' l,
    eval gPair 8 (Apply "Pair" []) pairInput = Ok (true, s') /\
    bindings s' = (bindings pairInput ++ l)%list /\ (1 <= List.length l)%nat.
Proof.
  destruct (eval gPair 8 (Apply "Pair" []) pairInput) as [[b s'] | err |] eqn:E;
    [| vm_compute in E; discriminate E | vm_compute in E; discriminate E].
  assert (Hb : b = true).
  { vm_compute in E. injection E as Hb _. symmetry; exact Hb. }
  subst b.
  destruct (eval_success_keeps_bindings gPair 8 (Apply "Pair" []) pairInput s'
              eq_refl eq_refl eq_refl E) as (l & Hl & Hlen).
  exists s', l. split; [reflexivity |]. split; [exact Hl | exact Hlen].
Defined.

(** ** Iteration *)

Lemma spliceLast_row_length (l : list Node) (a : nat) :
  (List.length (snd (spliceLast l a)) <= a)%nat.
Proof.
  unfold spliceLast. simpl. rewrite length_firstn. lia.
Qed.

Lemma pushCols_length_le : forall (cols : list (list Node)) (row : list Node),
  (List.length row <= List.length cols)%nat ->
  List.length (pushCols cols row) = List.length cols.
Proof.
  induction cols as [| c cs IH]; intros [| r rs] H; simpl in *; try reflexivity; try lia.
  rewrite IH; [reflexivity | lia].
Qed.

(** The loop of [Iter._eval] keeps one column per binding of the iterated
    expression and never counts matches down. *)
Lemma iterLoop_columns ev e a mx rounds : forall n cols s n' cols' s',
  List.length cols = a ->
  iterLoop ev e a mx rounds n cols s = Ok (n', cols', s') ->
  List.length cols' = a /\ (n <= n')%nat.
Proof.
  induction rounds as [| r IH]; intros n cols s n' cols' s' Hlen H;
    cbn [iterLoop] in H; [discriminate |].
  destruct (belowMax n mx); [| inv_Ok H; split; [congruence | lia]].
  bind_inv H. destruct a0 as [ans s1].
  destruct ans; [| inv_Ok H; split; [congruence | lia]].
  pose proof (spliceLast_row_length (bindings s1) a) as Hrow.
  destruct (spliceLast (bindings s1) a) as [rest row]. simpl in Hrow.
  apply IH in H; [destruct H; split; [assumption | lia] |].
  rewrite pushCols_length_le; lia.
Qed.

Lemma pushIterNodes_bindings interval cols : forall s,
  bindings (pushIterNodes s cols interval) =
    (bindings s ++ map (fun col => NodeC "_iter" col interval) cols)%list.
Proof.
  unfold pushIterNodes. induction cols as [| c r IH]; simpl; intros s.
  - rewrite app_nil_r. reflexivity.
  - rewrite IH. simpl. rewrite <- app_assoc. reflexivity.
Qed.

(** X3: an [Iter] with [minNumMatches = 0] (a star or an option) never
    answers false: when it returns at all, it has succeeded. *)
Theorem Iter_min_zero_never_fails g n e mx s b s' :
  eval g n (Iter e 0 mx) s = Ok (b, s') -> b = true.
Proof.
  destruct n as [| n]; simpl; [discriminate |]. unfold PExpr_eval. intros H.
  bind_inv H. destruct a as [ans s1]. simpl in Hcall. unfold eval_Iter in Hcall.
  bind_inv Hcall. destruct a as [[k cols] s2]. simpl in Hcall.
  bind_inv Hcall. inv_Ok Hcall. inv_Ok H. reflexivity.
Qed.

Lemma Iter_min_zero_never_fails_witness :
  exists s',
    eval gLex 6 (Iter digit 0 None) (initialState (SrcString "x")) = Ok (true, s') /\
    currentPos s' = 0.
Proof.
  destruct (eval gLex 6 (Iter digit 0 None) (initialState (SrcString "x")))
    as [[b s'] | err |] eqn:E;
    [| vm_compute in E; discriminate E | vm_compute in E; discriminate E].
  pose proof (Iter_min_zero_never_fails gLex 6 digit None _ b s' E) as Hb. subst b.
  exists s'. split; [reflexivity |].
  vm_compute in E. injection E as Hs. rewrite <- Hs. reflexivity.
Defined.

(** X4: a successful [Iter] leaves on top of the bindings one node per
    binding of the iterated expression, each labelled [_iter], all over the
    same interval. *)
Theorem Iter_success_pushes_iter_nodes g n e mn mx s s' :
  eval g (S n) (Iter e mn mx) s = Ok (true, s') ->
  exists rest cols interval,
    bindings s' = (rest ++ map (fun col => NodeC "_iter" col interval) cols)%list /\
    List.length cols = getArity e.
Proof.
  simpl. unfold PExpr_eval. intros H. bind_inv H. destruct a as [ans s1].
  destruct ans; [| discriminate]. inv_Ok H. simpl in Hcall. unfold eval_Iter in Hcall.
  bind_inv Hcall. destruct a as [[k cols] s2].
  apply iterLoop_columns in Hcall0; [| apply repeat_length]. destruct Hcall0 as [Hlen _].
  destruct (k <? mn)%nat; [discriminate |]. bind_inv Hcall. inv_Ok Hcall.
  exists (bindings s2), cols, a. split; [apply pushIterNodes_bindings | exact Hlen].
Qed.

Lemma Iter_success_pushes_iter_nodes_witness :
  exists s' rest cols interval,
    eval gLex 6 (Iter digit 1 None) (initialState (SrcString "42")) = Ok (true, s') /\
    bindings s' = (rest ++ map (fun col => NodeC "_iter" col interval) cols)%list /\
    List.length cols = 1%nat.
Proof.
  destruct (eval gLex 6 (Iter digit 1 None) (initialState (SrcString "42")))
    as [[b s'] | err |] eqn:E;
    [| vm_compute in E; discriminate E | vm_compute in E; discriminate E].
  assert (Hb : b = true).
  { vm_compute in E. injection E as Hb _. symmetry; exact Hb. }
  subst b.
  destruct (Iter_success_pushes_iter_nodes gLex 5 digit 1 None _ s' E)
    as (rest & cols & interval & Hb & Hl).
  exists s', rest, cols, interval. split; [reflexivity |]. split; assumption.
Defined.

(** X5: an [Iter] over an expression of arity 0 cannot succeed once that
    expression has matched: the interval of the result is read from
    [cols[0]], and there are no columns, so the call throws (or, the minimum
    not reached, answers false). *)
Theorem Iter_arity_zero_cannot_match g n e mn mx s s1 :
  getArity e = 0%nat ->
  belowMax 0 mx = true ->
  eval g n e s = Ok (true, s1) ->
  forall s', eval g (S n) (Iter e mn mx) s <> Ok (true, s').
Proof.
  intros Har Hmax He s'. simpl. unfold PExpr_eval. intros H.
  bind_inv H. destruct a as [ans s2]. simpl in Hcall. unfold eval_Iter in Hcall.
  bind_inv Hcall. destruct a as [[k cols] s3]. simpl getArity in *. rewrite Har in *.
  simpl repeat in Hcall0.
  assert (Hk : (1 <= k)%nat /\ cols = []).
  { destruct n as [| m]; [simpl in He; discriminate |].
    cbn [iterLoop] in Hcall0. rewrite Hmax, He in Hcall0. simpl bind in Hcall0.
    destruct (spliceLast (bindings s1) 0) as [rest row].
    apply iterLoop_columns in Hcall0.
    - destruct Hcall0 as [Hl Hn]. split; [exact Hn |].
      destruct cols; [reflexivity | discriminate].
    - pose proof (spliceLast_row_length (bindings s1) 0) as Hr.
      destruct row; reflexivity. }
  destruct Hk as [Hk ->].
  destruct (k <? mn)%nat; [inv_Ok Hcall; discriminate |].
  destruct (Nat.eqb_spec k 0); [lia |]. simpl in Hcall. discriminate.
Qed.

Lemma Iter_arity_zero_cannot_match_witness :
  exists s1,
    eval gLex 5 (Not (StringPrim "a")) (initialState (SrcString "b")) = Ok (true, s1) /\
    forall s',
      eval gLex 6 (Iter (Not (StringPrim "a")) 0 (Some 1%nat))
           (initialState (SrcString "b")) <> Ok (true, s').
Proof.
  destruct (eval gLex 5 (Not (StringPrim "a")) (initialState (SrcString "b")))
    as [[b s1] | err |] eqn:E;
    [| vm_compute in E; discriminate E | vm_compute in E; discriminate E].
  assert (Hb : b = true).
  { vm_compute in E. injection E as Hb _. symmetry; exact Hb. }
  subst b. exists s1. split; [reflexivity |].
  exact (Iter_arity_zero_cannot_match gLex 5 (Not (StringPrim "a")) 0 (Some 1%nat)
           (initialState (SrcString "b")) s1 eq_refl eq_refl E).
Defined.

(** The optional negative lookahead [(~"a")?] on ["b"] throws. *)
Lemma Iter_of_Not_throws :
  eval gLex 6 (Iter (Not (StringPrim "a")) 0 (Some 1%nat)) (initialState (SrcString "b"))
    = Throw (TypeError "interval of undefined").
Proof. vm_compute. reflexivity. Qed.

(** ** Negation and lookahead *)

Lemma eval_Not_inv g n e s b s' :
  eval g (S n) (Not e) s = Ok (b, s') ->
  currentPos s' = currentPos s /\
  exists s1,
    eval g n e (doNotRecordFailures s) = Ok (negb b, s1) /\
    (b = true -> bindings s' = bindings s1).
Proof.
  simpl. unfold PExpr_eval. intros H. bind_inv H. destruct a as [ans s1].
  simpl in Hcall. unfold eval_Not in Hcall. bind_inv Hcall. destruct a as [ans1 s2].
  destruct ans1; inv_Ok Hcall; inv_Ok H.
  - split; [reflexivity |]. eexists. split; [eassumption | discriminate].
  - split; [reflexivity |]. eexists. split; [eassumption | reflexivity].
Qed.

(** X6: [Not(e)] answers the opposite of [e], evaluated with failure
    recording suppressed; whatever the answer, the position is the one before
    the call and, arities being consistent, so are the bindings: a negation
    consumes nothing and binds nothing. *)
Theorem Not_inverts_and_consumes_nothing g n e s b s' :
  wfGrammar false g = true ->
  wfApps false (applications s) = true ->
  wf false e = true ->
  eval g (S n) (Not e) s = Ok (b, s') ->
  (exists s1, eval g n e (doNotRecordFailures s) = Ok (negb b, s1)) /\
  currentPos s' = currentPos s /\
  bindings s' = bindings s.
Proof.
  intros Hg Hw Hwf H. destruct (eval_Not_inv g n e s b s' H) as (Hp & s1 & He & Hb).
  split; [exists s1; exact He |]. split; [exact Hp |].
  destruct b.
  - rewrite (Hb eq_refl). simpl in He.
    exact (eval_contract false g n Hg e (doNotRecordFailures s) false s1 Hwf Hw He).
  - exact (eval_contract false g (S n) Hg (Not e) s false s' Hwf Hw H).
Qed.

Lemma Not_inverts_and_consumes_nothing_witness :
  exists s',
    eval gLex 6 (Not (Apply "num" [])) (entered (SrcString "x1") (app0 "expr"))
      = Ok (true, s') /\
    currentPos s' = 0 /\ bindings s' = [].
Proof.
  destruct (eval gLex 6 (Not (Apply "num" [])) (entered (SrcString "x1") (app0 "expr")))
    as [[b s'] | err |] eqn:E;
    [| vm_compute in E; discriminate E | vm_compute in E; discriminate E].
  assert (Hb : b = true).
  { vm_compute in E. injection E as Hb _. symmetry; exact Hb. }
  subst b. exists s'. split; [reflexivity |].
  destruct (Not_inverts_and_consumes_nothing gLex 5 (Apply "num" [])
              (entered (SrcString "x1") (app0 "expr")) true s'
              eq_refl eq_refl eq_refl E) as (_ & Hp & Hbd).
  split; assumption.
Defined.

(** X7: [Lookahead(e)] answers what [e] answers at the same state and
    keeps, on success, the bindings of [e]; whatever the answer, the position
    is the one before the call. *)
Theorem Lookahead_consumes_nothing g n e s b s' :
  eval g (S n) (Lookahead e) s = Ok (b, s') ->
  currentPos s' = currentPos s /\
  exists s1,
    eval g n e s = Ok (b, s1) /\ (b = true -> bindings s' = bindings s1).
Proof.
  simpl. unfold PExpr_eval. intros H. bind_inv H. destruct a as [ans s1].
  simpl in Hcall. unfold eval_Lookahead in Hcall. bind_inv Hcall. destruct a as [ans1 s2].
  destruct ans1; inv_Ok Hcall; inv_Ok H.
  - split; [reflexivity |]. eexists. split; [eassumption | reflexivity].
  - split; [reflexivity |]. eexists. split; [eassumption | discriminate].
Qed.

Lemma Lookahead_consumes_nothing_witness :
  exists s',
    eval gLex 6 (Lookahead (Apply "num" [])) (entered (SrcString "12") (app0 "expr"))
      = Ok (true, s') /\
    currentPos s' = 0.
Proof.
  destruct (eval gLex 6 (Lookahead (Apply "num" [])) (entered (SrcString "12") (app0 "expr")))
    as [[b s'] | err |] eqn:E;
    [| vm_compute in E; discriminate E | vm_compute in E; discriminate E].
  assert (Hb : b = true).
  { vm_compute in E. injection E as Hb _. symmetry; exact Hb. }
  subst b. exists s'. split; [reflexivity |].
  exact (proj1 (Lookahead_consumes_nothing gLex 5 (Apply "num" []) _ true s' E)).
Defined.

(** X8: a double negation [~~e] answers what [e] answers (evaluated with
    failure recording suppressed twice) and leaves the position where it was;
    unlike [Lookahead(e)] it leaves, arities being consistent, no binding
    even when [e] succeeds. *)
Theorem double_negation g n e s b s' :
  wfGrammar false g = true ->
  wfApps false (applications s) = true ->
  wf false e = true ->
  eval g (S (S n)) (Not (Not e)) s = Ok (b, s') ->
  (exists s1,
      eval g n e (doNotRecordFailures (doNotRecordFailures s)) = Ok (b, s1)) /\
  currentPos s' = currentPos s /\
  bindings s' = bindings s.
Proof.
  intros Hg Hw Hwf H.
  destruct (eval_Not_inv g (S n) (Not e) s b s' H) as (Hp & s2 & He2 & Hb2).
  destruct (eval_Not_inv g n e _ _ s2 He2) as (_ & s1 & He1 & _).
  rewrite Bool.negb_involutive in He1.
  split; [exists s1; exact He1 |]. split; [exact Hp |].
  destruct b.
  - rewrite (Hb2 eq_refl).
    exact (eval_contract false g (S n) Hg (Not e) (doNotRecordFailures s) false s2 Hwf Hw He2).
  - exact (eval_contract false g (S (S n)) Hg (Not (Not e)) s false s' Hwf Hw H).
Qed.

Lemma double_negation_witness :
  exists s',
    eval gLex 7 (Not (Not (Apply "num" []))) (entered (SrcString "12") (app0 "expr"))
      = Ok (true, s') /\
    currentPos s' = 0 /\ bindings s' = [].
Proof.
  destruct (eval gLex 7 (Not (Not (Apply "num" []))) (entered (SrcString "12") (app0 "expr")))
    as [[b s'] | err |] eqn:E;
    [| vm_compute in E; discriminate E | vm_compute in E; discriminate E].
  assert (Hb : b = true).
  { vm_compute in E. injection E as Hb _. symmetry; exact Hb. }
  subst b. exists s'. split; [reflexivity |].
  destruct (double_negation gLex 5 (Apply "num" [])
              (entered (SrcString "12") (app0 "expr")) true s'
              eq_refl eq_refl eq_refl E) as (_ & Hp & Hbd).
  split; assumption.
Defined.

(** ** Sequences and alternations *)

(** X9: [Seq._eval] over a concatenation of factors is [Seq._eval] over the
    first factors followed, when they all matched, by [Seq._eval] over the
    others from the state reached; a failure among the first ends the
    call. *)
Theorem Seq_append g ev fuel fs1 fs2 s :
  _eval g ev fuel (Seq (fs1 ++ fs2)) s =
  bind (_eval g ev fuel (Seq fs1) s)
       (fun r => if fst r then _eval g ev fuel (Seq fs2) (snd r) else Ok (false, snd r)).
Proof.
  simpl. revert s. induction fs1 as [| f r IH]; intros s; simpl.
  - reflexivity.
  - destruct (ev f s) as [[ans s1] | err |]; simpl; [| reflexivity | reflexivity].
    destruct ans; [apply IH | reflexivity].
Qed.

(** X10: [Alt._eval] over a concatenation of alternatives is [Alt._eval]
    over the first ones and, only when they all failed, [Alt._eval] over the
    others from the state the failures left: the choice is ordered. *)
Theorem Alt_append g ev fuel ts1 ts2 s :
  _eval g ev fuel (Alt (ts1 ++ ts2)) s =
  bind (_eval g ev fuel (Alt ts1) s)
       (fun r => if fst r then Ok (true, snd r) else _eval g ev fuel (Alt ts2) (snd r)).
Proof.
  simpl. revert s. induction ts1 as [| t r IH]; intros s; simpl.
  - reflexivity.
  - destruct (ev t s) as [[ans s1] | err |]; simpl; [| reflexivity | reflexivity].
    destruct ans; [reflexivity | apply IH].
Qed.

Lemma truncate_twice s0 p n :
  truncateBindings (setCurrentPos (truncateBindings (setCurrentPos s0 p) n) p) n =
  truncateBindings (setCurrentPos s0 p) n.
Proof.
  unfold truncateBindings, setCurrentPos, setBindings, setInputStream, setPos. simpl.
  rewrite firstn_firstn, Nat.min_id. reflexivity.
Qed.

(** What [eval] answers false with: the position and the length of the
    bindings it was called with. *)
Lemma eval_false_state g n e s s1 :
  eval g n e s = Ok (false, s1) ->
  exists s0, s1 = truncateBindings (setCurrentPos s0 (currentPos s)) (List.length (bindings s)).
Proof.
  destruct n as [| n]; simpl; [discriminate |]. unfold PExpr_eval. intros H.
  bind_inv H. destruct a as [ans s0]. destruct ans; [discriminate |]. inv_Ok H.
  exists s0. reflexivity.
Qed.

(** X11: a sequence of one factor and an alternation of one alternative
    behave as that expression itself: same answer, same final state, same
    exception. *)
Theorem singleton_Seq_Alt g n e s :
  eval g (S (S n)) (Seq [e]) s = eval g (S n) e s /\
  eval g (S (S n)) (Alt [e]) s = eval g (S n) e s.
Proof.
  assert (Hw : forall r : Result Answer,
             r = eval g (S n) e s ->
             bind (bind r (fun x => let '(ans, s1) := x in
                                    if ans then Ok (true, s1) else Ok (false, s1)))
                  (fun x => let '(ans, s1) := x in
                     if ans then Ok (true, s1)
                     else Ok (false, truncateBindings (setCurrentPos s1 (currentPos s))
                                       (List.length (bindings s)))) = r).
  { intros r Hr. destruct r as [[ans s1] | err |]; simpl; try reflexivity.
    destruct ans; simpl; [reflexivity |].
    symmetry in Hr. apply eval_false_state in Hr. destruct Hr as (s0 & ->).
    rewrite truncate_twice. reflexivity. }
  split.
  - change (eval g (S (S n)) (Seq [e]) s)
      with (PExpr_eval g (eval g (S n)) (S n) (Seq [e]) s).
    unfold PExpr_eval. cbn [_eval eval_Seq]. rewrite <- (Hw _ eq_refl) at 2.
    destruct (eval g (S n) e s) as [[ans s1] | err |]; try reflexivity;
      try (destruct ans; reflexivity).
  - change (eval g (S (S n)) (Alt [e]) s)
      with (PExpr_eval g (eval g (S n)) (S n) (Alt [e]) s).
    unfold PExpr_eval. cbn [_eval eval_Alt]. rewrite <- (Hw _ eq_refl) at 2.
    destruct (eval g (S n) e s) as [[ans s1] | err |]; try reflexivity;
      try (destruct ans; reflexivity).
Qed.

(** ** The application stack and the left-recursion frames ([PosInfo]) *)

Lemma indexOf_Some_In k l : isSome (indexOf k l) = true <-> In k l.
Proof.
  induction l as [| x r IH]; simpl.
  - split; [discriminate | contradiction].
  - destruct (String.eqb_spec x k) as [-> | Hne]; simpl.
    + split; auto.
    + destruct (indexOf k r); simpl in *; split; intros H.
      * right. apply IH. reflexivity.
      * reflexivity.
      * discriminate.
      * destruct H as [H | H]; [contradiction | apply IH in H; discriminate].
Qed.

Lemma indexOf_split k : forall l i,
  indexOf k l = Some i ->
  l = (firstn i l ++ k :: skipn (S i) l)%list /\ ~ In k (firstn i l).
Proof.
  induction l as [| x r IH]; simpl; intros i H; [discriminate |].
  destruct (String.eqb_spec x k) as [-> | Hne].
  - inv_Ok H. simpl. split; [reflexivity | tauto].
  - destruct (indexOf k r) as [j |]; simpl in H; [| discriminate]. inv_Ok H.
    destruct (IH j eq_refl) as [Hl Hn]. simpl. split.
    + f_equal. exact Hl.
    + intros [Hx | Hin]; [contradiction | exact (Hn Hin)].
Qed.

Lemma isSome_indexOf_app k x : forall l,
  isSome (indexOf k (l ++ [x])) = isSome (indexOf k l) || String.eqb x k.
Proof.
  induction l as [| y r IH]; simpl.
  - destruct (String.eqb x k); reflexivity.
  - destruct (String.eqb y k); simpl; [reflexivity |].
    destruct (indexOf k (r ++ [x])), (indexOf k r); simpl in *; auto.
Qed.

(** X12: between [enter] and [exit] the application is active at its
    position, and [exit] gives back the application stack [enter] found. *)
Theorem enter_active_exit s p a :
  isActive (getPosInfo (posInfoEnter s p a) p) a = true /\
  applicationStack (getPosInfo (posInfoExit (posInfoEnter s p a) p) p) =
    applicationStack (getPosInfo s p) /\
  (forall b, isActive (getPosInfo (posInfoEnter s p a) p) b =
             isActive (getPosInfo s p) b || sameApplication b a).
Proof.
  assert (Hst : applicationStack (getPosInfo (posInfoEnter s p a) p) =
                (applicationStack (getPosInfo s p) ++ [toMemoKey a])%list).
  { unfold posInfoEnter. rewrite lookup_setPosInfo_same. reflexivity. }
  assert (Hact : forall b, isActive (getPosInfo (posInfoEnter s p a) p) b =
                           isActive (getPosInfo s p) b || sameApplication b a).
  { intros b. unfold isActive. rewrite Hst, isSome_indexOf_app.
    unfold sameApplication. f_equal. apply String.eqb_sym. }
  split; [| split; [| exact Hact]].
  - rewrite Hact. unfold sameApplication. rewrite String.eqb_refl. apply orb_true_r.
  - unfold posInfoExit. rewrite lookup_setPosInfo_same. simpl.
    unfold getPosInfo at 1. simpl. rewrite Z.eqb_refl. simpl. apply removelast_app1.
Qed.

(** X13: the frame [startLeftRecursion] creates becomes the current one,
    over the chain there was, and [endLeftRecursion] returns to that chain.
    When the head is active, the involved applications are exactly the
    entries of the application stack after the first occurrence of the
    head's key; when it is not, they are the whole stack. *)
Theorem startLeftRecursion_frame pi head :
  exists lr,
    currentLeftRecursion (startLeftRecursion pi head) = lr :: currentLeftRecursion pi /\
    headApplication lr = head /\
    currentLeftRecursion (endLeftRecursion (startLeftRecursion pi head))
      = currentLeftRecursion pi /\
    (forall app, isInvolved lr app = true <-> In (toMemoKey app) (involvedApplications lr)) /\
    ((isActive pi head = true /\
      exists before,
        applicationStack pi =
          (before ++ toMemoKey head :: involvedApplications lr)%list /\
        ~ In (toMemoKey head) before) \/
     (isActive pi head = false /\ involvedApplications lr = applicationStack pi)).
Proof.
  eexists. split; [reflexivity |]. split; [reflexivity |]. split; [reflexivity |].
  split; [intros app; apply indexOf_Some_In |].
  unfold isActive. simpl.
  destruct (indexOf (toMemoKey head) (applicationStack pi)) as [i |] eqn:E; simpl.
  - left. split; [reflexivity |]. destruct (indexOf_split _ _ _ E) as [Hl Hn].
    exists (firstn i (applicationStack pi)). split; assumption.
  - right. split; reflexivity.
Qed.

Lemma updateInvolvedLoop_nonempty x rest involved :
  updateInvolvedLoop (x :: rest) involved = inr "toMemoKey is not a function".
Proof. reflexivity. Qed.

(** X14: [updateInvolvedApplications] does nothing when the application
    stack has no entry beyond index [indexOfFirstInvolvedRule]; as soon as
    there is one, its first step raises a [TypeError]: [isInvolved] is handed
    the entry, a memo key, and calls [toMemoKey] on it. *)
Theorem updateInvolvedApplications_behaviour lr stack :
  ((List.length stack <= S (indexOfFirstInvolvedRule lr))%nat /\
   updateInvolvedApplications lr stack = inl (involvedApplications lr)) \/
  ((S (indexOfFirstInvolvedRule lr) < List.length stack)%nat /\
   updateInvolvedApplications lr stack = inr "toMemoKey is not a function").
Proof.
  unfold updateInvolvedApplications.
  destruct (skipn (S (indexOfFirstInvolvedRule lr)) stack) as [| x rest] eqn:E.
  - left. split; [| reflexivity].
    apply (f_equal (@List.length _)) in E. rewrite length_skipn in E. simpl in E. lia.
  - right. split; [| reflexivity].
    apply (f_equal (@List.length _)) in E. rewrite length_skipn in E. simpl in E. lia.
Qed.

(** ** Applications: detection of a left recursion, memoization *)

(** X15: an application that has no memo record at the position reached
    after the spaces and is active there fails at once; it leaves the seed
    record [{pos: -1, value: false}] under its key and a new frame, headed by
    it, on top of the frames of that position; every application involved in
    the frame is active.  The position and the bindings are those the caller
    had. *)
Theorem left_recursion_detected g n r ps s app s1 :
  substituteApp r ps (callerParams s) = Some app ->
  applicationSite g (eval g n) app s = Ok s1 ->
  memo (getCurrentPosInfo s1) (toMemoKey app) = None ->
  isActive (getCurrentPosInfo s1) app = true ->
  exists s' lr,
    eval g (S n) (Apply r ps) s = Ok (false, s') /\
    currentPos s' = currentPos s /\
    bindings s' = firstn (List.length (bindings s)) (bindings s1) /\
    memo (getPosInfo s' (currentPos s1)) (toMemoKey app) = Some seedRec /\
    currentLeftRecursion (getPosInfo s' (currentPos s1))
      = lr :: currentLeftRecursion (getCurrentPosInfo s1) /\
    headApplication lr = app /\
    applicationStack (getPosInfo s' (currentPos s1))
      = applicationStack (getCurrentPosInfo s1) /\
    (forall a, isInvolved lr a = true -> isActive (getCurrentPosInfo s1) a = true).
Proof.
  intros Hsub Hsite Hmemo Hact.
  eexists. eexists. split.
  - simpl. unfold PExpr_eval. simpl. unfold eval_Apply. rewrite Hsub, Hsite. simpl.
    rewrite Hmemo, Hact. simpl. reflexivity.
  - split; [reflexivity |]. split; [reflexivity |].
    unfold getPosInfo at 1 2 3. simpl. rewrite Z.eqb_refl. simpl.
    rewrite String.eqb_refl.
    split; [reflexivity |]. split; [reflexivity |]. split; [reflexivity |].
    split; [reflexivity |].
    intros a Ha. unfold isInvolved in Ha. simpl in Ha. unfold isActive.
    apply indexOf_Some_In in Ha. apply indexOf_Some_In.
    match type of Ha with In _ (skipn ?k ?l) =>
      rewrite <- (firstn_skipn k l); apply in_or_app; right; exact Ha end.
Qed.

Lemma left_recursion_detected_witness :
  exists s' lr,
    eval gLex 1 (Apply "expr" []) firstVisit = Ok (false, s') /\
    currentPos s' = 0 /\
    memo (getPosInfo s' 0) "expr" = Some seedRec /\
    headApplication lr = app0 "expr" /\
    involvedApplications lr = ["sub"].
Proof.
  destruct (left_recursion_detected gLex 0 "expr" [] firstVisit (app0 "expr") firstVisit
              eq_refl eq_refl eq_refl eq_refl)
    as (s' & lr & He & Hp & _ & Hm & Hlr & Hh & _ & _).
  exists s', lr. split; [exact He |]. split; [exact Hp |]. split; [exact Hm |].
  split; [exact Hh |].
  vm_compute in He. inversion He; subst s'. vm_compute in Hlr. inversion Hlr. reflexivity.
Defined.

Lemma frames_memo s s' p k r :
  frames s s' -> memo (getPosInfo s p) k = Some r -> memo (getPosInfo s' p) k = Some r.
Proof.
  intros [_ _ _ _ Ht] Hm. destruct (Ht p) as (_ & Hk & _).
  apply Hk; [discriminate | exact Hm].
Qed.

Lemma memo_commitSeed s p k r : memo (getPosInfo (commitSeed s p k r) p) k = Some r.
Proof.
  unfold commitSeed. rewrite lookup_setPosInfo_same. simpl.
  rewrite String.eqb_refl. reflexivity.
Qed.

(** The record [growSeedResult] holds is the one of the memo table. *)
Lemma growLoop_record ev this body origPos k
  (Hev : forall e s b s', ev e s = Ok (b, s') -> frames s s') rounds :
  forall lr c s lr' c' s',
    growLoop ev this body origPos k rounds lr c s = Ok (lr', c', s') ->
    memo (getPosInfo s origPos) k = Some lr ->
    memo (getPosInfo s' origPos) k = Some lr'.
Proof.
  induction rounds as [| r IH]; simpl; intros lr c s lr' c' s' H Hm; [discriminate |].
  bind_inv H. destruct a as [newValue s1].
  apply (evalOnce_frames ev Hev) in Hcall.
  destruct (currentPos s1 <=? memoPos lr).
  - inv_Ok H. eapply frames_memo; [exact Hcall | exact Hm].
  - eapply IH; [exact H | apply memo_commitSeed].
Qed.

Lemma growSeedResult_record ev rounds this body origPos k seed s v s'
  (Hev : forall e s b s', ev e s = Ok (b, s') -> frames s s') :
  growSeedResult ev rounds this body origPos k (memo (getPosInfo s origPos) k)
                 (Some seed) s = Ok (v, s') ->
  exists r,
    memo (getPosInfo s' origPos) k = Some r /\ v = memoValue r /\ currentPos s' = memoPos r.
Proof.
  unfold growSeedResult. intros H.
  destruct (memo (getPosInfo s origPos) k) as [lr |] eqn:Hm.
  - bind_inv H. destruct a as [[r' c] s1]. inv_Ok H.
    exists r'. split; [| split; reflexivity].
    change (getPosInfo (setCurrentPos s1 (memoPos r')) origPos) with (getPosInfo s1 origPos).
    eapply growLoop_record; eauto.
  - bind_inv H. destruct a. discriminate.
Qed.

(** X16: what [growSeedResult] returns for a seed that matched is what it
    leaves in the memo record of the application: the value of the record,
    with the stream at the position of the record.  [lrMemoRec] is the record
    found under the key, as [reallyEval] passes it. *)
Theorem growSeedResult_returns_record g n this body origPos seed s v s' :
  growSeedResult (eval g n) n this body origPos (toMemoKey this)
                 (memo (getPosInfo s origPos) (toMemoKey this)) (Some seed) s
    = Ok (v, s') ->
  exists r,
    memo (getPosInfo s' origPos) (toMemoKey this) = Some r /\
    v = memoValue r /\ currentPos s' = memoPos r.
Proof.
  apply growSeedResult_record. apply eval_frames.
Qed.

Lemma growSeedResult_returns_record_witness :
  exists v s' r,
    growSeedResult (eval gLex 20) 20 (app0 "expr") calcBody 0 "expr"
                   (memo (getPosInfo afterSeed 0) "expr")
                   (Some (NodeC "expr" [] (mkInterval 0 1))) afterSeed = Ok (v, s') /\
    memo (getPosInfo s' 0) "expr" = Some r /\ v = memoValue r /\ currentPos s' = 3.
Proof.
  destruct (growSeedResult (eval gLex 20) 20 (app0 "expr") calcBody 0
              (toMemoKey (app0 "expr"))
              (memo (getPosInfo afterSeed 0) (toMemoKey (app0 "expr")))
              (Some (NodeC "expr" [] (mkInterval 0 1))) afterSeed)
    as [[v s'] | err |] eqn:E;
    [| vm_compute in E; discriminate E | vm_compute in E; discriminate E].
  destruct (growSeedResult_returns_record gLex 20 (app0 "expr") calcBody 0 _ afterSeed v s' E)
    as (r & Hm & Hv & Hp).
  exists v, s', r. split; [exact E |]. split; [exact Hm |]. split; [exact Hv |].
  vm_compute in E. inversion E. reflexivity.
Defined.

Lemma posInfoExit_keeps s p q :
  memo (getPosInfo (posInfoExit s p) q) = memo (getPosInfo s q) /\
  currentLeftRecursion (getPosInfo (posInfoExit s p) q) = currentLeftRecursion (getPosInfo s q).
Proof.
  unfold posInfoExit. destruct (Z.eq_dec q p) as [-> | Hne].
  - rewrite lookup_setPosInfo_same. split; reflexivity.
  - rewrite lookup_setPosInfo_other by exact Hne. split; reflexivity.
Qed.

Lemma posInfo_after_failure_record s p e q :
  getPosInfo (recordFailure s p e) q = getPosInfo s q.
Proof.
  unfold recordFailure. destruct (ignoreFailuresCount s); [| reflexivity].
  destruct (p <? rightmostFailPos s); [reflexivity |].
  destruct (rightmostFailPos s <? p); reflexivity.
Qed.

Lemma currentPos_recordFailure s p e : currentPos (recordFailure s p e) = currentPos s.
Proof.
  unfold recordFailure. destruct (ignoreFailuresCount s); [| reflexivity].
  destruct (p <? rightmostFailPos s); [reflexivity |].
  destruct (rightmostFailPos s <? p); reflexivity.
Qed.

(** What [settleResult] leaves for a body that matched: the record of the
    result under the key of the application, or nothing new when the
    application is involved in the current left recursion without heading
    it. *)
Lemma settleResult_record ev rounds this body origPos seed s v s'
  (Hev : forall e s b s', ev e s = Ok (b, s') -> frames s s') :
  settleResult ev rounds this body origPos (Some seed) s = Ok (v, s') ->
  memo (getPosInfo s' origPos) (toMemoKey this) = Some (mkMemoRec (currentPos s') v) \/
  (exists lr rest,
      currentLeftRecursion (getPosInfo s' origPos) = lr :: rest /\
      sameApplication this (headApplication lr) = false /\
      isInvolved lr this = true /\
      v = Some seed /\ s' = s).
Proof.
  unfold settleResult. intros H.
  destruct (currentLeftRecursion (getPosInfo s origPos)) as [| lr rest] eqn:Hlr.
  - inv_Ok H. left. apply memo_commitSeed.
  - destruct (sameApplication this (headApplication lr)) eqn:Hhead.
    + bind_inv H. destruct a as [v1 s1]. inv_Ok H.
      apply (growSeedResult_record ev rounds this body origPos _ seed s v s1 Hev) in Hcall.
      destruct Hcall as (r & Hm & Hv & Hp). left.
      rewrite lookup_setPosInfo_same. simpl.
      change (currentPos (setPosInfo s1 origPos (endLeftRecursion (getPosInfo s1 origPos))))
        with (currentPos s1).
      rewrite Hm, Hp, Hv. destruct r; reflexivity.
    + destruct (isInvolved lr this) eqn:Hinv; inv_Ok H.
      * right. exists lr, rest. auto.
      * left. apply memo_commitSeed.
Qed.

(** X17: an application below the top level that [reallyEval] evaluates
    with success ends with its node on top of the bindings and, under its
    key at the position it started from, the record [{pos, value}] of the
    position it ends at and of that node; the one exception is an
    application that the current left recursion of that position involves
    without being its head. *)
Theorem reallyEval_records_result g n this s s' :
  reallyEval g (eval g n) n this false s = Ok (true, s') ->
  exists rest v,
    bindings s' = (rest ++ [v])%list /\
    (memo (getPosInfo s' (currentPos s)) (toMemoKey this)
       = Some (mkMemoRec (currentPos s') (Some v)) \/
     (exists lr frames',
         currentLeftRecursion (getPosInfo s' (currentPos s)) = lr :: frames' /\
         sameApplication this (headApplication lr) = false /\
         isInvolved lr this = true)).
Proof.
  unfold reallyEval. intros H.
  destruct (lookupRule (ruleDict g) (appRule this)) as [body |]; [| discriminate].
  bind_inv H. destruct a as [value0 s3]. bind_inv H. destruct a as [value s4].
  destruct value as [v |]; [| discriminate]. inv_Ok H.
  match goal with
  | |- context [pushBinding ?s6 v] => exists (bindings s6), v
  end.
  split; [reflexivity |].
  destruct value0 as [seed |].
  - pose proof Hcall0 as Hsettle.
    apply (settleResult_record _ _ _ _ _ _ _ _ _ (eval_frames g n)) in Hsettle.
    match goal with
    | |- context [pushBinding (posInfoExit ?s5 _) v] =>
        assert (Hpi : forall q, memo (getPosInfo s5 q) = memo (getPosInfo s4 q) /\
                                currentLeftRecursion (getPosInfo s5 q)
                                  = currentLeftRecursion (getPosInfo s4 q));
        [| assert (Hpos : currentPos s5 = currentPos s4)]
    end.
    { intros q. destruct (isSome (description body)); simpl; split; reflexivity. }
    { destruct (isSome (description body)); reflexivity. }
    change (currentPos (posInfoEnter s (currentPos s) this)) with (currentPos s) in Hsettle.
    change (currentPos (posInfoEnter s (currentPos s) this)) with (currentPos s).
    match goal with
    | |- context [pushBinding (posInfoExit ?s5 ?p) v] =>
        change (getPosInfo (pushBinding (posInfoExit s5 p) v) (currentPos s))
          with (getPosInfo (posInfoExit s5 p) (currentPos s));
        change (currentPos (pushBinding (posInfoExit s5 p) v)) with (currentPos s5);
        destruct (posInfoExit_keeps s5 p (currentPos s)) as [Hm Hl]
    end.
    rewrite Hm, Hl, Hpos. destruct (Hpi (currentPos s)) as [Hm' Hl']. rewrite Hm', Hl'.
    destruct Hsettle as [Hrec | (lr & rest & Hlr & Hhead & Hinv & _ & Hsame)].
    + left. exact Hrec.
    + right. exists lr, rest. subst s4. split; [exact Hlr |]. split; [exact Hhead |].
      exact Hinv.
  - exfalso. unfold settleResult in Hcall0.
    destruct (currentLeftRecursion _) as [| lr rest].
    + discriminate Hcall0.
    + destruct (sameApplication this (headApplication lr)).
      * simpl in Hcall0. discriminate Hcall0.
      * destruct (isInvolved lr this); discriminate Hcall0.
Qed.

Lemma reallyEval_records_result_witness :
  exists s' rest v,
    reallyEval gLex (eval gLex 20) 20 (app0 "num") false (entered input12 (app0 "expr"))
      = Ok (true, s') /\
    bindings s' = (rest ++ [v])%list /\
    memo (getPosInfo s' 0) "num" = Some (mkMemoRec 1 (Some v)).
Proof.
  destruct (reallyEval gLex (eval gLex 20) 20 (app0 "num") false
              (entered input12 (app0 "expr"))) as [[b s'] | err |] eqn:E;
    [| vm_compute in E; discriminate E | vm_compute in E; discriminate E].
  destruct b; [| vm_compute in E; discriminate E].
  destruct (reallyEval_records_result gLex 20 (app0 "num") _ s' E)
    as (rest & v & Hb & [Hm | (lr & fs & Hlr & _)]).
  - exists s', rest, v. split; [reflexivity |]. split; [exact Hb |].
    vm_compute in E. inversion E. subst s'. exact Hm.
  - exfalso. vm_compute in E. inversion E. subst s'. discriminate Hlr.
Defined.



(** ** Terminals, [Lex] and [Param] *)

(** X19: [Range] and [UnicodeChar] are restrictions of [anything]: where
    one of them succeeds, [anything] succeeds from the same state with the
    same final state, the node it binds included. *)
Theorem Range_UnicodeChar_refine_anything g n s s' :
  (forall from to,
      eval g n (Range from to) s = Ok (true, s') -> eval g n anything s = Ok (true, s')) /\
  (forall category,
      eval g n (UnicodeChar category) s = Ok (true, s') ->
      eval g n anything s = Ok (true, s')).
Proof.
  destruct n as [| n]; [split; intros; discriminate |].
  split; [intros from to H | intros category H];
    simpl in *; unfold PExpr_eval in *; simpl in *;
    bind_inv H; destruct a as [ans s1]; destruct ans; [| discriminate | | discriminate];
    inv_Ok H.
  - unfold eval_Range in Hcall. unfold eval_anything.
    destruct (skipSpacesIfInSyntacticContext g (eval g n) s) as [[origPos s1] | err |];
      simpl in *; try discriminate.
    destruct (next (inputStream s1)) as [obj st].
    destruct (inRange from to obj) eqn:Hr; [| discriminate]. inv_Ok Hcall.
    destruct obj as [v |]; [reflexivity | discriminate Hr].
  - unfold eval_UnicodeChar in Hcall. unfold eval_anything.
    destruct (skipSpacesIfInSyntacticContext g (eval g n) s) as [[origPos s1] | err |];
      simpl in *; try discriminate.
    destruct (next (inputStream s1)) as [[v |] st]; [| discriminate].
    destruct (unicodeTest g category v); [| discriminate]. inv_Ok Hcall. reflexivity.
Qed.

Lemma Range_UnicodeChar_refine_anything_witness :
  exists s',
    eval gLex 1 digit (initialState (SrcString "7")) = Ok (true, s') /\
    eval gLex 1 anything (initialState (SrcString "7")) = Ok (true, s').
Proof.
  destruct (eval gLex 1 digit (initialState (SrcString "7"))) as [[b s'] | err |] eqn:E;
    [| vm_compute in E; discriminate E | vm_compute in E; discriminate E].
  destruct b; [| vm_compute in E; discriminate E].
  exists s'. split; [reflexivity |].
  exact (proj1 (Range_UnicodeChar_refine_anything gLex 1 _ s') _ _ E).
Defined.

Lemma inSyntacticContext_Lex s : inSyntacticContext (enterLexicalContext s) = false.
Proof.
  unfold inSyntacticContext, inLexicalContext, enterLexicalContext, currentApplication.
  simpl. destruct (applications s); [reflexivity |].
  rewrite last_last. simpl. apply andb_false_r.
Qed.

(** X20: a string terminal under [Lex] is matched where the stream stands,
    in every context: no space is skipped and no rule is applied, so the
    evaluation returns whatever the grammar, with the answer of
    [matchString]; on success the one node bound spans the input from the
    position before, and the lexical context is closed again. *)
Theorem Lex_terminal_skips_no_space g n str s :
  exists s',
    eval g (S (S n)) (Lex (StringPrim str)) s
      = Ok (fst (matchString (inputStream s) str), s') /\
    inLexicalContextStack s' = inLexicalContextStack s /\
    if fst (matchString (inputStream s) str)
    then currentPos s' = pos (snd (matchString (inputStream s) str)) /\
         bindings s' =
           (bindings s ++
              [TerminalNode (VPrim (PStr str))
                 (mkInterval (currentPos s)
                    (pos (snd (matchString (inputStream s) str))))])%list
    else currentPos s' = currentPos s /\ bindings s' = bindings s.
Proof.
  simpl. unfold PExpr_eval. simpl. unfold eval_Lex. simpl. unfold PExpr_eval. simpl.
  unfold eval_Prim, skipSpacesIfInSyntacticContext. rewrite inSyntacticContext_Lex. simpl.
  destruct (matchString (inputStream s) str) as [[|] st] eqn:Em; simpl.
  - eexists. split; [reflexivity |]. simpl.
    split; [apply removelast_app1 |]. split; reflexivity.
  - eexists. split; [reflexivity |]. simpl.
    split.
    { destruct (sameCore_recordFailure (setInputStream (enterLexicalContext s) st)
                  (currentPos (enterLexicalContext s)) (StringPrim str))
        as (_ & _ & _ & Hlex & _).
      rewrite Hlex. apply removelast_app1. }
    split; [reflexivity |].
    rewrite bindings_recordFailure. simpl.
    rewrite firstn_firstn, Nat.min_id. apply firstn_all.
Qed.

(** [eval] over a result of [eval] from the same state changes nothing. *)
Lemma eval_wrapper_idempotent g n e s :
  bind (eval g n e s)
       (fun x => let '(ans, s1) := x in
          if ans then Ok (true, s1)
          else Ok (false, truncateBindings (setCurrentPos s1 (currentPos s))
                            (List.length (bindings s))))
  = eval g n e s.
Proof.
  destruct (eval g n e s) as [[ans s1] | err |] eqn:E; simpl; try reflexivity.
  destruct ans; [reflexivity |].
  apply eval_false_state in E. destruct E as (s0 & ->).
  rewrite truncate_twice. reflexivity.
Qed.

(** X21: a parameter stands for the argument of the current application
    at its index: it evaluates as that argument does, with a [TypeError]
    when there is no current application or no argument at the index. *)
Theorem Param_is_argument g n i s :
  eval g (S n) (Param i) s =
    match currentApplication s with
    | None => Throw (TypeError "params of undefined")
    | Some a =>
        match nth_error (appParams a) i with
        | None => Throw (TypeError "eval of undefined")
        | Some p => eval g n p s
        end
    end.
Proof.
  change (eval g (S n) (Param i) s) with (PExpr_eval g (eval g n) n (Param i) s).
  unfold PExpr_eval. cbn [_eval]. unfold eval_Param.
  destruct (currentApplication s) as [a |]; [| reflexivity].
  destruct (nth_error (appParams a) i) as [p |]; [| reflexivity].
  apply eval_wrapper_idempotent.
Qed.

(** ** Nested streams: [Str] and [Obj] *)

(** X22: a successful [Str(e)] has read exactly one atom of the outer
    stream, a string; [e] succeeded on the nested stream over that string,
    and [end], evaluated after it on the same stream, succeeded too, leaving
    the nested stream at the end of the string; the node [end] bound is
    popped, and the outer stream stands one atom further. *)
Theorem Str_success g n e s s' :
  eval g (S n) (Str e) s = Ok (true, s') ->
  exists str s2 s3,
    atomAt (inputStream s) (currentPos s) = VPrim (PStr str) /\
    atEnd (inputStream s) = false /\
    eval g n e (pushInputStream (setCurrentPos s (currentPos s + 1))
                                (mkStream (SrcString str) 0)) = Ok (true, s2) /\
    eval g n end_ s2 = Ok (true, s3) /\
    source (inputStream s3) = SrcString str /\
    atEnd (inputStream s3) = true /\
    bindings s' = removelast (bindings s3) /\
    currentPos s' = currentPos s + 1 /\
    inputStreamStack s' = inputStreamStack s.
Proof.
  simpl. unfold PExpr_eval. intros H. bind_inv H. destruct a as [ans s1].
  destruct ans; [| discriminate]. inv_Ok H. simpl in Hcall. unfold eval_Str in Hcall.
  destruct (next (inputStream s)) as [o st] eqn:E.
  destruct o as [[[| | | | str] | elems | ps] |]; try discriminate.
  bind_inv Hcall. destruct a as [a s2]. bind_inv Hcall. destruct a0 as [ans s3].
  destruct ans; [| discriminate]. inv_Ok Hcall.
  destruct a; [| discriminate].
  destruct (next_some _ _ _ E) as [-> Hv].
  assert (Hne : atEnd (inputStream s) = false).
  { unfold next in E. destruct (atEnd (inputStream s)); [discriminate | reflexivity]. }
  exists str, s2, s3.
  pose proof (eval_frames _ _ _ _ _ _ Hcall0) as [F1 F2 _ _ _].
  pose proof (eval_frames _ _ _ _ _ _ Hcall1) as [G1 G2 _ _ _].
  pose proof (eval_end_success _ _ _ _ Hcall1) as Hend.
  unfold popInputStream. simpl. rewrite G1, F1. simpl.
  repeat split; auto. rewrite G2, F2. reflexivity.
Qed.

Lemma Str_success_witness :
  exists s',
    eval gLex 5 (Str (Iter digit 1 None)) (initialState (SrcList [VPrim (PStr "42")]))
      = Ok (true, s') /\
    currentPos s' = 1.
Proof.
  destruct (eval gLex 5 (Str (Iter digit 1 None))
              (initialState (SrcList [VPrim (PStr "42")]))) as [[b s'] | err |] eqn:E;
    [| vm_compute in E; discriminate E | vm_compute in E; discriminate E].
  destruct b; [| vm_compute in E; discriminate E].
  exists s'. split; [reflexivity |].
  destruct (Str_success gLex 4 _ _ s' E) as (str & s2 & s3 & _ & _ & _ & _ & _ & _ & _ & Hp & _).
  exact Hp.
Defined.

Lemma indexOfProperty_none properties p : indexOfProperty properties p = -1.
Proof.
  induction properties as [| x r IH]; [reflexivity |].
  simpl. unfold propertyStrictEqName. rewrite IH. reflexivity.
Qed.

Lemma lookupProp_setProp r p v q :
  lookupProp (setProp r p v) q = if String.eqb p q then Some v else lookupProp r q.
Proof.
  induction r as [| [n x] r IH]; simpl.
  - reflexivity.
  - destruct (String.eqb_spec n p) as [-> | Hne]; simpl.
    + destruct (String.eqb p q); reflexivity.
    + rewrite IH. destruct (String.eqb_spec n q) as [-> | Hq]; [| reflexivity].
      destruct (String.eqb_spec p q) as [-> | _]; [contradiction | reflexivity].
Qed.

Lemma lookupProp_In ps name : In name (map fst ps) -> isSome (lookupProp ps name) = true.
Proof.
  induction ps as [| [n v] r IH]; simpl; [contradiction |].
  intros [-> | Hin]; [rewrite String.eqb_refl; reflexivity |].
  destruct (String.eqb n name); [reflexivity | auto].
Qed.

Lemma lookupProp_Some_In ps name v : lookupProp ps name = Some v -> In name (map fst ps).
Proof.
  induction ps as [| [n x] r IH]; simpl; [discriminate |].
  destruct (String.eqb_spec n name) as [-> | Hne]; auto.
Qed.

(** The remainder of a lenient object pattern holds every key the loop
    visits, with the value the object has for it, and nothing else. *)
Lemma remainderLoop_lookup obj properties p : forall keys remainder,
  (forall k, In k keys -> hasOwnProperty obj k = true) ->
  lookupProp (remainderLoop obj properties keys remainder) p =
    if existsb (String.eqb p) keys then Some (getProperty obj p)
    else lookupProp remainder p.
Proof.
  induction keys as [| k r IH]; intros remainder Hown; [reflexivity |].
  simpl. rewrite (Hown k (or_introl eq_refl)), indexOfProperty_none. simpl.
  rewrite IH by (intros k' Hk'; apply Hown; right; exact Hk').
  rewrite lookupProp_setProp, (String.eqb_sym p k).
  destruct (existsb (String.eqb p) r); [rewrite orb_true_r; reflexivity |].
  rewrite orb_false_r.
  destruct (String.eqb_spec k p) as [-> | _]; reflexivity.
Qed.

(** The loop over the property patterns: every property is one the object
    has, every pattern matched its value, and the outer stream is where it
    was. *)
Lemma objLoop_matched g n obj : forall ps k s m s',
  objLoop (eval g n) obj ps k s = Ok (Some m, s') ->
  m = (k + List.length ps)%nat /\
  inputStream s' = inputStream s /\
  Forall (fun p => hasOwnProperty obj (fst p) = true) ps.
Proof.
  induction ps as [| [name pattern] rest IH]; simpl; intros k s m s' H.
  - inv_Ok H. repeat split; auto.
  - destruct (hasOwnProperty obj name) eqn:Hown; simpl in H; [| discriminate].
    bind_inv H. destruct a as [a s2].
    destruct (a && atEnd (inputStream s2)); [| discriminate].
    apply IH in H. destruct H as (Hm & Hst & Hall).
    pose proof (eval_frames _ _ _ _ _ _ Hcall) as [F1 _ _ _ _].
    split; [lia |]. split.
    + rewrite Hst. unfold popInputStream. rewrite F1. reflexivity.
    + constructor; [exact Hown | exact Hall].
Qed.

(** X23: a successful [Obj] pattern has read one atom of the stream, an
    object or an array, that has every property the pattern names, and the
    stream stands one atom further.  A strict pattern names as many
    properties as the object has.  A lenient pattern binds last a node for
    the remainder, spanning that atom, and the remainder holds every
    enumerable property of the object with its value, those the pattern
    names included, and nothing else. *)
Theorem Obj_success g n ps len s s' :
  eval g (S n) (Obj ps len) s = Ok (true, s') ->
  exists obj,
    obj = atomAt (inputStream s) (currentPos s) /\
    atEnd (inputStream s) = false /\
    isObjectLike obj = true /\
    Forall (fun p => hasOwnProperty obj (fst p) = true) ps /\
    currentPos s' = currentPos s + 1 /\
    if len then
      exists rest remainder,
        bindings s' =
          (rest ++ [TerminalNode (VObj remainder)
                      (mkInterval (currentPos s) (currentPos s + 1))])%list /\
        forall p,
          lookupProp remainder p =
            if existsb (String.eqb p) (map fst (ownProperties obj))
            then Some (getProperty obj p) else None
    else List.length ps = List.length (ownProperties obj).
Proof.
  simpl. unfold PExpr_eval. intros H. bind_inv H. destruct a as [ans s1].
  destruct ans; [| discriminate]. inv_Ok H. simpl in Hcall. unfold eval_Obj in Hcall.
  destruct (next (inputStream s)) as [o st] eqn:E.
  destruct o as [obj |]; [| discriminate].
  destruct (isObjectLike obj) eqn:Hobj; [| discriminate].
  bind_inv Hcall. destruct a as [r s1]. destruct r as [m |]; [| discriminate].
  apply objLoop_matched in Hcall0. destruct Hcall0 as (Hm & Hst & Hall). simpl in Hst.
  destruct (next_some _ _ _ E) as [-> Hv].
  assert (Hne : atEnd (inputStream s) = false).
  { unfold next in E. destruct (atEnd (inputStream s)); [discriminate | reflexivity]. }
  exists obj. split; [exact Hv |]. split; [exact Hne |]. split; [exact Hobj |].
  split; [exact Hall |].
  destruct len.
  - injection Hcall as Hs'. subst s'.
    change (currentPos (pushBinding s1
              (TerminalNode (VObj (remainderLoop obj ps (map fst (ownProperties obj)) []))
                 (intervalFrom (inputStream s1) (currentPos s)))))
      with (pos (inputStream s1)).
    rewrite Hst. simpl.
    split; [reflexivity |].
    eexists. eexists. split.
    + unfold intervalFrom. try rewrite Hst. reflexivity.
    + intros p. rewrite remainderLoop_lookup; [reflexivity |].
      intros k Hk. unfold hasOwnProperty. rewrite lookupProp_In by exact Hk. reflexivity.
  - injection Hcall as Hb Hs'. subst s'.
    change (currentPos s1) with (pos (inputStream s1)). rewrite Hst. simpl.
    split; [reflexivity |].
    apply Nat.eqb_eq in Hb. simpl in Hm. congruence.
Qed.

Lemma Obj_success_witness :
  exists s' rest remainder,
    eval gRec 8 recPattern recInput = Ok (true, s') /\
    currentPos s' = 1 /\
    bindings s' = (rest ++ [TerminalNode (VObj remainder) (mkInterval 0 1)])%list /\
    lookupProp remainder "name" = Some (VPrim (PStr "a")).
Proof.
  destruct (eval gRec 8 recPattern recInput) as [[b s'] | err |] eqn:E;
    [| vm_compute in E; discriminate E | vm_compute in E; discriminate E].
  destruct b; [| vm_compute in E; discriminate E].
  destruct (Obj_success gRec 7 _ true recInput s' E)
    as (obj & Hobj & _ & _ & _ & Hp & rest & remainder & Hb & Hr).
  exists s', rest, remainder. split; [reflexivity |]. split; [exact Hp |].
  split; [exact Hb |]. rewrite Hr, Hobj. reflexivity.
Defined.

(** ** Suppression of failures: [Not] and rules with a description *)

Lemma quiet_refl s : quiet s s.
Proof. split; auto. Qed.

Lemma quiet_trans a b c : quiet a b -> quiet b c -> quiet a c.
Proof.
  intros [H1 H2] [G1 G2]. split; [congruence |].
  intros Hpos. destruct (H2 Hpos) as [R F].
  destruct G2 as [R' F']; [rewrite H1; exact Hpos |]. split; congruence.
Qed.

Lemma sameFailures_quiet s s' : sameFailures s s' -> quiet s s'.
Proof. intros (H1 & H2 & H3). split; auto. Qed.

Lemma quiet_step s s1 s2 : quiet s s1 -> sameFailures s1 s2 -> quiet s s2.
Proof. intros H G. eapply quiet_trans; [exact H | apply sameFailures_quiet, G]. Qed.

Lemma quiet_from s0 s s' : sameFailures s s0 -> quiet s0 s' -> quiet s s'.
Proof. intros G H. eapply quiet_trans; [apply sameFailures_quiet, G | exact H]. Qed.

Lemma sameFailures_popInputStream s : sameFailures s (popInputStream s).
Proof.
  unfold popInputStream. destruct (inputStreamStack s) as [| [st t] r]; repeat split.
Qed.

Lemma q_recordFailure s s' p e : quiet s s' -> quiet s (recordFailure s' p e).
Proof.
  intros H. eapply quiet_trans; [exact H |]. unfold recordFailure.
  destruct (ignoreFailuresCount s') eqn:E; [| apply quiet_refl].
  destruct (p <? rightmostFailPos s'); [apply quiet_refl |].
  destruct (rightmostFailPos s' <? p); split; simpl; auto; rewrite E; lia.
Qed.

Lemma q_popInputStream s s' : quiet s s' -> quiet s (popInputStream s').
Proof. intros H. eapply quiet_step; [exact H | apply sameFailures_popInputStream]. Qed.

(** What is evaluated between [doNotRecordFailures] and [doRecordFailures]
    leaves the record of failures alone. *)
Lemma suppressed_bracket s s1 :
  quiet (doNotRecordFailures s) s1 -> sameFailures s (doRecordFailures s1).
Proof.
  intros [H1 H2]. simpl in *. destruct H2 as [R F]; [lia |].
  repeat split; simpl; auto. rewrite H1. reflexivity.
Qed.

(** Peels the steps that do not touch the record of failures off the final
    state. *)
Ltac qstep :=
  first
    [ assumption
    | apply quiet_refl
    | apply q_recordFailure
    | apply q_popInputStream
    | match goal with
      | |- quiet ?s (pushBinding ?s' _) => apply (quiet_step s s')
      | |- quiet ?s (popBinding ?s') => apply (quiet_step s s')
      | |- quiet ?s (truncateBindings ?s' _) => apply (quiet_step s s')
      | |- quiet ?s (setBindings ?s' _) => apply (quiet_step s s')
      | |- quiet ?s (setCurrentPos ?s' _) => apply (quiet_step s s')
      | |- quiet ?s (setInputStream ?s' _) => apply (quiet_step s s')
      | |- quiet ?s (setPosInfo ?s' _ _) => apply (quiet_step s s')
      | |- quiet ?s (commitSeed ?s' _ _ _) => apply (quiet_step s s')
      | |- quiet ?s (exitLexicalContext ?s') => apply (quiet_step s s')
      | |- quiet ?s (posInfoExit ?s' _) => apply (quiet_step s s')
      end; [| repeat split ] ].

Ltac qpeel := repeat qstep.

Section QuietEval.

Variable g : Grammar.
Variable ev : PExpr -> State -> Result Answer.
Variable fuel : nat.
Hypothesis Hev : forall e s b s', ev e s = Ok (b, s') -> quiet s s'.

Lemma skipSpaces_quiet s s' : skipSpaces g ev s = Ok s' -> quiet s s'.
Proof.
  unfold skipSpaces. intros H. bind_inv H. destruct a as [ans s1]. inv_Ok H.
  apply Hev in Hcall. destruct ans; qpeel.
Qed.

Lemma skipSpacesIf_quiet s p s' :
  skipSpacesIfInSyntacticContext g ev s = Ok (p, s') -> quiet s s'.
Proof.
  unfold skipSpacesIfInSyntacticContext. destruct (inSyntacticContext s); intros H.
  - bind_inv H. inv_Ok H. eapply skipSpaces_quiet; eauto.
  - inv_Ok H. apply quiet_refl.
Qed.

Ltac open_skip_quiet H :=
  bind_inv H;
  match goal with
  | a : (Z * State)%type |- _ =>
      let p := fresh "origPos" in let s1 := fresh "s1" in
      destruct a as [p s1];
      match goal with
      | Hc : skipSpacesIfInSyntacticContext _ _ _ = Ok _ |- _ =>
          apply skipSpacesIf_quiet in Hc
      end
  end.

Lemma eval_anything_quiet s b s' : eval_anything g ev s = Ok (b, s') -> quiet s s'.
Proof.
  unfold eval_anything. intros H. open_skip_quiet H.
  destruct (next (inputStream s1)) as [[v |] st]; inv_Ok H; qpeel.
Qed.

Lemma eval_end_quiet s b s' : eval_end g ev s = Ok (b, s') -> quiet s s'.
Proof.
  unfold eval_end. intros H. open_skip_quiet H.
  destruct (atEnd (inputStream s1)); inv_Ok H; qpeel.
Qed.

Lemma eval_Prim_quiet this obj matcher s b s' :
  eval_Prim g ev this obj matcher s = Ok (b, s') -> quiet s s'.
Proof.
  unfold eval_Prim. intros H. open_skip_quiet H.
  destruct (matcher (inputStream s1)) as [[|] st]; inv_Ok H; qpeel.
Qed.

Lemma eval_Range_quiet from to s b s' :
  eval_Range g ev from to s = Ok (b, s') -> quiet s s'.
Proof.
  unfold eval_Range. intros H. open_skip_quiet H.
  destruct (next (inputStream s1)) as [o st].
  destruct (inRange from to o); inv_Ok H; qpeel.
Qed.

Lemma eval_UnicodeChar_quiet c s b s' :
  eval_UnicodeChar g ev c s = Ok (b, s') -> quiet s s'.
Proof.
  unfold eval_UnicodeChar. intros H. open_skip_quiet H.
  destruct (next (inputStream s1)) as [[v |] st];
    [destruct (unicodeTest g c v) |]; inv_Ok H; qpeel.
Qed.

Lemma eval_Param_quiet i s b s' : eval_Param ev i s = Ok (b, s') -> quiet s s'.
Proof.
  unfold eval_Param. destruct (currentApplication s); [| discriminate].
  destruct (nth_error (appParams a) i); [| discriminate]. apply Hev.
Qed.

Lemma eval_Lex_quiet e s b s' : eval_Lex ev e s = Ok (b, s') -> quiet s s'.
Proof.
  unfold eval_Lex. intros H. bind_inv H. destruct a as [ans s1]. inv_Ok H.
  apply Hev in Hcall. apply (quiet_from (enterLexicalContext s)); [repeat split |].
  qpeel.
Qed.

Lemma eval_Alt_quiet ts : forall s b s', eval_Alt ev ts s = Ok (b, s') -> quiet s s'.
Proof.
  induction ts as [| t r IH]; simpl; intros s b s' H.
  - inv_Ok H. apply quiet_refl.
  - bind_inv H. destruct a as [ans s1]. apply Hev in Hcall. destruct ans.
    + inv_Ok H. exact Hcall.
    + eapply quiet_trans; [exact Hcall | eapply IH; eauto].
Qed.

Lemma eval_Seq_quiet fs : forall s b s', eval_Seq ev fs s = Ok (b, s') -> quiet s s'.
Proof.
  induction fs as [| t r IH]; simpl; intros s b s' H.
  - inv_Ok H. apply quiet_refl.
  - bind_inv H. destruct a as [ans s1]. apply Hev in Hcall. destruct ans.
    + eapply quiet_trans; [exact Hcall | eapply IH; eauto].
    + inv_Ok H. exact Hcall.
Qed.

Lemma iterLoop_quiet e arity mx rounds : forall n cols s n' cols' s',
  iterLoop ev e arity mx rounds n cols s = Ok (n', cols', s') -> quiet s s'.
Proof.
  induction rounds as [| r IH]; intros n cols s n' cols' s' H; cbn [iterLoop] in H;
    [discriminate |].
  destruct (belowMax n mx).
  - bind_inv H. destruct a as [ans s1]. apply Hev in Hcall. destruct ans.
    + destruct (spliceLast (bindings s1) arity) as [rest row].
      apply IH in H. eapply quiet_trans; [| exact H]. qpeel.
    + inv_Ok H. exact Hcall.
  - inv_Ok H. apply quiet_refl.
Qed.

Lemma pushIterNodes_sameFailures cols interval : forall s,
  sameFailures s (pushIterNodes s cols interval).
Proof.
  unfold pushIterNodes. induction cols as [| c r IH]; simpl; intros s.
  - repeat split.
  - destruct (IH (pushBinding s (NodeC "_iter" c interval))) as (H1 & H2 & H3).
    repeat split; assumption.
Qed.

Lemma eval_Iter_quiet e mn mx s b s' :
  eval_Iter ev fuel e mn mx s = Ok (b, s') -> quiet s s'.
Proof.
  unfold eval_Iter. intros H. bind_inv H. destruct a as [[n cols] s1].
  apply iterLoop_quiet in Hcall.
  destruct (n <? mn)%nat; [inv_Ok H; exact Hcall |].
  bind_inv H. inv_Ok H.
  eapply quiet_step; [exact Hcall | apply pushIterNodes_sameFailures].
Qed.

Lemma eval_Not_quiet e s b s' : eval_Not ev e s = Ok (b, s') -> quiet s s'.
Proof.
  unfold eval_Not. intros H. bind_inv H. destruct a as [ans s1].
  apply Hev, suppressed_bracket, sameFailures_quiet in Hcall.
  destruct ans; inv_Ok H; qpeel.
Qed.

Lemma eval_Lookahead_quiet e s b s' : eval_Lookahead ev e s = Ok (b, s') -> quiet s s'.
Proof.
  unfold eval_Lookahead. intros H. bind_inv H. destruct a as [ans s1].
  apply Hev in Hcall. destruct ans; inv_Ok H; qpeel.
Qed.

Lemma eval_Arr_quiet e s b s' : eval_Arr ev e s = Ok (b, s') -> quiet s s'.
Proof.
  unfold eval_Arr. intros H.
  destruct (next (inputStream s)) as [o st].
  destruct o as [[p | elems | ps] |]; try (inv_Ok H; qpeel).
  bind_inv H. destruct a as [a s2]. inv_Ok H. apply Hev in Hcall.
  apply q_popInputStream. eapply quiet_from; [| exact Hcall]. repeat split.
Qed.

Lemma eval_Str_quiet e s b s' : eval_Str ev e s = Ok (b, s') -> quiet s s'.
Proof.
  unfold eval_Str. intros H.
  destruct (next (inputStream s)) as [o st].
  destruct o as [[[| | | | str] | elems | ps] |]; try (inv_Ok H; qpeel).
  bind_inv H. destruct a as [a s2]. bind_inv H. destruct a0 as [ans s3]. inv_Ok H.
  apply Hev in Hcall.
  assert (Hq : quiet s s2) by (eapply quiet_from; [| exact Hcall]; repeat split).
  assert (Hq3 : quiet s s3).
  { destruct a; [| inv_Ok Hcall0; exact Hq].
    apply Hev in Hcall0. eapply quiet_trans; eauto. }
  destruct b; qpeel.
Qed.

Lemma objLoop_quiet obj ps : forall n s r s',
  objLoop ev obj ps n s = Ok (r, s') -> quiet s s'.
Proof.
  induction ps as [| [name pattern] rest IH]; simpl; intros n s r s' H.
  - inv_Ok H. apply quiet_refl.
  - destruct (hasOwnProperty obj name); simpl in H; [| inv_Ok H; apply quiet_refl].
    bind_inv H. destruct a as [a s2]. apply Hev in Hcall.
    assert (Hq : quiet s (popInputStream s2)).
    { apply q_popInputStream. eapply quiet_from; [| exact Hcall]. repeat split. }
    destruct (a && atEnd (inputStream s2)).
    + eapply quiet_trans; [exact Hq | eapply IH; eauto].
    + inv_Ok H. exact Hq.
Qed.

Lemma eval_Obj_quiet ps len s b s' : eval_Obj ev ps len s = Ok (b, s') -> quiet s s'.
Proof.
  unfold eval_Obj. intros H.
  destruct (next (inputStream s)) as [o st].
  destruct o as [obj |]; [| inv_Ok H; qpeel].
  destruct (isObjectLike obj); [| inv_Ok H; qpeel].
  bind_inv H. destruct a as [r s1]. apply objLoop_quiet in Hcall.
  assert (Hq : quiet s s1) by (eapply quiet_from; [| exact Hcall]; repeat split).
  destruct r as [n |]; [destruct len |]; inv_Ok H; qpeel.
Qed.

Lemma evalOnce_quiet this e s v s' : evalOnce ev this e s = Ok (v, s') -> quiet s s'.
Proof.
  unfold evalOnce. intros H. bind_inv H. destruct a as [ans s1]. apply Hev in Hcall.
  destruct ans; [| inv_Ok H; exact Hcall].
  destruct (spliceLast (bindings s1) (getArity e)) as [rest row]. inv_Ok H. qpeel.
Qed.

Lemma growLoop_quiet this body origPos k rounds : forall lr c s lr' c' s',
  growLoop ev this body origPos k rounds lr c s = Ok (lr', c', s') -> quiet s s'.
Proof.
  induction rounds as [| r IH]; simpl; intros lr c s lr' c' s' H; [discriminate |].
  bind_inv H. destruct a as [newValue s1]. apply evalOnce_quiet in Hcall.
  assert (Hq : quiet s s1) by (eapply quiet_from; [| exact Hcall]; repeat split).
  destruct (currentPos s1 <=? memoPos lr).
  - inv_Ok H. exact Hq.
  - apply IH in H. eapply quiet_trans; [exact Hq |].
    eapply quiet_from; [| exact H]. repeat split.
Qed.

Lemma growSeedResult_quiet this body origPos k lr seed s v s' :
  growSeedResult ev fuel this body origPos k lr seed s = Ok (v, s') -> quiet s s'.
Proof.
  unfold growSeedResult. intros H. destruct seed; [| inv_Ok H; apply quiet_refl].
  destruct lr as [r |].
  - bind_inv H. destruct a as [[r' c] s1]. inv_Ok H.
    apply growLoop_quiet in Hcall. qpeel.
  - bind_inv H. destruct a. discriminate.
Qed.

Lemma settleResult_quiet this body origPos value s v s' :
  settleResult ev fuel this body origPos value s = Ok (v, s') -> quiet s s'.
Proof.
  unfold settleResult. intros H.
  destruct (currentLeftRecursion (getPosInfo s origPos)) as [| lr rest].
  - inv_Ok H. qpeel.
  - destruct (sameApplication this (headApplication lr)).
    + bind_inv H. destruct a as [v1 s1]. inv_Ok H.
      apply growSeedResult_quiet in Hcall. qpeel.
    + destruct (isInvolved lr this); inv_Ok H; qpeel.
Qed.

Lemma applicationSite_quiet app s s' : applicationSite g ev app s = Ok s' -> quiet s s'.
Proof.
  unfold applicationSite.
  destruct (negb (sameApplication app (applySpaces_ g))
            && (inSyntacticContext s || isSyntactic app)); intros H.
  - eapply skipSpaces_quiet; eauto.
  - inv_Ok H. apply quiet_refl.
Qed.

(** The body of a rule, as [reallyEval] brackets it. *)
Lemma reallyEval_body_quiet this body origPos s s3 s4 value0 value :
  evalOnce ev this (ruleExpr body)
           (if isSome (description body)
            then doNotRecordFailures (posInfoEnter s origPos this)
            else posInfoEnter s origPos this) = Ok (value0, s3) ->
  settleResult ev fuel this (ruleExpr body) origPos value0 s3 = Ok (value, s4) ->
  if isSome (description body) then sameFailures s (doRecordFailures s4)
  else quiet s s4.
Proof.
  intros H1 H2. apply evalOnce_quiet in H1. apply settleResult_quiet in H2.
  pose proof (quiet_trans _ _ _ H1 H2) as Hq.
  destruct (isSome (description body)).
  - apply suppressed_bracket in Hq. destruct Hq as (A & B & C). repeat split; assumption.
  - eapply quiet_from; [| exact Hq]. repeat split.
Qed.

Lemma reallyEval_quiet this top s b s' :
  reallyEval g ev fuel this top s = Ok (b, s') -> quiet s s'.
Proof.
  unfold reallyEval. intros H.
  destruct (lookupRule (ruleDict g) (appRule this)) as [body |]; [| discriminate].
  bind_inv H. destruct a as [value0 s3]. bind_inv H. destruct a as [value s4].
  pose proof (reallyEval_body_quiet _ _ _ _ _ _ _ _ Hcall Hcall0) as Hb.
  match type of H with
  | context [posInfoExit ?s5 _] => assert (Hq : quiet s s5)
  end.
  { destruct (isSome (description body)); [| exact Hb].
    apply sameFailures_quiet in Hb. destruct (isSome value); qpeel. }
  destruct value as [v |]; [| inv_Ok H; qpeel].
  destruct top; [| inv_Ok H; qpeel].
  bind_inv H. bind_inv H. destruct a0 as [ans s9]. apply Hev in Hcall2.
  assert (Hq8 : quiet s a).
  { destruct (isSyntactic this).
    - apply skipSpaces_quiet in Hcall1. eapply quiet_trans; [| exact Hcall1]. qpeel.
    - inv_Ok Hcall1. qpeel. }
  pose proof (quiet_trans _ _ _ Hq8 Hcall2) as Hq9.
  destruct ans; inv_Ok H; qpeel.
Qed.

Lemma eval_Apply_quiet r ps s b s' : eval_Apply g ev fuel r ps s = Ok (b, s') -> quiet s s'.
Proof.
  unfold eval_Apply. intros H.
  destruct (substituteApp r ps (callerParams s)) as [app |]; [| discriminate].
  bind_inv H. apply applicationSite_quiet in Hcall.
  destruct (memo (getCurrentPosInfo a) (toMemoKey app)) as [rec |].
  - unfold useMemoizedResult in H. destruct (memoValue rec); inv_Ok H; qpeel.
  - destruct (isActive (getCurrentPosInfo a) app).
    + inv_Ok H. qpeel.
    + apply reallyEval_quiet in H. eapply quiet_trans; eauto.
Qed.

Lemma _eval_quiet e s b s' : _eval g ev fuel e s = Ok (b, s') -> quiet s s'.
Proof.
  destruct e; simpl.
  - apply eval_anything_quiet.
  - apply eval_end_quiet.
  - apply eval_Prim_quiet.
  - apply eval_Prim_quiet.
  - apply eval_Range_quiet.
  - apply eval_UnicodeChar_quiet.
  - apply eval_Param_quiet.
  - apply eval_Lex_quiet.
  - apply eval_Alt_quiet.
  - apply eval_Seq_quiet.
  - apply eval_Iter_quiet.
  - apply eval_Not_quiet.
  - apply eval_Lookahead_quiet.
  - apply eval_Arr_quiet.
  - apply eval_Str_quiet.
  - apply eval_Obj_quiet.
  - apply eval_Apply_quiet.
Qed.

Lemma PExpr_eval_quiet e s b s' : PExpr_eval g ev fuel e s = Ok (b, s') -> quiet s s'.
Proof.
  unfold PExpr_eval. intros H. bind_inv H. destruct a as [ans s1].
  apply _eval_quiet in Hcall. destruct ans; inv_Ok H; qpeel.
Qed.

End QuietEval.

Lemma eval_quiet g n : forall e s b s', eval g n e s = Ok (b, s') -> quiet s s'.
Proof.
  induction n as [| n IH]; intros e s b s' H; [discriminate |].
  simpl in H. eapply PExpr_eval_quiet; [exact IH | exact H].
Qed.

Lemma recordFailure_sameFailures a b p e :
  sameFailures a b -> sameFailures (recordFailure a p e) (recordFailure b p e).
Proof.
  intros (H1 & H2 & H3). unfold recordFailure. rewrite H1, H2.
  destruct (ignoreFailuresCount a) eqn:Ec; [| repeat split; congruence].
  destruct (p <? rightmostFailPos a); [repeat split; congruence |].
  destruct (rightmostFailPos a <? p); repeat split; simpl; congruence.
Qed.

Lemma sameFailures_trans a b c : sameFailures a b -> sameFailures b c -> sameFailures a c.
Proof. intros (H1 & H2 & H3) (G1 & G2 & G3). repeat split; congruence. Qed.

(** X24: an evaluation that returns, with either answer, leaves the count
    of suppression scopes as it found it: every [doNotRecordFailures] has
    met its [doRecordFailures]; and an evaluation that starts inside such a
    scope records no failure. *)
Theorem eval_keeps_suppression g n e s b s' :
  eval g n e s = Ok (b, s') ->
  ignoreFailuresCount s' = ignoreFailuresCount s /\
  ((0 < ignoreFailuresCount s)%nat ->
   rightmostFailPos s' = rightmostFailPos s /\ failures s' = failures s).
Proof.
  apply eval_quiet.
Qed.

Lemma eval_keeps_suppression_witness :
  exists s',
    eval gLex 20 (Apply "expr" [])
         (doNotRecordFailures (entered input12 (app0 "top"))) = Ok (true, s') /\
    ignoreFailuresCount s' = 1%nat /\ rightmostFailPos s' = -1 /\ failures s' = [].
Proof.
  destruct (eval gLex 20 (Apply "expr" [])
              (doNotRecordFailures (entered input12 (app0 "top"))))
    as [[b s'] | err |] eqn:E;
    [| vm_compute in E; discriminate E | vm_compute in E; discriminate E].
  destruct b; [| vm_compute in E; discriminate E].
  destruct (eval_keeps_suppression gLex 20 _ _ true s' E) as [Hc Hf].
  destruct Hf as [Hr Hl]; [simpl; lia |].
  exists s'. split; [reflexivity |]. split; [exact Hc |]. split; [exact Hr | exact Hl].
Defined.

(** X25: whatever fails inside a [Not] is thrown away.  When [Not(e)]
    succeeds, the record of failures is the one before; when it fails, the
    record is the one before with the failure of [Not(e)] itself recorded at
    the position before. *)
Theorem Not_records_only_itself g n e s b s' :
  eval g (S n) (Not e) s = Ok (b, s') ->
  sameFailures (if b then s else recordFailure s (currentPos s) (Not e)) s'.
Proof.
  simpl. unfold PExpr_eval. intros H. bind_inv H. destruct a as [ans s1].
  simpl in Hcall. unfold eval_Not in Hcall. bind_inv Hcall. destruct a as [ans1 s2].
  apply eval_quiet, suppressed_bracket in Hcall0.
  destruct ans1; inv_Ok Hcall.
  - inv_Ok H.
    apply (recordFailure_sameFailures _ _ (currentPos s) (Not e)) in Hcall0.
    destruct Hcall0 as (A & B & C). repeat split; assumption.
  - inv_Ok H. destruct Hcall0 as (A & B & C). repeat split; assumption.
Qed.

Lemma Not_records_only_itself_witness :
  exists s',
    eval gLex 5 (Not (StringPrim "2")) (initialState input12) = Ok (true, s') /\
    rightmostFailPos s' = -1 /\ failures s' = [].
Proof.
  destruct (eval gLex 5 (Not (StringPrim "2")) (initialState input12))
    as [[b s'] | err |] eqn:E;
    [| vm_compute in E; discriminate E | vm_compute in E; discriminate E].
  destruct b; [| vm_compute in E; discriminate E].
  destruct (Not_records_only_itself gLex 4 _ _ true s' E) as (_ & Hr & Hf).
  exists s'. split; [reflexivity |]. split; [exact Hr | exact Hf].
Defined.

(** X26: an application, below the top level, of a rule that has a
    description hides the failures of its body.  When it succeeds, the record
    of failures is the one before; when it fails, the record is the one
    before with the failure of the application itself recorded at the
    position it started from. *)
Theorem described_rule_records_only_itself g n this body s b s' :
  lookupRule (ruleDict g) (appRule this) = Some body ->
  isSome (description body) = true ->
  reallyEval g (eval g n) n this false s = Ok (b, s') ->
  sameFailures (if b then s else recordFailure s (currentPos s) (appExpr this)) s'.
Proof.
  intros Hrule Hdesc H. unfold reallyEval in H. rewrite Hrule in H.
  bind_inv H. destruct a as [value0 s3]. bind_inv H. destruct a as [value s4].
  pose proof (reallyEval_body_quiet (eval g n) n (eval_quiet g n)
                _ _ _ _ _ _ _ _ Hcall Hcall0) as Hb.
  rewrite Hdesc in *.
  destruct value as [v |]; inv_Ok H.
  - destruct Hb as (A & B & C). repeat split; assumption.
  - apply (recordFailure_sameFailures _ _ (currentPos s) (appExpr this)) in Hb.
    destruct Hb as (A & B & C). repeat split; assumption.
Qed.

Lemma described_rule_records_only_itself_witness :
  exists s',
    reallyEval gDescribed (eval gDescribed 20) 20 (app0 "num") false
               (entered (SrcString "x") (app0 "top")) = Ok (false, s') /\
    rightmostFailPos s' = 0 /\ failures s' = [Apply "num" []].
Proof.
  destruct (reallyEval gDescribed (eval gDescribed 20) 20 (app0 "num") false
              (entered (SrcString "x") (app0 "top"))) as [[b s'] | err |] eqn:E;
    [| vm_compute in E; discriminate E | vm_compute in E; discriminate E].
  destruct b; [vm_compute in E; discriminate E |].
  destruct (described_rule_records_only_itself gDescribed 20 (app0 "num") _ _ false s'
              eq_refl eq_refl E) as (_ & Hr & Hf).
  exists s'. split; [reflexivity |]. split; [exact Hr | exact Hf].
Defined.

(** ** The stream never moves backwards *)

Lemma forwardTable_same s s' : posInfos s' = posInfos s -> forwardTable s -> forwardTable s'.
Proof.
  intros Ht H p k r v. unfold getPosInfo. rewrite Ht. apply H.
Qed.

Lemma fwd_refl s : forwardTable s -> fwd s s.
Proof. intros H. split; [lia | exact H]. Qed.

Lemma fwd_trans a b c : fwd a b -> fwd b c -> fwd a c.
Proof. intros [H1 H2] [G1 G2]. split; [lia | exact G2]. Qed.

Lemma fwd_step s s1 s2 :
  fwd s s1 -> posInfos s2 = posInfos s1 -> currentPos s1 <= currentPos s2 -> fwd s s2.
Proof.
  intros [H1 H2] Ht Hp. split; [lia |]. eapply forwardTable_same; eauto.
Qed.

Lemma posInfos_recordFailure s p e : posInfos (recordFailure s p e) = posInfos s.
Proof.
  unfold recordFailure. destruct (ignoreFailuresCount s); [| reflexivity].
  destruct (p <? rightmostFailPos s); [reflexivity |].
  destruct (rightmostFailPos s <? p); reflexivity.
Qed.

Lemma inputStream_recordFailure s p e : inputStream (recordFailure s p e) = inputStream s.
Proof.
  unfold recordFailure. destruct (ignoreFailuresCount s); [| reflexivity].
  destruct (p <? rightmostFailPos s); [reflexivity |].
  destruct (rightmostFailPos s <? p); reflexivity.
Qed.

Lemma fw_recordFailure s s' p e : fwd s s' -> fwd s (recordFailure s' p e).
Proof.
  intros H. eapply fwd_step; [exact H | apply posInfos_recordFailure |].
  unfold currentPos. rewrite inputStream_recordFailure. lia.
Qed.

Lemma next_pos st o st' : next st = (o, st') -> pos st <= pos st'.
Proof.
  unfold next. destruct (atEnd st); intros H; inversion H; subst; simpl; lia.
Qed.

Lemma matchExactly_pos st x b st' : matchExactly st x = (b, st') -> pos st <= pos st'.
Proof.
  unfold matchExactly. destruct (next st) as [[v |] st1] eqn:E; intros H;
    inversion H; subst; eapply next_pos; eauto.
Qed.

Lemma matchChars_pos str : forall st b st', matchChars st str = (b, st') -> pos st <= pos st'.
Proof.
  induction str as [| c r IH]; simpl; intros st b st' H.
  - inversion H; subst. lia.
  - destruct (matchExactly st (PStr (String c EmptyString))) as [[|] st1] eqn:E.
    + apply matchExactly_pos in E. apply IH in H. lia.
    + inversion H; subst. eapply matchExactly_pos; eauto.
Qed.

Lemma matchString_pos st str b st' : matchString st str = (b, st') -> pos st <= pos st'.
Proof.
  unfold matchString. destruct (source st).
  - apply matchChars_pos.
  - apply matchExactly_pos.
Qed.

(** Peels the steps that keep the table and do not move the stream
    backwards off the final state. *)
Ltac fstep :=
  first
    [ assumption
    | apply fw_recordFailure
    | match goal with
      | |- fwd ?s (pushBinding ?s' _) => apply (fwd_step s s'); [| reflexivity | simpl; lia]
      | |- fwd ?s (popBinding ?s') => apply (fwd_step s s'); [| reflexivity | simpl; lia]
      | |- fwd ?s (truncateBindings ?s' _) =>
          apply (fwd_step s s'); [| reflexivity | simpl; lia]
      | |- fwd ?s (setBindings ?s' _) => apply (fwd_step s s'); [| reflexivity | simpl; lia]
      | |- fwd ?s (exitLexicalContext ?s') =>
          apply (fwd_step s s'); [| reflexivity | simpl; lia]
      | |- fwd ?s (doRecordFailures ?s') =>
          apply (fwd_step s s'); [| reflexivity | simpl; lia]
      end ].

Ltac fpeel := repeat fstep.

Lemma fwd_make s s1 s2 :
  forwardTable s1 -> posInfos s2 = posInfos s1 -> currentPos s <= currentPos s2 -> fwd s s2.
Proof.
  intros H Ht Hp. split; [exact Hp |]. eapply forwardTable_same; eauto.
Qed.

Lemma forwardTable_fresh s : posInfos s = (fun _ => None) -> forwardTable s.
Proof.
  intros Ht p k r v. unfold getPosInfo. rewrite Ht. simpl. discriminate.
Qed.

Lemma forwardTable_setPosInfo s p pi :
  forwardTable s ->
  (forall k r v, memo pi k = Some r -> memoValue r = Some v -> p <= memoPos r) ->
  forwardTable (setPosInfo s p pi).
Proof.
  intros Hs Hpi q k r v. destruct (Z.eq_dec q p) as [-> | Hne].
  - rewrite lookup_setPosInfo_same. apply Hpi.
  - rewrite lookup_setPosInfo_other by exact Hne. apply Hs.
Qed.

Lemma forwardTable_commitSeed s p k r :
  forwardTable s ->
  (forall v, memoValue r = Some v -> p <= memoPos r) ->
  forwardTable (commitSeed s p k r).
Proof.
  intros Hs Hr. apply forwardTable_setPosInfo; [exact Hs |].
  intros k' r' v. simpl. destruct (String.eqb k' k).
  - intros H. inversion H; subst. apply Hr.
  - apply Hs.
Qed.

Lemma forwardTable_memo s s' :
  (forall p, memo (getPosInfo s' p) = memo (getPosInfo s p)) ->
  forwardTable s -> forwardTable s'.
Proof.
  intros Hm Hs p k r v. rewrite Hm. apply Hs.
Qed.

Lemma memo_posInfoEnter s p a q :
  memo (getPosInfo (posInfoEnter s p a) q) = memo (getPosInfo s q).
Proof.
  unfold posInfoEnter. destruct (Z.eq_dec q p) as [-> | Hne].
  - rewrite lookup_setPosInfo_same. reflexivity.
  - rewrite lookup_setPosInfo_other by exact Hne. reflexivity.
Qed.

Lemma fwd_pop s s4 st r :
  forwardTable s -> pos (inputStream s) <= pos st ->
  inputStreamStack s4 = (st, posInfos s) :: r ->
  fwd s (popInputStream s4).
Proof.
  intros Hs Hp Hst. unfold popInputStream. rewrite Hst.
  apply (fwd_make s s); [exact Hs | reflexivity | exact Hp].
Qed.

Section ForwardEval.

Variable g : Grammar.
Variable ev : PExpr -> State -> Result Answer.
Variable fuel : nat.
Hypothesis Hev : forall e s b s', forwardTable s -> ev e s = Ok (b, s') -> fwd s s'.
Hypothesis Hfr : forall e s b s', ev e s = Ok (b, s') -> frames s s'.

Lemma skipSpaces_fwd s s' : forwardTable s -> skipSpaces g ev s = Ok s' -> fwd s s'.
Proof.
  unfold skipSpaces. intros Hs H. bind_inv H. destruct a as [ans s1]. inv_Ok H.
  apply Hev in Hcall; [| exact Hs]. destruct ans; fpeel.
Qed.

Lemma skipSpacesIf_fwd s p s' :
  forwardTable s ->
  skipSpacesIfInSyntacticContext g ev s = Ok (p, s') -> fwd s s'.
Proof.
  unfold skipSpacesIfInSyntacticContext. destruct (inSyntacticContext s); intros Hs H.
  - bind_inv H. inv_Ok H. eapply skipSpaces_fwd; eauto.
  - inv_Ok H. apply fwd_refl, Hs.
Qed.

(** A step of the stream itself. *)
Lemma fw_setInputStream s s1 st :
  fwd s s1 -> pos (inputStream s1) <= pos st -> fwd s (setInputStream s1 st).
Proof.
  intros H Hp. eapply fwd_step; [exact H | reflexivity | exact Hp].
Qed.

Ltac open_skip_fwd H Hs :=
  bind_inv H;
  match goal with
  | a : (Z * State)%type |- _ =>
      let p := fresh "origPos" in let s1 := fresh "s1" in
      destruct a as [p s1];
      match goal with
      | Hc : skipSpacesIfInSyntacticContext _ _ _ = Ok _ |- _ =>
          apply skipSpacesIf_fwd in Hc; [| exact Hs]
      end
  end.

Lemma eval_anything_fwd s b s' :
  forwardTable s -> eval_anything g ev s = Ok (b, s') -> fwd s s'.
Proof.
  unfold eval_anything. intros Hs H. open_skip_fwd H Hs.
  destruct (next (inputStream s1)) as [[v |] st] eqn:E; apply next_pos in E;
    inv_Ok H; fpeel; apply fw_setInputStream; assumption.
Qed.

Lemma eval_end_fwd s b s' : forwardTable s -> eval_end g ev s = Ok (b, s') -> fwd s s'.
Proof.
  unfold eval_end. intros Hs H. open_skip_fwd H Hs.
  destruct (atEnd (inputStream s1)); inv_Ok H; fpeel.
Qed.

Lemma eval_Prim_fwd this obj matcher s b s' :
  (forall st b st', matcher st = (b, st') -> pos st <= pos st') ->
  forwardTable s -> eval_Prim g ev this obj matcher s = Ok (b, s') -> fwd s s'.
Proof.
  unfold eval_Prim. intros Hm Hs H. open_skip_fwd H Hs.
  destruct (matcher (inputStream s1)) as [[|] st] eqn:E; apply Hm in E;
    inv_Ok H; fpeel; apply fw_setInputStream; assumption.
Qed.

Lemma eval_Range_fwd from to s b s' :
  forwardTable s -> eval_Range g ev from to s = Ok (b, s') -> fwd s s'.
Proof.
  unfold eval_Range. intros Hs H. open_skip_fwd H Hs.
  destruct (next (inputStream s1)) as [o st] eqn:E. apply next_pos in E.
  destruct (inRange from to o); inv_Ok H; fpeel; apply fw_setInputStream; assumption.
Qed.

Lemma eval_UnicodeChar_fwd c s b s' :
  forwardTable s -> eval_UnicodeChar g ev c s = Ok (b, s') -> fwd s s'.
Proof.
  unfold eval_UnicodeChar. intros Hs H. open_skip_fwd H Hs.
  destruct (next (inputStream s1)) as [[v |] st] eqn:E; apply next_pos in E;
    [destruct (unicodeTest g c v) |]; inv_Ok H; fpeel;
    apply fw_setInputStream; assumption.
Qed.

Lemma eval_Param_fwd i s b s' :
  forwardTable s -> eval_Param ev i s = Ok (b, s') -> fwd s s'.
Proof.
  unfold eval_Param. destruct (currentApplication s); [| discriminate].
  destruct (nth_error (appParams a) i); [| discriminate]. intros Hs H.
  eapply Hev; eauto.
Qed.

Lemma eval_Lex_fwd e s b s' : forwardTable s -> eval_Lex ev e s = Ok (b, s') -> fwd s s'.
Proof.
  unfold eval_Lex. intros Hs H. bind_inv H. destruct a as [ans s1]. inv_Ok H.
  apply Hev in Hcall; [| exact Hs].
  change (currentPos s) with (currentPos (enterLexicalContext s)). fpeel.
Qed.

Lemma eval_Alt_fwd ts : forall s b s',
  forwardTable s -> eval_Alt ev ts s = Ok (b, s') -> fwd s s'.
Proof.
  induction ts as [| t r IH]; simpl; intros s b s' Hs H.
  - inv_Ok H. apply fwd_refl, Hs.
  - bind_inv H. destruct a as [ans s1]. apply Hev in Hcall; [| exact Hs]. destruct ans.
    + inv_Ok H. exact Hcall.
    + eapply fwd_trans; [exact Hcall | eapply IH; [apply Hcall | eauto]].
Qed.

Lemma eval_Seq_fwd fs : forall s b s',
  forwardTable s -> eval_Seq ev fs s = Ok (b, s') -> fwd s s'.
Proof.
  induction fs as [| t r IH]; simpl; intros s b s' Hs H.
  - inv_Ok H. apply fwd_refl, Hs.
  - bind_inv H. destruct a as [ans s1]. apply Hev in Hcall; [| exact Hs]. destruct ans.
    + eapply fwd_trans; [exact Hcall | eapply IH; [apply Hcall | eauto]].
    + inv_Ok H. exact Hcall.
Qed.

Lemma iterLoop_fwd e arity mx rounds : forall n cols s n' cols' s',
  forwardTable s ->
  iterLoop ev e arity mx rounds n cols s = Ok (n', cols', s') -> fwd s s'.
Proof.
  induction rounds as [| r IH]; intros n cols s n' cols' s' Hs H; cbn [iterLoop] in H;
    [discriminate |].
  destruct (belowMax n mx).
  - bind_inv H. destruct a as [ans s1]. apply Hev in Hcall; [| exact Hs]. destruct ans.
    + destruct (spliceLast (bindings s1) arity) as [rest row].
      apply IH in H.
      * eapply fwd_trans; [| exact H]. fpeel.
      * eapply forwardTable_same; [| apply Hcall]. reflexivity.
    + inv_Ok H. exact Hcall.
  - inv_Ok H. apply fwd_refl, Hs.
Qed.

Lemma pushIterNodes_fwd cols interval : forall s0 s,
  fwd s0 s -> fwd s0 (pushIterNodes s cols interval).
Proof.
  unfold pushIterNodes. induction cols as [| c r IH]; simpl; intros s0 s H.
  - exact H.
  - apply IH. fpeel.
Qed.

Lemma eval_Iter_fwd e mn mx s b s' :
  forwardTable s -> eval_Iter ev fuel e mn mx s = Ok (b, s') -> fwd s s'.
Proof.
  unfold eval_Iter. intros Hs H. bind_inv H. destruct a as [[n cols] s1].
  apply iterLoop_fwd in Hcall; [| exact Hs].
  destruct (n <? mn)%nat; [inv_Ok H; exact Hcall |].
  bind_inv H. inv_Ok H. apply pushIterNodes_fwd, Hcall.
Qed.

Lemma eval_Not_fwd e s b s' : forwardTable s -> eval_Not ev e s = Ok (b, s') -> fwd s s'.
Proof.
  unfold eval_Not. intros Hs H. bind_inv H. destruct a as [ans s1].
  apply Hev in Hcall; [| eapply forwardTable_same; [| exact Hs]; reflexivity].
  change (currentPos (doNotRecordFailures s)) with (currentPos s) in Hcall.
  destruct ans; inv_Ok H.
  - fpeel.
  - apply (fwd_make s s1); [apply Hcall | reflexivity | unfold currentPos; simpl; lia].
Qed.

Lemma eval_Lookahead_fwd e s b s' :
  forwardTable s -> eval_Lookahead ev e s = Ok (b, s') -> fwd s s'.
Proof.
  unfold eval_Lookahead. intros Hs H. bind_inv H. destruct a as [ans s1].
  apply Hev in Hcall; [| exact Hs]. destruct ans; inv_Ok H.
  - apply (fwd_make s s1); [apply Hcall | reflexivity | unfold currentPos; simpl; lia].
  - exact Hcall.
Qed.

Lemma eval_Arr_fwd e s b s' : forwardTable s -> eval_Arr ev e s = Ok (b, s') -> fwd s s'.
Proof.
  unfold eval_Arr. intros Hs H.
  destruct (next (inputStream s)) as [o st] eqn:E. apply next_pos in E.
  destruct o as [[p | elems | ps] |];
    try (inv_Ok H; apply fw_setInputStream; [apply fwd_refl, Hs | exact E]).
  bind_inv H. destruct a as [a s2]. inv_Ok H. apply Hfr in Hcall.
  destruct Hcall as [F1 _ _ _ _].
  eapply fwd_pop; [exact Hs | exact E | exact F1].
Qed.

Lemma eval_Str_fwd e s b s' : forwardTable s -> eval_Str ev e s = Ok (b, s') -> fwd s s'.
Proof.
  unfold eval_Str. intros Hs H.
  destruct (next (inputStream s)) as [o st] eqn:E. apply next_pos in E.
  destruct o as [[[| | | | str] | elems | ps] |];
    try (inv_Ok H; apply fw_setInputStream; [apply fwd_refl, Hs | exact E]).
  bind_inv H. destruct a as [a s2]. bind_inv H. destruct a0 as [ans s3]. inv_Ok H.
  apply Hfr in Hcall. destruct Hcall as [F1 _ _ _ _].
  assert (F3 : inputStreamStack s3 = inputStreamStack s2).
  { destruct a; [| inv_Ok Hcall0; reflexivity].
    apply Hfr in Hcall0. destruct Hcall0 as [G1 _ _ _ _]. exact G1. }
  eapply fwd_pop; [exact Hs | exact E |].
  destruct b; simpl; rewrite F3; exact F1.
Qed.

Lemma objLoop_fwd obj ps : forall n s r s',
  forwardTable s -> objLoop ev obj ps n s = Ok (r, s') -> fwd s s'.
Proof.
  induction ps as [| [name pattern] rest IH]; simpl; intros n s r s' Hs H.
  - inv_Ok H. apply fwd_refl, Hs.
  - destruct (hasOwnProperty obj name); simpl in H; [| inv_Ok H; apply fwd_refl, Hs].
    bind_inv H. destruct a as [a s2]. apply Hfr in Hcall. destruct Hcall as [F1 _ _ _ _].
    assert (Hq : fwd s (popInputStream s2)).
    { eapply fwd_pop; [exact Hs | | exact F1]. lia. }
    destruct (a && atEnd (inputStream s2)).
    + eapply fwd_trans; [exact Hq | eapply IH; [apply Hq | eauto]].
    + inv_Ok H. exact Hq.
Qed.

Lemma eval_Obj_fwd ps len s b s' :
  forwardTable s -> eval_Obj ev ps len s = Ok (b, s') -> fwd s s'.
Proof.
  unfold eval_Obj. intros Hs H.
  destruct (next (inputStream s)) as [o st] eqn:E. apply next_pos in E.
  assert (H0 : fwd s (setInputStream s st))
    by (apply fw_setInputStream; [apply fwd_refl, Hs | exact E]).
  destruct o as [obj |]; [| inv_Ok H; exact H0].
  destruct (isObjectLike obj); [| inv_Ok H; exact H0].
  bind_inv H. destruct a as [r s1]. apply objLoop_fwd in Hcall; [| apply H0].
  pose proof (fwd_trans _ _ _ H0 Hcall) as Hq.
  destruct r as [n |]; [destruct len |]; inv_Ok H; fpeel.
Qed.

Lemma evalOnce_fwd this e s v s' :
  forwardTable s -> evalOnce ev this e s = Ok (v, s') -> fwd s s'.
Proof.
  unfold evalOnce. intros Hs H. bind_inv H. destruct a as [ans s1].
  apply Hev in Hcall; [| exact Hs].
  destruct ans; [| inv_Ok H; exact Hcall].
  destruct (spliceLast (bindings s1) (getArity e)) as [rest row]. inv_Ok H. fpeel.
Qed.

(** The record the loop of [growSeedResult] ends with lies at or after
    the position the loop starts from. *)
Lemma growLoop_fwd this body origPos k rounds : forall lr c s lr' c' s',
  forwardTable s ->
  growLoop ev this body origPos k rounds lr c s = Ok (lr', c', s') ->
  forwardTable s' /\ origPos <= memoPos lr'.
Proof.
  induction rounds as [| r IH]; simpl; intros lr c s lr' c' s' Hs H; [discriminate |].
  bind_inv H. destruct a as [newValue s1]. apply evalOnce_fwd in Hcall;
    [| eapply forwardTable_same; [| exact Hs]; reflexivity].
  destruct Hcall as [Hp Ht]. change (currentPos (setCurrentPos s origPos)) with origPos in Hp.
  destruct (currentPos s1 <=? memoPos lr) eqn:Hle.
  - inv_Ok H. apply Z.leb_le in Hle. split; [exact Ht | lia].
  - apply IH in H; [exact H |].
    apply forwardTable_commitSeed; [exact Ht |]. intros v _. exact Hp.
Qed.

Lemma growSeedResult_fwd this body origPos k lr seed s v s' :
  forwardTable s -> origPos <= currentPos s ->
  growSeedResult ev fuel this body origPos k lr seed s = Ok (v, s') ->
  forwardTable s' /\ origPos <= currentPos s'.
Proof.
  unfold growSeedResult. intros Hs Hp H. destruct seed; [| inv_Ok H; auto].
  destruct lr as [r |].
  - bind_inv H. destruct a as [[r' c] s1]. inv_Ok H.
    apply growLoop_fwd in Hcall; [| exact Hs]. destruct Hcall as [Ht Hr].
    split; [eapply forwardTable_same; [| exact Ht]; reflexivity |].
    unfold currentPos. simpl. exact Hr.
  - bind_inv H. destruct a. discriminate.
Qed.

Lemma settleResult_fwd this body origPos value s v s' :
  forwardTable s -> origPos <= currentPos s ->
  settleResult ev fuel this body origPos value s = Ok (v, s') ->
  forwardTable s' /\ origPos <= currentPos s'.
Proof.
  unfold settleResult. intros Hs Hp H.
  assert (Hmemoize : forwardTable (commitSeed s origPos (toMemoKey this)
                                     (mkMemoRec (currentPos s) value)))
    by (apply forwardTable_commitSeed; [exact Hs | intros; exact Hp]).
  destruct (currentLeftRecursion (getPosInfo s origPos)) as [| lr rest].
  - inv_Ok H. split; [exact Hmemoize | exact Hp].
  - destruct (sameApplication this (headApplication lr)).
    + bind_inv H. destruct a as [v1 s1]. inv_Ok H.
      apply growSeedResult_fwd in Hcall; [| exact Hs | exact Hp].
      destruct Hcall as [Ht Hq]. split; [| exact Hq].
      apply forwardTable_setPosInfo; [exact Ht |]. intros k0 r0 v0. apply Ht.
    + destruct (isInvolved lr this); inv_Ok H; split; auto.
Qed.

Lemma reallyEval_fwd this top s b s' :
  forwardTable s -> reallyEval g ev fuel this top s = Ok (b, s') -> fwd s s'.
Proof.
  unfold reallyEval. intros Hs H.
  destruct (lookupRule (ruleDict g) (appRule this)) as [body |]; [| discriminate].
  bind_inv H. destruct a as [value0 s3]. bind_inv H. destruct a as [value s4].
  assert (Hs1 : forwardTable (posInfoEnter s (currentPos s) this))
    by (eapply forwardTable_memo; [| exact Hs]; intros q; apply memo_posInfoEnter).
  apply evalOnce_fwd in Hcall;
    [| destruct (isSome (description body));
       [eapply forwardTable_same; [| exact Hs1]; reflexivity | exact Hs1]].
  destruct Hcall as [Hp3 Ht3].
  assert (Hp3' : currentPos s <= currentPos s3)
    by (destruct (isSome (description body)); exact Hp3).
  apply settleResult_fwd in Hcall0; [| exact Ht3 | exact Hp3'].
  destruct Hcall0 as [Ht4 Hp4].
  match type of H with
  | context [posInfoExit ?s5 _] => assert (Hq : fwd s (posInfoExit s5 (currentPos s)))
  end.
  { split.
    - change (currentPos s <= currentPos
                (if isSome (description body)
                 then if isSome value then doRecordFailures s4
                      else recordFailure (doRecordFailures s4) (currentPos s)
                                         (appExpr this)
                 else s4)).
      destruct (isSome (description body)); [| exact Hp4].
      destruct (isSome value); [exact Hp4 |].
      unfold currentPos. rewrite inputStream_recordFailure. exact Hp4.
    - eapply forwardTable_memo; [intros q; apply posInfoExit_keeps |].
      destruct (isSome (description body)); [| exact Ht4].
      destruct (isSome value).
      + eapply forwardTable_same; [| exact Ht4]. reflexivity.
      + eapply forwardTable_same; [| exact Ht4].
        rewrite posInfos_recordFailure. reflexivity. }
  destruct value as [v |]; [| inv_Ok H; exact Hq].
  destruct top; [| inv_Ok H; fpeel].
  bind_inv H. bind_inv H. destruct a0 as [ans s9].
  assert (Hq8 : fwd s a).
  { destruct (isSyntactic this).
    - apply skipSpaces_fwd in Hcall;
        [| eapply forwardTable_same; [| apply Hq]; reflexivity].
      eapply fwd_trans; [| exact Hcall]. fpeel.
    - inv_Ok Hcall. fpeel. }
  apply Hev in Hcall0; [| apply Hq8].
  pose proof (fwd_trans _ _ _ Hq8 Hcall0) as Hq9.
  destruct ans; inv_Ok H; fpeel.
Qed.

Lemma applicationSite_fwd app s s' :
  forwardTable s -> applicationSite g ev app s = Ok s' -> fwd s s'.
Proof.
  unfold applicationSite.
  destruct (negb (sameApplication app (applySpaces_ g))
            && (inSyntacticContext s || isSyntactic app)); intros Hs H.
  - eapply skipSpaces_fwd; eauto.
  - inv_Ok H. apply fwd_refl, Hs.
Qed.

(** An [_eval] that fails may leave the stream anywhere. *)
Lemma eval_Apply_fwd r ps s b s' :
  forwardTable s -> eval_Apply g ev fuel r ps s = Ok (b, s') ->
  forwardTable s' /\ (b = true -> currentPos s <= currentPos s').
Proof.
  unfold eval_Apply. intros Hs H.
  destruct (substituteApp r ps (callerParams s)) as [app |]; [| discriminate].
  bind_inv H. apply applicationSite_fwd in Hcall; [| exact Hs].
  destruct Hcall as [Hp Ht].
  destruct (memo (getCurrentPosInfo a) (toMemoKey app)) as [rec |] eqn:Hm.
  - unfold useMemoizedResult in H. destruct (memoValue rec) as [v |] eqn:Hv; inv_Ok H.
    + split; [eapply forwardTable_same; [| exact Ht]; reflexivity |].
      intros _. pose proof (Ht _ _ _ _ Hm Hv) as Hrec.
      unfold currentPos in *. simpl. lia.
    + split; [eapply forwardTable_same; [| exact Ht]; reflexivity | discriminate].
  - destruct (isActive (getCurrentPosInfo a) app).
    + inv_Ok H. split; [| discriminate].
      apply forwardTable_setPosInfo; [exact Ht |]. intros k r0 v. simpl.
      destruct (String.eqb k (toMemoKey app)).
      * intros Hr. inversion Hr; subst. discriminate.
      * apply Ht.
    + apply reallyEval_fwd in H; [| exact Ht]. destruct H as [Hq Ht'].
      split; [exact Ht' | intros _; lia].
Qed.

Lemma _eval_fwd e s b s' :
  forwardTable s -> _eval g ev fuel e s = Ok (b, s') ->
  forwardTable s' /\ (b = true -> currentPos s <= currentPos s').
Proof.
  intros Hs H.
  assert (Hw : fwd s s' -> forwardTable s' /\ (b = true -> currentPos s <= currentPos s'))
    by (intros [A B]; auto).
  destruct e; simpl in H.
  - eapply Hw, eval_anything_fwd; eauto.
  - eapply Hw, eval_end_fwd; eauto.
  - eapply Hw, eval_Prim_fwd; eauto. intros st b0 st'. apply matchExactly_pos.
  - eapply Hw, eval_Prim_fwd; eauto. intros st b0 st'. apply matchString_pos.
  - eapply Hw, eval_Range_fwd; eauto.
  - eapply Hw, eval_UnicodeChar_fwd; eauto.
  - eapply Hw, eval_Param_fwd; eauto.
  - eapply Hw, eval_Lex_fwd; eauto.
  - eapply Hw, eval_Alt_fwd; eauto.
  - eapply Hw, eval_Seq_fwd; eauto.
  - eapply Hw, eval_Iter_fwd; eauto.
  - eapply Hw, eval_Not_fwd; eauto.
  - eapply Hw, eval_Lookahead_fwd; eauto.
  - eapply Hw, eval_Arr_fwd; eauto.
  - eapply Hw, eval_Str_fwd; eauto.
  - eapply Hw, eval_Obj_fwd; eauto.
  - eapply eval_Apply_fwd; eauto.
Qed.

Lemma PExpr_eval_fwd e s b s' :
  forwardTable s -> PExpr_eval g ev fuel e s = Ok (b, s') -> fwd s s'.
Proof.
  unfold PExpr_eval. intros Hs H. bind_inv H. destruct a as [ans s1].
  apply _eval_fwd in Hcall; [| exact Hs]. destruct Hcall as [Ht Hp].
  destruct ans; inv_Ok H.
  - split; auto.
  - apply (fwd_make s s1); [exact Ht | reflexivity | unfold currentPos; simpl; lia].
Qed.

End ForwardEval.

Lemma eval_fwd g n : forall e s b s',
  forwardTable s -> eval g n e s = Ok (b, s') -> fwd s s'.
Proof.
  induction n as [| n IH]; intros e s b s' Hs H; [discriminate |].
  simpl in H. eapply PExpr_eval_fwd; [exact IH | apply eval_frames | exact Hs | exact H].
Qed.

(** X27: the stream never moves backwards.  From a state whose memo
    records all end at or after the position they are stored at, as they do
    in a fresh state, an evaluation that succeeds ends at or after the
    position it started from, one that fails ends at that position, and the
    memo records of the final state again all end at or after their
    position. *)
Theorem eval_never_moves_back g n e s b s' :
  forwardTable s ->
  eval g n e s = Ok (b, s') ->
  (if b then currentPos s <= currentPos s' else currentPos s' = currentPos s) /\
  forwardTable s'.
Proof.
  intros Hs H. destruct (eval_fwd g n e s b s' Hs H) as [Hp Ht].
  split; [| exact Ht]. destruct b; [exact Hp |].
  apply eval_false_state in H. destruct H as (s0 & ->). reflexivity.
Qed.

Lemma eval_never_moves_back_witness :
  exists s',
    eval gLex 20 (Apply "expr" []) (initialState input12) = Ok (true, s') /\
    0 <= currentPos s' /\ forwardTable s'.
Proof.
  destruct (eval gLex 20 (Apply "expr" []) (initialState input12))
    as [[b s'] | err |] eqn:E;
    [| vm_compute in E; discriminate E | vm_compute in E; discriminate E].
  destruct b; [| vm_compute in E; discriminate E].
  exists s'. split; [reflexivity |].
  apply (eval_never_moves_back gLex 20 _ (initialState input12) true s'
           (forwardTable_fresh (initialState input12) eq_refl) E).
Defined.
